(** * GPUSAT device kernels: a shallow embedding and its properties

    The development follows [src/kernel.cu]: the bit-trie solution table
    ([getCount], [setCount], [combineTree]), the projection of an assignment
    onto a child bag ([solveIntroduce_]), the clause check ([checkBag]),
    the two per-bag kernels ([solveJoin], [solveIntroduceForget]), the
    conversion of an array into a trie ([resize]) and the host wrappers
    that launch the kernels.

    Conventions.
    - A [long] is a [Z].  Shifts to the left, negation and the atomic cells
      wrap around ([wrap64]); the [int] shift of [checkBag] wraps with
      [wrap32]; stores into the 32-bit halves of a trie word truncate.  Loop
      counters and buffer indices, which a buffer bounds far below [2^63],
      are plain integers.
    - A [double] is a primitive binary64 float.  A [long] cell that carries
      the bit pattern of a double holds that pattern as a number in
      [0, 2^64) ([double_as_longlong], [longlong_as_double]).
    - A device buffer is a list; an access outside the buffer is undefined
      behaviour in the source and [None] here.  A null pointer is [None] of
      an [option] buffer.
    - The compile-time switches [ARRAY_TYPE] and [NO_EXP] are the two
      booleans of a [build].
    - One kernel function is one worker; a launch runs the workers one after
      the other in ascending order of their global id. *)

From Stdlib Require Import ZArith Lia Bool List Floats.
From stdpp Require Import base option list.

Local Open Scope Z_scope.

(** ** Machine integers *)

Module Mach.

(** Two's complement reading of the low 64 bits: the value of a [long]. *)
Definition wrap64 (z : Z) : Z := (z + 2 ^ 63) mod 2 ^ 64 - 2 ^ 63.

(** Two's complement reading of the low 32 bits: the value of an [int]. *)
Definition wrap32 (z : Z) : Z := (z + 2 ^ 31) mod 2 ^ 32 - 2 ^ 31.

(** Conversion to [ulong] and to [uint]. *)
Definition to_ulong (z : Z) : Z := z mod 2 ^ 64.
Definition to_uint (z : Z) : Z := z mod 2 ^ 32.

(** [x << n] on a [long]. *)
Definition shl64 (x n : Z) : Z := wrap64 (Z.shiftl x n).

(** [1 << b] where [1] is an [int] literal: the result is an [int].  For
    [b >= 32] the C++ expression has no defined value; the device shift
    instruction clamps the amount and yields 0, which is what is modelled. *)
Definition int_one_shl (b : Z) : Z :=
  if b <? 32 then wrap32 (Z.shiftl 1 b) else 0.

(** The [atomicAdd], [atomicSub] and [atomicMax] of the source on a [long]
    cell, run without interference: the new content of the cell and the
    returned old content. *)
Definition atomicAdd (cell val : Z) : Z * Z := (wrap64 (val + cell), cell).
Definition atomicSub (cell val : Z) : Z * Z := (wrap64 (cell - val), cell).
Definition atomicMax (cell val : Z) : Z * Z := (Z.max val cell, cell).

End Mach.

(** ** Doubles *)

Module Dbl.

Definition sign_bit (s : bool) : Z := if s then 2 ^ 63 else 0.

(** IEEE-754 binary64 encoding: sign, 11 bits of biased exponent, 52 bits
    of fraction.  A finite float is mantissa [m] and exponent [e] with
    value [m * 2^e]; subnormals have [e = -1074]. *)
Definition bits_of_SF (x : spec_float) : Z :=
  match x with
  | S754_zero s => sign_bit s
  | S754_infinity s => sign_bit s + 2047 * 2 ^ 52
  | S754_nan => 2047 * 2 ^ 52 + 2 ^ 51
  | S754_finite s m e => sign_bit s + (e + 1074) * 2 ^ 52 + Z.pos m
  end.

Definition SF_of_bits (w : Z) : spec_float :=
  let s := Z.testbit w 63 in
  let ex := Z.land (Z.shiftr w 52) (Z.ones 11) in
  let mant := Z.land w (Z.ones 52) in
  if ex =? 0 then
    match mant with
    | Z.pos m => S754_finite s m (-1074)
    | _ => S754_zero s
    end
  else if ex =? 2047 then
    if mant =? 0 then S754_infinity s else S754_nan
  else
    match mant + 2 ^ 52 with
    | Z.pos m => S754_finite s m (ex - 1075)
    | _ => S754_nan
    end.

(** [__double_as_longlong] and [__longlong_as_double]. *)
Definition double_as_longlong (d : float) : Z := bits_of_SF (Prim2SF d).
Definition longlong_as_double (w : Z) : float := SF2Prim (SF_of_bits w).

Definition INT_MIN : Z := - 2 ^ 31.
Definition INT_MAX : Z := 2 ^ 31 - 1.

(** [ilogb] of the device math library (it is not part of the repository;
    this follows its documentation): the unbiased binary exponent of the
    magnitude; [INT_MIN] for zero and NaN, [INT_MAX] for infinities. *)
Definition ilogb (d : float) : Z :=
  match Prim2SF d with
  | S754_zero _ => INT_MIN
  | S754_nan => INT_MIN
  | S754_infinity _ => INT_MAX
  | S754_finite _ m e => Z.pos (digits2_pos m) + e - 1
  end.

(** The comparisons of the source against a literal. *)
Definition gt0 (d : float) : bool := (0 <? d)%float.
Definition ge0 (d : float) : bool := (0 <=? d)%float.
Definition lt0 (d : float) : bool := (d <? 0)%float.
Definition eq0 (d : float) : bool := (d =? 0)%float.

End Dbl.

(** ** Device buffers *)

Section Buffers.
Context {A : Type}.

(** [buf[i]] as a read. *)
Definition rd (buf : list A) (i : Z) : option A :=
  if i <? 0 then None else buf !! Z.to_nat i.

(** [buf[i] = v]. *)
Definition wr (buf : list A) (i : Z) (v : A) : option (list A) :=
  if (0 <=? i) && (i <? Z.of_nat (length buf))
  then Some (<[Z.to_nat i := v]> buf) else None.
End Buffers.

(** A launch: workers [0 .. threads-1] in turn, each given its global id. *)
Fixpoint launch_from {S : Type} (body : Z -> S -> option S)
    (threads : nat) (gid : Z) (st : S) : option S :=
  match threads with
  | O => Some st
  | S k => st' ← body gid st; launch_from body k (gid + 1) st'
  end.

Definition launch {S : Type} (body : Z -> S -> option S) (threads : nat)
    (st : S) : option S :=
  launch_from body threads 0 st.

(** ** The bit-trie *)

Module Trie.
Import Mach Dbl.

(** [((uint * ) &tree[x])[k]]: the low ([k = 0]) or high 32 bits. *)
Definition half (w k : Z) : Z :=
  if k =? 0 then Z.land w (Z.ones 32) else Z.land (Z.shiftr w 32) (Z.ones 32).

(** A 32-bit store of [v] into that half. *)
Definition set_half (w k v : Z) : Z :=
  if k =? 0
  then Z.lor (Z.shiftl (Z.land (Z.shiftr w 32) (Z.ones 32)) 32) (to_uint v)
  else Z.lor (Z.shiftl (to_uint v) 32) (Z.land w (Z.ones 32)).

(** [(id >> (numVars - i - 1)) & 1] *)
Definition child_bit (id numVars i : Z) : Z :=
  Z.land (Z.shiftr id (numVars - i - 1)) 1.

(** The loop of [getCount] from iteration [i] at node [nextId]; [fuel] is
    the number of iterations left. *)
Fixpoint getCount_loop (tree : list Z) (id numVars : Z) (fuel : nat)
    (i nextId : Z) : option float :=
  match fuel with
  | O => w ← rd tree nextId; Some (longlong_as_double w)
  | S fuel' =>
      w ← rd tree nextId;
      let nextId' := half w (child_bit id numVars i) in
      if nextId' =? 0 then Some 0%float
      else getCount_loop tree id numVars fuel' (i + 1) nextId'
  end.

Definition getCount (id : Z) (tree : list Z) (numVars : Z) : option float :=
  getCount_loop tree id numVars (Z.to_nat numVars) 0 0.

(** The loop of [setCount]; the state is the tree, the cell [treeSize],
    [nextId] and [val]. *)
Fixpoint setCount_loop (id numVars : Z) (fuel : nat) (i : Z)
    (tree : list Z) (treeSize nextId val : Z) : option (list Z * Z * Z) :=
  match fuel with
  | O => Some (tree, treeSize, nextId)
  | S fuel' =>
      w ← rd tree nextId;
      let k := child_bit id numVars i in
      let low := half w k in
      (* secure our slot by incrementing treeSize *)
      let '(treeSize1, val1) :=
        if (val =? 0) && (low =? 0)
        then let '(ts, old) := atomicAdd treeSize 1 in
             (ts, to_ulong (wrap64 (old + 1)))
        else (treeSize, val) in
      (* atomicCAS(lowVal, 0, val) *)
      tree1 ← (if low =? 0 then wr tree nextId (set_half w k val1)
                else Some tree);
      w1 ← rd tree1 nextId;
      let low1 := half w1 k in
      let '(treeSize2, val2) :=
        if (low1 =? val1) && (i <? numVars - 1)
        then let '(ts, old) := atomicAdd treeSize1 1 in
             (ts, to_ulong (wrap64 (old + 1)))
        else (treeSize1, val1) in
      setCount_loop id numVars fuel' (i + 1) tree1 treeSize2 low1 val2
  end.

Definition setCount (id : Z) (tree : list Z) (numVars treeSize : Z)
    (value : float) : option (list Z * Z) :=
  let treeSize0 :=
    if numVars =? 0 then fst (atomicAdd treeSize 1) else treeSize in
  '(tree1, treeSize1, nextId) ←
    setCount_loop id numVars (Z.to_nat numVars) 0 tree treeSize0 0 0;
  tree2 ← wr tree1 nextId (double_as_longlong value);
  Some (tree2, treeSize1).

(** The worker of [combineTree]: [tree] receives the entries of
    [solutions_old]. *)
Definition combineTree (numVars : Z) (solutions_old : list Z)
    (startId id_offset : Z) (gid : Z) (st : list Z * Z)
    : option (list Z * Z) :=
  let '(tree, treeSize) := st in
  let id := gid + id_offset in
  val ← getCount (id + startId) solutions_old numVars;
  if gt0 val
  then setCount (id + startId) tree numVars treeSize val
  else Some (tree, treeSize).

Definition combineTree_launch (numVars : Z) (solutions_old : list Z)
    (startId id_offset : Z) (threads : nat) (tree : list Z) (treeSize : Z)
    : option (list Z * Z) :=
  launch (combineTree numVars solutions_old startId id_offset) threads
    (tree, treeSize).

End Trie.

(** ** Compile-time variants *)

Record build := { ARRAY_TYPE : bool; NO_EXP : bool }.

(** ** Projection onto a child bag and child lookup *)

Module Bag.
Import Mach Dbl.

(** A read through a pointer that may be null. *)
Definition rdp {A} (p : option (list A)) (i : Z) : option A :=
  buf ← p; rd buf i.

(** [(id >> a) & 1] *)
Definition id_bit (id a : Z) : Z := Z.land (Z.shiftr id a) 1.

(** [while (variables[a] != target) a++;] returns the final [a].  The
    source has no bound on [a]: the scan ends at a match or with a read
    past the end of [variables].  [fuel] bounds the number of increments;
    with [fuel = length variables] the read past the end comes first. *)
Fixpoint scan (variables : list Z) (target : Z) (fuel : nat) (a : Z)
    : option Z :=
  v ← rd variables a;
  if v =? target then Some a
  else match fuel with
       | O => None
       | S fuel' => scan variables target fuel' (a + 1)
       end.

(** The variable-merge loop: [for (b = 0; b < numVE && a < numV; b++)].
    Returns the final [a] and [otherId]. *)
Fixpoint merge_loop (variables : list Z) (edgeVariables : option (list Z))
    (numV numVE id : Z) (fuel : nat) (b a otherId : Z) : option (Z * Z) :=
  match fuel with
  | O => Some (a, otherId)
  | S fuel' =>
      if (b <? numVE) && (a <? numV) then
        ev ← rdp edgeVariables b;
        a' ← scan variables ev (length variables) a;
        let otherId' := Z.lor otherId (shl64 (id_bit id a') b) in
        merge_loop variables edgeVariables numV numVE id fuel'
          (b + 1) (a' + 1) otherId'
      else Some (a, otherId)
  end.

(** [weights[((id >> a) & 1) > 0 ? v * 2 : v * 2 + 1]] *)
Definition literal_weight (weights : list float) (id a v : Z)
    : option float :=
  rd weights (if id_bit id a >? 0 then v * 2 else v * 2 + 1).

(** The weight loop of [solveIntroduce_]: only the variables that are not
    in the child bag contribute. *)
Fixpoint introduced_weight_loop (weights : list float)
    (variables : list Z) (edgeVariables : option (list Z))
    (numV numVE id : Z) (fuel : nat) (a b : Z) (weight : float)
    : option float :=
  match fuel with
  | O => Some weight
  | S fuel' =>
      if a <? numV then
        v ← rd variables a;
        '(differs) ← match edgeVariables with
                      | None => Some true
                      | Some ev => e ← rd ev b; Some (negb (v =? e))
                      end;
        weight' ← (if differs
                    then w ← literal_weight weights id a v;
                         Some (weight * w)%float
                    else Some weight);
        let b' := if negb differs && (b <? numVE - 1) then b + 1 else b in
        introduced_weight_loop weights variables edgeVariables numV numVE id
          fuel' (a + 1) b' weight'
      else Some weight
  end.

Definition solveIntroduce_ (bld : build) (numV : Z) (edge : option (list Z))
    (numVE : Z) (variables : list Z) (edgeVariables : option (list Z))
    (minId maxId : Z) (weights : option (list float)) (id : Z)
    : option float :=
  '(_, otherId) ←
    merge_loop variables edgeVariables numV numVE id (Z.to_nat numVE) 0 0 0;
  weight ← match weights with
            | None => Some 1%float
            | Some ws =>
                introduced_weight_loop ws variables edgeVariables numV numVE
                  id (Z.to_nat numV) 0 0 1%float
            end;
  match edge with
  | Some e =>
      if (otherId >=? minId) && (otherId <? maxId) then
        if ARRAY_TYPE bld then
          w ← rd e (otherId - minId);
          Some (longlong_as_double w * weight)%float
        else
          c ← Trie.getCount otherId e numVE;
          Some (c * weight)%float
      else Some (-1)%float
  | None =>
      if (otherId >=? minId) && (otherId <? maxId) then Some 0%float
      else Some (-1)%float
  end.

(** The product of the literal weights of all bag variables: the loop of
    [solveJoin] and of the leaf case of [solveIntroduceF]. *)
Fixpoint bag_weight_loop (weights : list float) (variables : list Z)
    (numV id : Z) (fuel : nat) (a : Z) (weight : float) : option float :=
  match fuel with
  | O => Some weight
  | S fuel' =>
      if a <? numV then
        v ← rd variables a;
        w ← literal_weight weights id a v;
        bag_weight_loop weights variables numV id fuel' (a + 1)
          (weight * w)%float
      else Some weight
  end.

Definition bag_weight (weights : option (list float)) (variables : list Z)
    (numV id : Z) (start : float) : option float :=
  match weights with
  | None => Some start
  | Some ws => bag_weight_loop ws variables numV id (Z.to_nat numV) 0 start
  end.

(** *** checkBag *)

(** [(id & (1 << b))] with the [int] shift of the source. *)
Definition id_mask (id b : Z) : Z := Z.land id (int_one_shl b).

(** The loop over the bag variables for the literal [clauses[idx]];
    [Some 1] out of the middle of the loop is the [break]. *)
Fixpoint checkBag_vars (clauses variables : list Z) (id numV idx : Z)
    (fuel : nat) (b satC : Z) : option Z :=
  match fuel with
  | O => Some satC
  | S fuel' =>
      if b <? numV then
        lit ← rd clauses idx;
        v ← rd variables b;
        if (lit =? v) || (lit =? wrap64 (- v)) then
          if lit <? 0 then
            if id_mask id b =? 0 then Some 1
            else checkBag_vars clauses variables id numV idx fuel' (b + 1) 0
          else
            if id_mask id b >? 0 then Some 1
            else checkBag_vars clauses variables id numV idx fuel' (b + 1) 0
        else checkBag_vars clauses variables id numV idx fuel' (b + 1) satC
      else Some satC
  end.

(** The loop over the literals of one clause:
    [for (a = 0; a < numVarsC[i] && !satC; a++)]. *)
Fixpoint checkBag_lits (clauses variables : list Z) (id numV varNum len : Z)
    (fuel : nat) (a satC : Z) : option Z :=
  match fuel with
  | O => Some satC
  | S fuel' =>
      if (a <? len) && (satC =? 0) then
        satC' ← checkBag_vars clauses variables id numV (varNum + a)
                  (Z.to_nat numV) 0 1;
        checkBag_lits clauses variables id numV varNum len fuel' (a + 1) satC'
      else Some satC
  end.

(** The loop over the clauses. *)
Fixpoint checkBag_clauses (clauses numVarsC variables : list Z)
    (numclauses id numV : Z) (fuel : nat) (i varNum : Z) : option Z :=
  match fuel with
  | O => Some 1
  | S fuel' =>
      if i <? numclauses then
        len ← rd numVarsC i;
        satC ← checkBag_lits clauses variables id numV varNum len
                 (Z.to_nat len) 0 0;
        if satC =? 0 then Some 0
        else checkBag_clauses clauses numVarsC variables numclauses id numV
               fuel' (i + 1) (varNum + len)
      else Some 1
  end.

Definition checkBag (clauses numVarsC : list Z) (numclauses id numV : Z)
    (variables : list Z) : option Z :=
  checkBag_clauses clauses numVarsC variables numclauses id numV
    (Z.to_nat numclauses) 0 0.

(** *** solveIntroduceF *)

Definition solveIntroduceF (bld : build) (clauses numVarsC : list Z)
    (numclauses numV : Z) (edge : option (list Z)) (numVE : Z)
    (variables : list Z) (edgeVariables : option (list Z))
    (minId maxId : Z) (weights : option (list float)) (id : Z)
    : option float :=
  tmp ← match edge with
         | Some _ =>
             solveIntroduce_ bld numV edge numVE variables edgeVariables
               minId maxId weights id
         | None => bag_weight weights variables numV id 1%float
         end;
  if gt0 tmp then
    sat ← checkBag clauses numVarsC numclauses id numV variables;
    if negb (sat =? 1) then Some 0%float else Some tmp
  else Some 0%float.

End Bag.

(** ** The join kernel *)

Module Join.
Import Mach Dbl Bag.

Record args := {
  edge1 : option (list Z);
  edge2 : option (list Z);
  variables : list Z;
  edgeVariables1 : option (list Z);
  edgeVariables2 : option (list Z);
  numV : Z;
  numVE1 : Z;
  numVE2 : Z;
  minId1 : Z;
  maxId1 : Z;
  minId2 : Z;
  maxId2 : Z;
  startIDNode : Z;
  weights : option (list float);
  value : float;
  id_offset : Z;
  max_id : Z
}.

(** The device memory the kernel writes. *)
Record state := {
  solutions : list Z;
  sols : Z;
  exponent : Z
}.

(** [tmp]: the count looked up in the first child, [-1] without it. *)
Definition lookup1 (bld : build) (p : args) (id : Z) : option float :=
  if negb (minId1 p =? -1) then
    solveIntroduce_ bld (numV p) (edge1 p) (numVE1 p) (variables p)
      (edgeVariables1 p) (minId1 p) (maxId1 p) (weights p) id
  else Some (-1)%float.

(** [tmp_]: the count looked up in the second child. *)
Definition lookup2 (bld : build) (p : args) (id : Z) : option float :=
  if negb (minId2 p =? -1) then
    solveIntroduce_ bld (numV p) (edge2 p) (numVE2 p) (variables p)
      (edgeVariables2 p) (minId2 p) (maxId2 p) (weights p) id
  else Some (-1)%float.

(** The update of [sols] in the two one-child branches. *)
Definition fold_sols (sols : Z) (oldVal t : float) : Z :=
  if lt0 oldVal then
    if gt0 t then fst (atomicAdd sols 1) else sols
  else if gt0 oldVal then
    if eq0 t then fst (atomicSub sols 1) else sols
  else sols.

(** [if (oldVal < 0) oldVal = 1.0;] *)
Definition carry (oldVal : float) : float :=
  if lt0 oldVal then 1%float else oldVal.

(** The branches of the worker on [tmp], [tmp_] and [weight]. *)
Definition combine (bld : build) (p : args) (id : Z)
    (tmp tmp_ weight : float) (st : state) : option state :=
  let slot := id - startIDNode p in
  if ge0 tmp_ && ge0 tmp then
    let sols' :=
      if gt0 tmp_ && gt0 tmp then fst (atomicAdd (sols st) 1)
      else sols st in
    let v := if NO_EXP bld then (tmp_ * tmp / weight)%float
             else (tmp_ * tmp / value p / weight)%float in
    sol' ← wr (solutions st) slot (double_as_longlong v);
    Some {| solutions := sol'; sols := sols'; exponent := exponent st |}
  else if ge0 tmp then
    (* we have some solutions in edge1 *)
    w ← rd (solutions st) slot;
    let oldVal := longlong_as_double w in
    let sols' := fold_sols (sols st) oldVal tmp in
    let v := (tmp * carry oldVal / weight)%float in
    sol' ← wr (solutions st) slot (double_as_longlong v);
    Some {| solutions := sol'; sols := sols'; exponent := exponent st |}
  else if ge0 tmp_ then
    (* we have some solutions in edge2 *)
    w ← rd (solutions st) slot;
    let oldVal := longlong_as_double w in
    let sols' := fold_sols (sols st) oldVal tmp_ in
    let v := if NO_EXP bld then (tmp_ * carry oldVal)%float
             else (tmp_ * carry oldVal / value p)%float in
    sol' ← wr (solutions st) slot (double_as_longlong v);
    Some {| solutions := sol'; sols := sols'; exponent := exponent st |}
  else Some st.

(** The trailing [atomicMax(exponent, ilogb(solutions[id - startIDNode]))],
    compiled in for [ARRAY_TYPE] without [NO_EXP] only. *)
Definition track_exponent (bld : build) (p : args) (id : Z) (st : state)
    : option state :=
  if ARRAY_TYPE bld && negb (NO_EXP bld) then
    w ← rd (solutions st) (id - startIDNode p);
    Some {| solutions := solutions st; sols := sols st;
            exponent := fst (atomicMax (exponent st)
                               (ilogb (longlong_as_double w))) |}
  else Some st.

(** One worker of [solveJoin]. *)
Definition solveJoin (bld : build) (p : args) (gid : Z) (st : state)
    : option state :=
  let id := gid + id_offset p in
  if id >=? max_id p then Some st
  else
    tmp ← lookup1 bld p id;
    tmp_ ← lookup2 bld p id;
    weight ← bag_weight (weights p) (variables p) (numV p) id 1%float;
    st' ← combine bld p id tmp tmp_ weight st;
    track_exponent bld p id st'.

(** [solveJoinWrapper]: [threads] workers, [max_id = threads + id_offset]. *)
Definition solveJoin_launch (bld : build) (p : args) (threads : nat)
    (st : state) : option state :=
  launch (solveJoin bld p) threads st.


End Join.

(** ** The introduce-forget kernel *)

Module IntroForget.
Import Mach Dbl Bag.

Record args := {
  varsF : list Z;
  solsE : option (list Z);
  numVE : Z;
  varsE : option (list Z);
  combinations : Z;
  numVF : Z;
  minIdE : Z;
  maxIdE : Z;
  startIDF : Z;
  numVI : Z;
  varsI : list Z;
  clauses : list Z;
  numVarsC : list Z;
  numclauses : Z;
  weights : option (list float);
  value : float;
  id_offset : Z;
  max_id : Z
}.

(** [sols] is the counter of satisfying assignments of the array build and
    the [treeSize] cell of the trie build. *)
Record state := {
  solsF : list Z;
  sols : Z;
  exponent : Z
}.

(** [for (i = 0, a = 0; i < numVI && a < numVF; i++)]: generate
    [templateId]. *)
Fixpoint template_loop (p : args) (id : Z) (fuel : nat)
    (i a templateId : Z) : option Z :=
  match fuel with
  | O => Some templateId
  | S fuel' =>
      if (i <? numVI p) && (a <? numVF p) then
        vi ← rd (varsI p) i;
        vf ← rd (varsF p) a;
        if vi =? vf then
          template_loop p id fuel' (i + 1) (a + 1)
            (Z.lor templateId (shl64 (id_bit id a) i))
        else template_loop p id fuel' (i + 1) a templateId
      else Some templateId
  end.

(** [for (a = 0; a < numVI; a++)]: spread the bits of the extension
    number [i] over the positions of the forgotten variables. *)
Fixpoint extend_loop (p : args) (i : Z) (fuel : nat) (a b otherId : Z)
    : option Z :=
  match fuel with
  | O => Some otherId
  | S fuel' =>
      if a <? numVI p then
        fresh ← (if b >=? numVF p then Some true
                  else vi ← rd (varsI p) a;
                       vf ← rd (varsF p) b;
                       Some (negb (vi =? vf)));
        if fresh : bool then
          extend_loop p i fuel' (a + 1) b
            (Z.lor otherId (shl64 (id_bit i (a - b)) a))
        else extend_loop p i fuel' (a + 1) (b + 1) otherId
      else Some otherId
  end.

Definition solveF (bld : build) (p : args) (id : Z) : option float :=
  solveIntroduceF bld (clauses p) (numVarsC p) (numclauses p) (numVI p)
    (solsE p) (numVE p) (varsI p) (varsE p) (minIdE p) (maxIdE p)
    (weights p) id.

(** [for (i = 0; i < combinations; i++)]: sum over the extensions. *)
Fixpoint sum_loop (bld : build) (p : args) (templateId : Z) (fuel : nat)
    (i : Z) (tmp : float) : option float :=
  match fuel with
  | O => Some tmp
  | S fuel' =>
      if i <? combinations p then
        otherId ← extend_loop p i (Z.to_nat (numVI p)) 0 0 templateId;
        c ← solveF bld p otherId;
        sum_loop bld p templateId fuel' (i + 1) (tmp + c)%float
      else Some tmp
  end.

(** The value [tmp] a worker computes for its [id]. *)
Definition worker_sum (bld : build) (p : args) (id : Z) : option float :=
  if negb (numVI p =? numVF p) then
    templateId ← template_loop p id (Z.to_nat (numVI p)) 0 0 0;
    sum_loop bld p templateId (Z.to_nat (combinations p)) 0 0%float
  else
    (* no forget variables, only introduce *)
    solveF bld p id.

(** The value stored for [tmp] on top of the previous content [last]. *)
Definition stored (bld : build) (p : args) (tmp last : float) : float :=
  if NO_EXP bld then (tmp + last)%float
  else (tmp / value p + last)%float.

(** The write-back of a positive [tmp]; the same text follows both
    branches of the source. *)
Definition write_back (bld : build) (p : args) (id : Z) (tmp : float)
    (st : state) : option state :=
  if gt0 tmp then
    if ARRAY_TYPE bld then
      w ← rd (solsF st) (id - startIDF p);
      let last := longlong_as_double w in
      let sols' := wrap64 (sols st + 1) in
      solsF' ← wr (solsF st) (id - startIDF p)
                 (double_as_longlong (stored bld p tmp last));
      Some {| solsF := solsF'; sols := sols';
              exponent := if NO_EXP bld then exponent st
                          else fst (atomicMax (exponent st)
                                      (ilogb (stored bld p tmp last))) |}
    else
      last ← Trie.getCount id (solsF st) (numVF p);
      '(solsF', sols') ←
        Trie.setCount id (solsF st) (numVF p) (sols st)
          (stored bld p tmp last);
      Some {| solsF := solsF'; sols := sols';
              exponent := if NO_EXP bld then exponent st
                          else fst (atomicMax (exponent st)
                                      (ilogb (stored bld p tmp last))) |}
  else Some st.

(** [last]: the count of [id] that the write-back finds in the table,
    [solsF[id - startIDF]] of the array and [getCount] of the trie. *)
Definition previous_count (bld : build) (p : args) (id : Z) (st : state)
    : option float :=
  if ARRAY_TYPE bld
  then w ← rd (solsF st) (id - startIDF p); Some (longlong_as_double w)
  else Trie.getCount id (solsF st) (numVF p).

(** One worker of [solveIntroduceForget]. *)
Definition solveIntroduceForget (bld : build) (p : args) (gid : Z)
    (st : state) : option state :=
  let id := gid + id_offset p in
  if id >=? max_id p then Some st
  else
    tmp ← worker_sum bld p id;
    write_back bld p id tmp st.

Definition solveIntroduceForget_launch (bld : build) (p : args)
    (threads : nat) (st : state) : option state :=
  launch (solveIntroduceForget bld p) threads st.

End IntroForget.


(** ** The conversion of an array table into a trie *)

Module Resize.
Import Mach Dbl.

Record state := {
  tree : list Z;
  treeSize : Z;
  exponent : Z
}.

(** One worker of [resize] (a kernel of the trie build): a positive entry
    of the array [solutions_old] is inserted into [tree] under the id
    shifted by [startId]. *)
Definition resize (bld : build) (numVars : Z) (solutions_old : list float)
    (startId id_offset : Z) (gid : Z) (st : state) : option state :=
  let id := gid + id_offset in
  v ← rd solutions_old id;
  if gt0 v then
    '(tree', treeSize') ←
      Trie.setCount (id + startId) (tree st) numVars (treeSize st) v;
    Some {| tree := tree'; treeSize := treeSize';
            exponent := if NO_EXP bld then exponent st
                        else fst (atomicMax (exponent st) (ilogb v)) |}
  else Some st.

Definition resize_launch (bld : build) (numVars : Z)
    (solutions_old : list float) (startId id_offset : Z) (threads : nat)
    (st : state) : option state :=
  launch (resize bld numVars solutions_old startId id_offset) threads st.

End Resize.

(** ** The host wrappers *)

Module Host.
Import Mach.

(** [blockDim.x * blockIdx.x + threadIdx.x]: an [unsigned int] expression,
    widened to the [long] the function returns. *)
Definition get_global_id (blockDim blockIdx threadIdx : Z) : Z :=
  to_uint (blockDim * blockIdx + threadIdx).

(** [kernel<<<blocksPerGrid, threadsPerBlock>>>]: every thread of every
    block is one worker, here block after block.  A grid without blocks
    (or of a negative [int] number of them) is refused by the launch and no
    worker runs. *)
Definition grid_launch {S : Type} (kernel : Z -> S -> option S)
    (blocksPerGrid threadsPerBlock : Z) (st : S) : option S :=
  launch
    (fun k => kernel (get_global_id threadsPerBlock (k / threadsPerBlock)
                        (k mod threadsPerBlock)))
    (Z.to_nat (blocksPerGrid * threadsPerBlock)) st.

(** The kernel arguments the wrappers pass on unchanged, with the two the
    launch decides. *)
Definition join_args (p : Join.args) (id_offset max_id : Z) : Join.args :=
  {| Join.edge1 := Join.edge1 p; Join.edge2 := Join.edge2 p;
     Join.variables := Join.variables p;
     Join.edgeVariables1 := Join.edgeVariables1 p;
     Join.edgeVariables2 := Join.edgeVariables2 p;
     Join.numV := Join.numV p;
     Join.numVE1 := Join.numVE1 p; Join.numVE2 := Join.numVE2 p;
     Join.minId1 := Join.minId1 p; Join.maxId1 := Join.maxId1 p;
     Join.minId2 := Join.minId2 p; Join.maxId2 := Join.maxId2 p;
     Join.startIDNode := Join.startIDNode p;
     Join.weights := Join.weights p; Join.value := Join.value p;
     Join.id_offset := id_offset; Join.max_id := max_id |}.

Definition introduceForget_args (p : IntroForget.args)
    (id_offset max_id : Z) : IntroForget.args :=
  {| IntroForget.varsF := IntroForget.varsF p;
     IntroForget.solsE := IntroForget.solsE p;
     IntroForget.numVE := IntroForget.numVE p;
     IntroForget.varsE := IntroForget.varsE p;
     IntroForget.combinations := IntroForget.combinations p;
     IntroForget.numVF := IntroForget.numVF p;
     IntroForget.minIdE := IntroForget.minIdE p;
     IntroForget.maxIdE := IntroForget.maxIdE p;
     IntroForget.startIDF := IntroForget.startIDF p;
     IntroForget.numVI := IntroForget.numVI p;
     IntroForget.varsI := IntroForget.varsI p;
     IntroForget.clauses := IntroForget.clauses p;
     IntroForget.numVarsC := IntroForget.numVarsC p;
     IntroForget.numclauses := IntroForget.numclauses p;
     IntroForget.weights := IntroForget.weights p;
     IntroForget.value := IntroForget.value p;
     IntroForget.id_offset := id_offset; IntroForget.max_id := max_id |}.

(** [int blocksPerGrid = (threads + threadsPerBlock - 1) / threadsPerBlock]
    with [threads] a [size_t] and [threadsPerBlock = 256]. *)
Definition blocksPerGrid (threads : Z) : Z :=
  wrap32 (to_ulong (threads + 256 - 1) / 256).

(** [solveJoinWrapper]: [max_id] is an [int] local, so the sum
    [threads + id_offset] is cut to its low 32 bits (what the conversion to
    [int] does on the compilers of the device toolchain) before the kernel
    widens it to its [long] parameter.  The two [printf]s are left out. *)
Definition solveJoinWrapper (bld : build) (p : Join.args)
    (threads id_offset : Z) (st : Join.state) : option Join.state :=
  let max_id := wrap32 (to_ulong (threads + id_offset)) in
  grid_launch (Join.solveJoin bld (join_args p id_offset max_id))
    (blocksPerGrid threads) 256 st.

(** [introduceForgetWrapper]: the sum [threads + id_offset] is passed as
    it is, a [size_t] turned into the [long] parameter [max_id]. *)
Definition introduceForgetWrapper (bld : build) (p : IntroForget.args)
    (threads id_offset : Z) (st : IntroForget.state)
    : option IntroForget.state :=
  let max_id := wrap64 (to_ulong (threads + id_offset)) in
  grid_launch
    (IntroForget.solveIntroduceForget bld
       (introduceForget_args p id_offset max_id))
    (blocksPerGrid threads) 256 st.

End Host.

(** ** Well-formed tries *)

Module TrieSpec.
Import Trie.

(** The first [i] of the [numVars] bits of [id], read as a number: the
    path from the root to depth [i]. *)
Definition prefix (id numVars i : Z) : Z := Z.shiftr id (numVars - i).

(** A trie of width [n] with nodes [0 .. ts] in the buffer [t].  Every
    node up to [ts] carries its depth [dep] and the path [pre] that leads
    to it; the words beyond [ts] are still zero; a non-zero child index of
    an inner node points to a node up to [ts], one level down, whose path
    is the path of the parent extended by the bit of the child. *)
Record wf (n ts : Z) (dep pre : Z -> Z) (t : list Z) : Prop := {
  wf_size : 0 <= ts < Z.of_nat (length t);
  wf_root : dep 0 = 0 /\ pre 0 = 0;
  wf_fresh : forall x, ts < x < Z.of_nat (length t) -> rd t x = Some 0;
  wf_child : forall x w k,
    0 <= x <= ts -> rd t x = Some w -> 0 <= dep x < n ->
    k = 0 \/ k = 1 -> half w k <> 0 ->
    half w k <= ts /\ dep (half w k) = dep x + 1 /\
    pre (half w k) = 2 * pre x + k
}.

Definition trie (n ts : Z) (t : list Z) : Prop :=
  exists dep pre, wf n ts dep pre t.

(** How [setCount id] changes a trie: the old nodes [0 .. lts] keep their
    labels; an inner old node keeps each child index or gets a new one in
    place of 0; any other old word stays, except the leaf of [id]; the new
    nodes lie on the path of [id] and point to new nodes only. *)
Record grows (n id lts ts' : Z) (dep pre dep' pre' : Z -> Z)
    (t t' : list Z) : Prop := {
  g_len : length t' = length t;
  g_size : lts <= ts';
  g_lab : forall y, 0 <= y <= lts -> dep' y = dep y /\ pre' y = pre y;
  g_old : forall y w, 0 <= y <= lts -> rd t y = Some w ->
    exists w', rd t' y = Some w' /\
      (0 <= dep y < n -> forall k, k = 0 \/ k = 1 ->
         half w' k = half w k \/ (half w k = 0 /\ lts < half w' k)) /\
      (~ 0 <= dep y < n -> w' = w \/ (dep y = n /\ pre y = id));
  g_new : forall y, lts < y <= ts' ->
    pre' y = prefix id n (dep' y) /\ 0 <= dep' y <= n /\
    (forall w' k, rd t' y = Some w' -> dep' y < n -> k = 0 \/ k = 1 ->
       half w' k <> 0 -> lts < half w' k)
}.

(** A stored count: the value of an absent assignment or a positive
    value. *)
Definition is_count (v : float) : Prop := v = 0%float \/ Dbl.gt0 v = true.

(** Labelling one more node. *)
Definition upd (f : Z -> Z) (c v : Z) : Z -> Z :=
  fun y => if y =? c then v else f y.

(** The node reached from the root after [k] steps along [id], if no
    child index on the way is 0. *)
Fixpoint node_at (t : list Z) (id numVars : Z) (k : nat) : option Z :=
  match k with
  | O => Some 0
  | S k' =>
      x ← node_at t id numVars k';
      w ← rd t x;
      let c := half w (child_bit id numVars (Z.of_nat k')) in
      if c =? 0 then None else Some c
  end.

End TrieSpec.

(** ** Clause sets as lists of clauses *)

Module ClauseSpec.
Import Mach Bag.

(** The flat layout of the source: all literals in one array and the
    lengths of the clauses in a second one. *)
Definition flat (cls : list (list Z)) : list Z := concat cls.
Definition lengths (cls : list (list Z)) : list Z :=
  map (fun c => Z.of_nat (length c)) cls.

(** The test the source applies to a literal at position [b] of the bag. *)
Definition passes (id lit b : Z) : bool :=
  if lit <? 0 then id_mask id b =? 0 else id_mask id b >? 0.

(** [checkBag_vars] read off the list of bag variables from position [b]
    on. *)
Fixpoint lit_pass (id lit : Z) (vs : list Z) (b satC : Z) : Z :=
  match vs with
  | [] => satC
  | v :: vs' =>
      if (lit =? v) || (lit =? wrap64 (- v)) then
        if passes id lit b then 1 else lit_pass id lit vs' (b + 1) 0
      else lit_pass id lit vs' (b + 1) satC
  end.

(** [checkBag_lits] read off the list of literals of a clause. *)
Fixpoint clause_pass (id : Z) (variables c : list Z) (satC : Z) : Z :=
  match c with
  | [] => satC
  | lit :: c' =>
      if satC =? 0
      then clause_pass id variables c' (lit_pass id lit variables 0 1)
      else satC
  end.

(** [checkBag_clauses] read off the list of clauses. *)
Fixpoint bag_pass (id : Z) (variables : list Z) (cls : list (list Z)) : Z :=
  match cls with
  | [] => 1
  | c :: cls' =>
      if clause_pass id variables c 0 =? 0 then 0
      else bag_pass id variables cls'
  end.

(** A variable index: positive and a [long]. *)
Definition var_ok (v : Z) : Prop := 0 < v < 2 ^ 63.

(** The literal [lit] is over the variable [v]. *)
Definition over (lit v : Z) : Prop := lit = v \/ lit = - v.

(** The variable of [lit] occurs in the bag. *)
Definition in_bag (variables : list Z) (lit : Z) : Prop :=
  exists v, v ∈ variables /\ over lit v.

(** The position of a variable in the bag, counted from [b]. *)
Fixpoint index_of (v : Z) (vs : list Z) (b : Z) : option Z :=
  match vs with
  | [] => None
  | x :: vs' => if x =? v then Some b else index_of v vs' (b + 1)
  end.

(** A literal over the bag's [b]-th variable is satisfied by [id] iff it
    is positive and bit [b] of [id] is 1, or negative and bit [b] is 0. *)
Definition satisfied_at (id lit b : Z) : bool :=
  ((0 <? lit) && Z.testbit id b) || ((lit <? 0) && negb (Z.testbit id b)).

Definition lit_satisfied (variables : list Z) (id lit : Z) : bool :=
  match index_of (Z.abs lit) variables 0 with
  | Some b => satisfied_at id lit b
  | None => false
  end.

(** Every clause contains at least one literal satisfied by [id]. *)
Definition bag_satisfied (variables : list Z) (id : Z)
    (cls : list (list Z)) : bool :=
  forallb (existsb (lit_satisfied variables id)) cls.

End ClauseSpec.

(** ** Tables as finite maps, projections and extensions *)

Module TableSpec.
Import Mach Bag.

(** A sequence of [setCount]s into one trie, the oldest first. *)
Fixpoint setCounts (numVars : Z) (l : list (Z * float)) (tree : list Z)
    (treeSize : Z) : option (list Z * Z) :=
  match l with
  | [] => Some (tree, treeSize)
  | (id, v) :: l' =>
      '(tree', treeSize') ← Trie.setCount id tree numVars treeSize v;
      setCounts numVars l' tree' treeSize'
  end.

(** The count of [id] after the sequence: the value of its last entry, and
    [d] when it has none. *)
Fixpoint last_count (l : list (Z * float)) (id : Z) (d : float) : float :=
  match l with
  | [] => d
  | (id', v) :: l' => last_count l' id (if id' =? id then v else d)
  end.

(** The product of the literal weights of the variables [vs], which stand
    at the positions [a], [a + 1], ... of the bag, leaving out the
    variables of the child bag [ev]. *)
Fixpoint introduced_product (weights : list float) (id : Z) (ev vs : list Z)
    (a : Z) (weight : float) : option float :=
  match vs with
  | [] => Some weight
  | v :: vs' =>
      if bool_decide (v ∈ ev)
      then introduced_product weights id ev vs' (a + 1) weight
      else w ← literal_weight weights id a v;
           introduced_product weights id ev vs' (a + 1) (weight * w)%float
  end.

(** The number of variables among the first [pos] of [varsI] that are in
    [varsF]. *)
Definition kept_before (varsI varsF : list Z) (pos : nat) : Z :=
  Z.of_nat (length (filter (fun v => v ∈ varsF) (take pos varsI))).

End TableSpec.

(** ** Concrete inputs *)

Module Demo.
Import Dbl.

Definition array_exp : build := {| ARRAY_TYPE := true; NO_EXP := false |}.
Definition trie_exp : build := {| ARRAY_TYPE := false; NO_EXP := false |}.

Definition d (x : float) : Z := double_as_longlong x.

(** A join bag over the variables 1 and 2 whose children hold variable 1
    and variable 2; both child tables are arrays of two counts. *)
Definition join_args (minId1 minId2 : Z) : Join.args :=
  {| Join.edge1 := Some [d 3; d 0];
     Join.edge2 := Some [d 5; d 2];
     Join.variables := [1; 2];
     Join.edgeVariables1 := Some [1];
     Join.edgeVariables2 := Some [2];
     Join.numV := 2;
     Join.numVE1 := 1;
     Join.numVE2 := 1;
     Join.minId1 := minId1;
     Join.maxId1 := 2;
     Join.minId2 := minId2;
     Join.maxId2 := 2;
     Join.startIDNode := 0;
     Join.weights := None;
     Join.value := 2;
     Join.id_offset := 0;
     Join.max_id := 4 |}.

(** A table of four uninitialised slots. *)
Definition join_state : Join.state :=
  {| Join.solutions := [d (-1); d (-1); d (-1); d (-1)];
     Join.sols := 0;
     Join.exponent := INT_MIN |}.

(** An empty trie with room for 32 nodes, and the tries of width 3 that
    [setCount] builds from it for the count 7 of the assignment 5 and for
    the count 2 of the assignment 1; each has the nodes 0 .. 3. *)
Definition empty_trie : list Z := replicate 32 0.
Definition trie_5 : list Z :=
  Eval vm_compute in
    match Trie.setCount 5 empty_trie 3 0 7%float with
    | Some (t, _) => t
    | None => []
    end.
Definition trie_1 : list Z :=
  Eval vm_compute in
    match Trie.setCount 1 empty_trie 3 0 2%float with
    | Some (t, _) => t
    | None => []
    end.

(** A bag over the 33 variables 1 .. 33. *)
Definition wide_bag : list Z := map Z.of_nat (seq 1 33).

(** A bag over the variables 1 and 2 with the clauses [1 \/ 5] and
    [~ 2]; variable 5 is not in the bag. *)
Definition small_bag : list Z := [1; 2].
Definition small_clauses : list (list Z) := [[1; 5]; [-2]].

End Demo.

(** ** More concrete inputs *)

Module Sample.
Import Dbl.

(** An array of four counts, and an empty trie with the exponent cell at
    its initial value. *)
Definition counts : list float := [3; 0; 5; 0]%float.
Definition resize_state : Resize.state :=
  {| Resize.tree := Demo.empty_trie;
     Resize.treeSize := 0;
     Resize.exponent := INT_MIN |}.

(** A leaf over the variables 1, 2 and 3 with the clauses [1 \/ 2] and
    [~ 2 \/ 3]; its table is over the variables 1 and 3, variable 2 is
    forgotten. *)
Definition leaf_args : IntroForget.args :=
  {| IntroForget.varsF := [1; 3];
     IntroForget.solsE := None;
     IntroForget.numVE := 0;
     IntroForget.varsE := None;
     IntroForget.combinations := 2;
     IntroForget.numVF := 2;
     IntroForget.minIdE := 0;
     IntroForget.maxIdE := 0;
     IntroForget.startIDF := 0;
     IntroForget.numVI := 3;
     IntroForget.varsI := [1; 2; 3];
     IntroForget.clauses := ClauseSpec.flat [[1; 2]; [-2; 3]];
     IntroForget.numVarsC := ClauseSpec.lengths [[1; 2]; [-2; 3]];
     IntroForget.numclauses := 2;
     IntroForget.weights := None;
     IntroForget.value := 1;
     IntroForget.id_offset := 0;
     IntroForget.max_id := 4 |}.

(** Its table as an array of four slots and as an empty trie. *)
Definition leaf_array : IntroForget.state :=
  {| IntroForget.solsF := [Demo.d 0; Demo.d 0; Demo.d 0; Demo.d 0];
     IntroForget.sols := 0;
     IntroForget.exponent := INT_MIN |}.
Definition leaf_trie : IntroForget.state :=
  {| IntroForget.solsF := Demo.empty_trie;
     IntroForget.sols := 0;
     IntroForget.exponent := INT_MIN |}.

(** Literal weights of the variables 1 .. 3: index [2 v] for [v] and
    [2 v + 1] for its negation. *)
Definition literal_weights : list float :=
  [1; 1; 0.5; 0.5; 0.25; 0.75; 0.125; 0.875]%float.

End Sample.

(** * Properties *)

(** ** Buffers *)

Section BufferFacts.
Context {A : Type}.
Implicit Types (buf : list A) (i j : Z).

Lemma rd_Some_bounds buf i x :
  rd buf i = Some x -> 0 <= i < Z.of_nat (length buf).
Proof.
  unfold rd. destruct (Z.ltb_spec i 0); [discriminate|].
  intros H1. apply lookup_lt_Some in H1. lia.
Qed.

Lemma rd_is_Some buf i :
  0 <= i < Z.of_nat (length buf) -> is_Some (rd buf i).
Proof.
  intros H. unfold rd. destruct (Z.ltb_spec i 0); [lia|].
  apply lookup_lt_is_Some. lia.
Qed.

Lemma wr_is_Some buf i v :
  0 <= i < Z.of_nat (length buf) -> wr buf i v = Some (<[Z.to_nat i := v]> buf).
Proof.
  intros H. unfold wr.
  destruct (Z.leb_spec 0 i); [|lia].
  destruct (Z.ltb_spec i (Z.of_nat (length buf))); [|lia]. reflexivity.
Qed.

Lemma wr_Some_inv buf i v buf' :
  wr buf i v = Some buf' ->
  0 <= i < Z.of_nat (length buf) /\ buf' = <[Z.to_nat i := v]> buf.
Proof.
  unfold wr. destruct (Z.leb_spec 0 i); simpl; [|discriminate].
  destruct (Z.ltb_spec i (Z.of_nat (length buf))); [|discriminate].
  intros [= <-]. split; [lia|reflexivity].
Qed.

Lemma wr_length buf i v buf' :
  wr buf i v = Some buf' -> length buf' = length buf.
Proof.
  intros H. apply wr_Some_inv in H as [_ ->]. apply length_insert.
Qed.

Lemma rd_wr_same buf i v buf' :
  wr buf i v = Some buf' -> rd buf' i = Some v.
Proof.
  intros H. apply wr_Some_inv in H as [Hi ->]. unfold rd.
  destruct (Z.ltb_spec i 0); [lia|].
  apply list_lookup_insert_eq. lia.
Qed.

Lemma rd_wr_other buf i v buf' j :
  wr buf i v = Some buf' -> j <> i -> rd buf' j = rd buf j.
Proof.
  intros H Hne. apply wr_Some_inv in H as [Hi ->]. unfold rd.
  destruct (Z.ltb_spec j 0); [reflexivity|].
  apply list_lookup_insert_ne. lia.
Qed.
End BufferFacts.

(** ** Doubles *)

Section DoubleFacts.
Import Dbl.

(** Multiplication of binary64 floats is commutative. *)
Lemma SF64mul_comm x y : SF64mul x y = SF64mul y x.
Proof.
  unfold SF64mul.
  destruct x as [sx|sx| |sx mx ex], y as [sy|sy| |sy my ey]; simpl;
    rewrite ?(xorb_comm sx sy); try reflexivity.
  rewrite (Pos.mul_comm mx my), (Z.add_comm ex ey). reflexivity.
Qed.

Lemma fmul_comm (x y : float) : (x * y = y * x)%float.
Proof.
  apply Prim2SF_inj. rewrite !mul_spec. apply SF64mul_comm.
Qed.
End DoubleFacts.

Section DoubleBits.
Import Dbl.

Lemma digits2_pos_bounds (m : positive) :
  2 ^ (Z.pos (digits2_pos m) - 1) <= Z.pos m < 2 ^ Z.pos (digits2_pos m).
Proof.
  induction m as [m IH|m IH|]; simpl digits2_pos.
  - rewrite Pos2Z.inj_succ.
    replace (Z.succ (Z.pos (digits2_pos m)) - 1)
      with (Z.succ (Z.pos (digits2_pos m) - 1)) by lia.
    rewrite !Z.pow_succ_r by lia. lia.
  - rewrite Pos2Z.inj_succ.
    replace (Z.succ (Z.pos (digits2_pos m)) - 1)
      with (Z.succ (Z.pos (digits2_pos m) - 1)) by lia.
    rewrite !Z.pow_succ_r by lia. lia.
  - simpl. lia.
Qed.

(** What validity says of the mantissa and exponent of a binary64 float. *)
Lemma bounded_binary64 m e :
  bounded prec emax m e = true ->
  Z.pos m < 2 ^ 53 /\ -1074 <= e <= 971 /\
  (Z.pos m < 2 ^ 52 -> e = -1074).
Proof.
  unfold bounded, canonical_mantissa, fexp, SpecFloat.emin, prec, emax.
  intros H. apply andb_true_iff in H as [H1 H2].
  apply Z.eqb_eq in H1. apply Z.leb_le in H2.
  pose proof (digits2_pos_bounds m) as [Hlo Hhi].
  assert (Hd : Z.pos (digits2_pos m) <= 53) by lia.
  split; [|split].
  - eapply Z.lt_le_trans; [exact Hhi|]. apply Z.pow_le_mono_r; lia.
  - lia.
  - intros Hm.
    destruct (Z.eq_dec (Z.pos (digits2_pos m)) 53) as [Heq|Hne]; [|lia].
    rewrite Heq in Hlo. simpl in Hlo. lia.
Qed.

Lemma SF_of_bits_of_SF x :
  valid_binary x = true -> SF_of_bits (bits_of_SF x) = x.
Proof.
  destruct x as [s|s| |s m e]; intros Hv.
  - destruct s; reflexivity.
  - destruct s; reflexivity.
  - reflexivity.
  - simpl in Hv. apply bounded_binary64 in Hv as (Hm & He & Hsub).
    unfold SF_of_bits, bits_of_SF.
    set (w := sign_bit s + (e + 1074) * 2 ^ 52 + Z.pos m).
    assert (Hsign : Z.testbit w 63 = s).
    { rewrite Z.testbit_odd, Z.shiftr_div_pow2 by lia.
      assert (Hq : w / 2 ^ 63 = if s then 1 else 0).
      { symmetry. apply (Z.div_unique w (2 ^ 63) _
                           ((e + 1074) * 2 ^ 52 + Z.pos m)).
        - left. change (2 ^ 53) with 9007199254740992 in Hm.
          change (2 ^ 52) with 4503599627370496.
          change (2 ^ 63) with 9223372036854775808. lia.
        - subst w. unfold sign_bit. destruct s; lia. }
      rewrite Hq. destruct s; reflexivity. }
    rewrite Hsign, Z.shiftr_div_pow2, !Z.land_ones by lia.
    destruct (Z.ltb_spec (Z.pos m) (2 ^ 52)) as [Hlt|Hge].
    + specialize (Hsub Hlt). subst e.
      assert (Hex : (w / 2 ^ 52) mod 2 ^ 11 = 0).
      { subst w. unfold sign_bit.
        change (2 ^ 52) with 4503599627370496 in *.
        change (2 ^ 63) with 9223372036854775808.
        change (2 ^ 11) with 2048.
        destruct s; Z.div_mod_to_equations; lia. }
      assert (Hmant : w mod 2 ^ 52 = Z.pos m).
      { subst w. unfold sign_bit.
        change (2 ^ 52) with 4503599627370496 in *.
        change (2 ^ 63) with 9223372036854775808.
        destruct s; Z.div_mod_to_equations; lia. }
      rewrite Hex, Hmant. reflexivity.
    + assert (Hex : (w / 2 ^ 52) mod 2 ^ 11 = e + 1075).
      { subst w. unfold sign_bit.
        change (2 ^ 53) with 9007199254740992 in Hm.
        change (2 ^ 52) with 4503599627370496 in *.
        change (2 ^ 63) with 9223372036854775808.
        change (2 ^ 11) with 2048.
        destruct s; Z.div_mod_to_equations; lia. }
      assert (Hmant : w mod 2 ^ 52 = Z.pos m - 2 ^ 52).
      { subst w. unfold sign_bit.
        change (2 ^ 53) with 9007199254740992 in Hm.
        change (2 ^ 52) with 4503599627370496 in *.
        change (2 ^ 63) with 9223372036854775808.
        destruct s; Z.div_mod_to_equations; lia. }
      rewrite Hex, Hmant.
      destruct (Z.eqb_spec (e + 1075) 0) as [H0|_]; [lia|].
      destruct (Z.eqb_spec (e + 1075) 2047) as [H0|_]; [lia|].
      replace (Z.pos m - 2 ^ 52 + 2 ^ 52) with (Z.pos m) by lia.
      replace (e + 1075 - 1075) with e by lia. reflexivity.
Qed.

(** Storing a double in a [long] cell and reading it back is the
    identity. *)
Lemma longlong_as_double_as_longlong (d : float) :
  longlong_as_double (double_as_longlong d) = d.
Proof.
  unfold longlong_as_double, double_as_longlong.
  rewrite SF_of_bits_of_SF by apply Prim2SF_valid.
  apply SF2Prim_Prim2SF.
Qed.

Lemma double_as_longlong_range (d : float) :
  0 <= double_as_longlong d < 2 ^ 64.
Proof.
  unfold double_as_longlong.
  pose proof (Prim2SF_valid d) as Hv.
  destruct (Prim2SF d) as [s|s| |s m e]; simpl bits_of_SF; unfold sign_bit.
  - destruct s; lia.
  - destruct s; lia.
  - lia.
  - simpl in Hv. apply bounded_binary64 in Hv as (Hm & He & _).
    change (2 ^ 53) with 9007199254740992 in Hm.
    change (2 ^ 52) with 4503599627370496.
    change (2 ^ 63) with 9223372036854775808.
    change (2 ^ 64) with 18446744073709551616.
    destruct s; lia.
Qed.
End DoubleBits.

(** ** The join kernel *)

Section JoinFacts.
Import Mach Dbl Bag Join.

Lemma track_exponent_solutions bld p id st st' :
  track_exponent bld p id st = Some st' ->
  solutions st' = solutions st /\ sols st' = sols st.
Proof.
  unfold track_exponent.
  destruct (ARRAY_TYPE bld && negb (NO_EXP bld)).
  - destruct (rd (solutions st) (id - startIDNode p)); simpl; [|discriminate].
    intros [= <-]. auto.
  - intros [= <-]. auto.
Qed.

Lemma track_exponent_is_Some bld p id st w :
  rd (solutions st) (id - startIDNode p) = Some w ->
  exists st', track_exponent bld p id st = Some st' /\
    solutions st' = solutions st /\ sols st' = sols st /\
    exponent st' =
      (if ARRAY_TYPE bld && negb (NO_EXP bld)
       then Z.max (ilogb (longlong_as_double w)) (exponent st)
       else exponent st).
Proof.
  intros Hw. unfold track_exponent.
  destruct (ARRAY_TYPE bld && negb (NO_EXP bld)).
  - rewrite Hw. simpl. eexists. repeat split; reflexivity.
  - eexists. repeat split; reflexivity.
Qed.

(** The branches of [combine] write the worker's own slot only. *)
Lemma combine_other_slots bld p id tmp tmp_ weight st st' j :
  combine bld p id tmp tmp_ weight st = Some st' ->
  j <> id - startIDNode p ->
  rd (solutions st') j = rd (solutions st) j.
Proof.
  unfold combine. intros H Hj.
  destruct (ge0 tmp_ && ge0 tmp).
  { destruct (wr (solutions st) _ _) as [sol'|] eqn:Hwr; simpl in H;
      [|discriminate].
    injection H as <-. simpl. eapply rd_wr_other; eauto. }
  destruct (ge0 tmp).
  { destruct (rd (solutions st) _) as [w|]; simpl in H; [|discriminate].
    destruct (wr (solutions st) _ _) as [sol'|] eqn:Hwr; simpl in H;
      [|discriminate].
    injection H as <-. simpl. eapply rd_wr_other; eauto. }
  destruct (ge0 tmp_).
  { destruct (rd (solutions st) _) as [w|]; simpl in H; [|discriminate].
    destruct (wr (solutions st) _ _) as [sol'|] eqn:Hwr; simpl in H;
      [|discriminate].
    injection H as <-. simpl. eapply rd_wr_other; eauto. }
  injection H as <-. reflexivity.
Qed.

Lemma combine_neither bld p id tmp tmp_ weight st :
  ge0 tmp = false -> ge0 tmp_ = false ->
  combine bld p id tmp tmp_ weight st = Some st.
Proof. unfold combine. intros -> ->. reflexivity. Qed.

(** A worker leaves every slot but its own as it was. *)
Lemma solveJoin_other_slots bld p gid st st' j :
  solveJoin bld p gid st = Some st' ->
  j <> gid + id_offset p - startIDNode p ->
  rd (solutions st') j = rd (solutions st) j.
Proof.
  unfold solveJoin. intros H Hj.
  destruct (gid + id_offset p >=? max_id p); [injection H as <-; reflexivity|].
  destruct (lookup1 bld p _) as [tmp|]; simpl in H; [|discriminate].
  destruct (lookup2 bld p _) as [tmp_|]; simpl in H; [|discriminate].
  destruct (bag_weight _ _ _ _ _) as [weight|]; simpl in H; [|discriminate].
  destruct (combine bld p _ tmp tmp_ weight st) as [st1|] eqn:Hc;
    simpl in H; [|discriminate].
  apply track_exponent_solutions in H as [-> _].
  eapply combine_other_slots; eauto.
Qed.

(** A worker whose two lookups are both negative leaves the table as it
    was. *)
Lemma solveJoin_neither bld p gid st st' t1 t2 :
  solveJoin bld p gid st = Some st' ->
  lookup1 bld p (gid + id_offset p) = Some t1 ->
  lookup2 bld p (gid + id_offset p) = Some t2 ->
  ge0 t1 = false -> ge0 t2 = false ->
  solutions st' = solutions st.
Proof.
  unfold solveJoin. intros H H1 H2 Hn1 Hn2.
  destruct (gid + id_offset p >=? max_id p); [injection H as <-; reflexivity|].
  rewrite H1, H2 in H. simpl in H.
  destruct (bag_weight _ _ _ _ _) as [weight|]; simpl in H; [|discriminate].
  rewrite combine_neither in H by assumption. simpl in H.
  apply track_exponent_solutions in H as [-> _]. reflexivity.
Qed.

End JoinFacts.

Section JoinClaims.
Import Mach Dbl Bag Join.

(** C2. A worker of the join kernel whose two child lookups both return a
    value [>= 0] stores [tmp1 * tmp2 / value / weight] in
    [solutions[id - startIDNode]] (the [NO_EXP] build leaves the division
    by [value] out), and increments [sols] exactly when both values are
    positive. *)
Theorem join_both_children (bld : build) (p : args) (gid : Z) (st : state)
    (tmp1 tmp2 weight : float) :
  gid + id_offset p < max_id p ->
  lookup1 bld p (gid + id_offset p) = Some tmp1 ->
  lookup2 bld p (gid + id_offset p) = Some tmp2 ->
  bag_weight (weights p) (variables p) (numV p) (gid + id_offset p) 1%float
    = Some weight ->
  ge0 tmp1 = true -> ge0 tmp2 = true ->
  0 <= gid + id_offset p - startIDNode p < Z.of_nat (length (solutions st)) ->
  exists st',
    solveJoin bld p gid st = Some st' /\
    rd (solutions st') (gid + id_offset p - startIDNode p)
    = Some (double_as_longlong
              (if NO_EXP bld then (tmp1 * tmp2 / weight)%float
               else (tmp1 * tmp2 / value p / weight)%float)) /\
    sols st' = (if gt0 tmp1 && gt0 tmp2 then wrap64 (1 + sols st)
                else sols st).
Proof.
  intros Hid H1 H2 Hw Hg1 Hg2 Hslot.
  unfold solveJoin.
  destruct (Z.geb_spec (gid + id_offset p) (max_id p)) as [?|_]; [lia|].
  rewrite H1, H2. simpl. rewrite Hw. simpl.
  unfold combine. rewrite Hg1, Hg2. simpl.
  rewrite (wr_is_Some _ _ _ Hslot). simpl.
  set (v := double_as_longlong _).
  set (st1 := {| solutions := _ |}).
  assert (Hrd : rd (solutions st1) (gid + id_offset p - startIDNode p)
                = Some v).
  { simpl. eapply rd_wr_same. apply wr_is_Some. exact Hslot. }
  destruct (track_exponent_is_Some bld p _ _ _ Hrd)
    as (st' & He & Hsol & Hsols & _).
  exists st'. split; [exact He|]. rewrite Hsol, Hsols. split.
  - rewrite Hrd. subst v. rewrite (fmul_comm tmp2 tmp1). reflexivity.
  - simpl. rewrite (andb_comm (gt0 tmp2)). reflexivity.
Qed.

Lemma join_both_children_witness :
  exists st',
    solveJoin Demo.array_exp (Demo.join_args 0 0) 0 Demo.join_state
    = Some st' /\
    rd (solutions st') 0 = Some (double_as_longlong 7.5%float) /\
    sols st' = 1.
Proof.
  apply (join_both_children Demo.array_exp (Demo.join_args 0 0) 0
           Demo.join_state 3%float 5%float 1%float);
    vm_compute; first [reflexivity | split; congruence | split; reflexivity].
Defined.

(** A worker whose id is below [max_id] runs the branches on what its two
    lookups and the weight loop return, and then the exponent update. *)
Lemma solveJoin_run bld p gid st tmp1 tmp2 weight :
  gid + id_offset p < max_id p ->
  lookup1 bld p (gid + id_offset p) = Some tmp1 ->
  lookup2 bld p (gid + id_offset p) = Some tmp2 ->
  bag_weight (weights p) (variables p) (numV p) (gid + id_offset p) 1%float
    = Some weight ->
  solveJoin bld p gid st
  = (st' ← combine bld p (gid + id_offset p) tmp1 tmp2 weight st;
     track_exponent bld p (gid + id_offset p) st').
Proof.
  intros Hid H1 H2 Hw. unfold solveJoin.
  destruct (Z.geb_spec (gid + id_offset p) (max_id p)) as [?|_]; [lia|].
  rewrite H1, H2. simpl. rewrite Hw. reflexivity.
Qed.

(** The two one-child branches. *)
Lemma combine_one_child bld p id tmp1 tmp2 weight st w :
  rd (solutions st) (id - startIDNode p) = Some w ->
  xorb (ge0 tmp1) (ge0 tmp2) = true ->
  exists st1,
    combine bld p id tmp1 tmp2 weight st = Some st1 /\
    rd (solutions st1) (id - startIDNode p)
    = Some (double_as_longlong
              (if ge0 tmp1
               then (tmp1 * carry (longlong_as_double w) / weight)%float
               else if NO_EXP bld
               then (tmp2 * carry (longlong_as_double w))%float
               else (tmp2 * carry (longlong_as_double w) / value p)%float)).
Proof.
  intros Hrd Hx. pose proof (rd_Some_bounds _ _ _ Hrd) as Hslot.
  unfold combine.
  destruct (ge0 tmp1), (ge0 tmp2); try discriminate; simpl;
    rewrite Hrd; simpl; rewrite (wr_is_Some _ _ _ Hslot); simpl;
    eexists; (split; [reflexivity|]); simpl;
    eapply rd_wr_same; apply wr_is_Some; exact Hslot.
Qed.

(** The two one-child branches are made for each other: a worker that folds
    the first child into an uninitialised slot divides by [weight], a later
    worker that folds the second child into the same slot divides by
    [value], and the slot then holds [tmp2 * (tmp1 * 1 / weight) / value]. *)
Lemma solveJoin_two_passes (bld : build) (p q : args) (gid : Z)
    (st : state) (tmp1 none1 tmp2 none2 weight weight' : float) (w : Z) :
  NO_EXP bld = false ->
  id_offset q = id_offset p -> startIDNode q = startIDNode p ->
  gid + id_offset p < max_id p -> gid + id_offset p < max_id q ->
  lookup1 bld p (gid + id_offset p) = Some tmp1 ->
  lookup2 bld p (gid + id_offset p) = Some none2 ->
  lookup1 bld q (gid + id_offset p) = Some none1 ->
  lookup2 bld q (gid + id_offset p) = Some tmp2 ->
  bag_weight (weights p) (variables p) (numV p) (gid + id_offset p) 1%float
    = Some weight ->
  bag_weight (weights q) (variables q) (numV q) (gid + id_offset p) 1%float
    = Some weight' ->
  ge0 tmp1 = true -> ge0 none2 = false ->
  ge0 none1 = false -> ge0 tmp2 = true ->
  rd (solutions st) (gid + id_offset p - startIDNode p) = Some w ->
  lt0 (longlong_as_double w) = true ->
  lt0 (tmp1 * 1 / weight)%float = false ->
  exists st1 st2,
    solveJoin bld p gid st = Some st1 /\
    solveJoin bld q gid st1 = Some st2 /\
    rd (solutions st2) (gid + id_offset p - startIDNode p)
    = Some (double_as_longlong (tmp2 * (tmp1 * 1 / weight) / value q)%float).
Proof.
  intros Hx Hoff Hstart Hid Hidq H1 H2 H1' H2' Hw Hw' Hg1 Hn2 Hn1 Hg2 Hrd
    Hneg Hpos.
  assert (R1 : exists st1,
             solveJoin bld p gid st = Some st1 /\
             rd (solutions st1) (gid + id_offset p - startIDNode p)
             = Some (double_as_longlong (tmp1 * 1 / weight)%float)).
  { rewrite (solveJoin_run bld p gid st tmp1 none2 weight Hid H1 H2 Hw).
    destruct (combine_one_child bld p (gid + id_offset p) tmp1 none2 weight
                st w Hrd) as (sa & -> & Hrda).
    { rewrite Hg1, Hn2. reflexivity. }
    rewrite Hg1 in Hrda. unfold carry in Hrda. rewrite Hneg in Hrda. simpl.
    destruct (track_exponent_is_Some bld p _ _ _ Hrda)
      as (st1 & -> & Hsol1 & _).
    exists st1. split; [reflexivity|]. rewrite Hsol1. exact Hrda. }
  destruct R1 as (st1 & Hrun1 & Hrd1).
  rewrite <- Hstart, <- Hoff in Hrd1.
  rewrite <- Hoff in Hidq, H1', H2', Hw'.
  assert (R2 : exists st2,
             solveJoin bld q gid st1 = Some st2 /\
             rd (solutions st2) (gid + id_offset q - startIDNode q)
             = Some (double_as_longlong
                       (tmp2 * (tmp1 * 1 / weight) / value q)%float)).
  { rewrite (solveJoin_run bld q gid st1 none1 tmp2 weight' Hidq H1' H2' Hw').
    destruct (combine_one_child bld q (gid + id_offset q) none1 tmp2 weight'
                st1 _ Hrd1) as (sb & -> & Hrdb).
    { rewrite Hn1, Hg2. reflexivity. }
    rewrite Hn1, Hx, longlong_as_double_as_longlong in Hrdb.
    unfold carry in Hrdb. rewrite Hpos in Hrdb. simpl.
    destruct (track_exponent_is_Some bld q _ _ _ Hrdb)
      as (st2 & -> & Hsol2 & _).
    exists st2. split; [reflexivity|]. rewrite Hsol2. exact Hrdb. }
  destruct R2 as (st2 & Hrun2 & Hrd2).
  rewrite Hoff, Hstart in Hrd2.
  exists st1, st2. auto.
Qed.

(** C1, as the code has it.  A worker for which exactly one child lookup
    returns a value [>= 0] folds that count into the stored slot value,
    an uninitialised (negative) slot counting as the factor 1.  When the
    first child is the one in range the product is divided by [weight]
    only; when the second child is, by [value] only (and by nothing in the
    [NO_EXP] build). *)
Theorem join_one_child (bld : build) (p : args) (gid : Z) (st : state)
    (tmp1 tmp2 weight : float) (w : Z) :
  gid + id_offset p < max_id p ->
  lookup1 bld p (gid + id_offset p) = Some tmp1 ->
  lookup2 bld p (gid + id_offset p) = Some tmp2 ->
  bag_weight (weights p) (variables p) (numV p) (gid + id_offset p) 1%float
    = Some weight ->
  rd (solutions st) (gid + id_offset p - startIDNode p) = Some w ->
  xorb (ge0 tmp1) (ge0 tmp2) = true ->
  exists st',
    solveJoin bld p gid st = Some st' /\
    rd (solutions st') (gid + id_offset p - startIDNode p)
    = Some (double_as_longlong
              (if ge0 tmp1
               then (tmp1 * carry (longlong_as_double w) / weight)%float
               else if NO_EXP bld
               then (tmp2 * carry (longlong_as_double w))%float
               else (tmp2 * carry (longlong_as_double w) / value p)%float)).
Proof.
  intros Hid H1 H2 Hw Hrd Hx.
  rewrite (solveJoin_run bld p gid st tmp1 tmp2 weight Hid H1 H2 Hw).
  destruct (combine_one_child bld p (gid + id_offset p) tmp1 tmp2 weight st w
              Hrd Hx) as (st1 & -> & Hrd1).
  simpl.
  destruct (track_exponent_is_Some bld p _ _ _ Hrd1)
    as (st' & -> & Hsol & _).
  exists st'. split; [reflexivity|]. rewrite Hsol. exact Hrd1.
Qed.

Lemma join_one_child_witness :
  exists st',
    solveJoin Demo.array_exp (Demo.join_args (-1) 0) 0 Demo.join_state
    = Some st' /\
    rd (solutions st') 0 = Some (double_as_longlong 2.5%float).
Proof.
  apply (join_one_child Demo.array_exp (Demo.join_args (-1) 0) 0
           Demo.join_state (-1)%float 5%float 1%float (Demo.d (-1)));
    vm_compute; first [reflexivity | split; congruence | split; reflexivity].
Defined.

(** C1 as stated fails: with the first child in range (count 3), the
    second absent, an uninitialised slot, [value = 2] and [weight = 1], the
    worker stores [3], not [3 * 1 / 2 / 1 = 1.5]. *)
Lemma join_one_child_not_both_divisions :
  exists st',
    solveJoin Demo.array_exp (Demo.join_args 0 (-1)) 0 Demo.join_state
    = Some st' /\
    lookup1 Demo.array_exp (Demo.join_args 0 (-1)) 0 = Some 3%float /\
    lookup2 Demo.array_exp (Demo.join_args 0 (-1)) 0 = Some (-1)%float /\
    rd (solutions st') 0 = Some (double_as_longlong 3%float) /\
    rd (solutions st') 0
    <> Some (double_as_longlong
               (3 * carry (-1) / value (Demo.join_args 0 (-1)) / 1)%float).
Proof.
  eexists. split; [vm_compute; reflexivity|].
  repeat split; try (vm_compute; reflexivity).
  vm_compute. discriminate.
Qed.

(** C8. A launch of the join kernel leaves the slot of an assignment for
    which both child lookups are negative as it was. *)
Theorem join_neither_child (bld : build) (p : args) (threads : nat)
    (st st' : state) (id : Z) (t1 t2 : float) :
  solveJoin_launch bld p threads st = Some st' ->
  lookup1 bld p id = Some t1 ->
  lookup2 bld p id = Some t2 ->
  ge0 t1 = false -> ge0 t2 = false ->
  rd (solutions st') (id - startIDNode p)
  = rd (solutions st) (id - startIDNode p).
Proof.
  unfold solveJoin_launch, launch. generalize 0 as gid. revert st.
  induction threads as [|k IH]; intros st gid H H1 H2 Hn1 Hn2.
  - injection H as <-. reflexivity.
  - simpl in H.
    destruct (solveJoin bld p gid st) as [st1|] eqn:Hw; simpl in H;
      [|discriminate].
    rewrite (IH _ _ H H1 H2 Hn1 Hn2).
    destruct (Z.eq_dec id (gid + id_offset p)) as [->|Hne].
    + rewrite (solveJoin_neither _ _ _ _ _ _ _ Hw H1 H2 Hn1 Hn2).
      reflexivity.
    + eapply solveJoin_other_slots; eauto. lia.
Qed.

Lemma join_neither_child_witness :
  exists st',
    solveJoin_launch Demo.array_exp (Demo.join_args (-1) (-1)) 4
      Demo.join_state = Some st' /\
    rd (solutions st') (2 - 0) = rd (solutions Demo.join_state) (2 - 0).
Proof.
  eexists. split; [vm_compute; reflexivity|].
  apply (join_neither_child Demo.array_exp (Demo.join_args (-1) (-1)) 4
           Demo.join_state _ 2 (-1)%float (-1)%float);
    vm_compute; reflexivity.
Defined.
End JoinClaims.

Section JoinSwap.
Import Mach Dbl Bag Join.






End JoinSwap.

(** ** checkBag *)

Section BufferLists.
Context {A : Type}.
Implicit Types (l pre : list A).

Lemma rd_app_r pre l a :
  0 <= a -> rd (pre ++ l) (Z.of_nat (length pre) + a) = rd l a.
Proof.
  intros Ha. unfold rd.
  destruct (Z.ltb_spec (Z.of_nat (length pre) + a) 0); [lia|].
  destruct (Z.ltb_spec a 0); [lia|].
  replace (Z.to_nat (Z.of_nat (length pre) + a))
    with (length pre + Z.to_nat a)%nat by lia.
  rewrite lookup_app_r by lia. f_equal. lia.
Qed.

Lemma rd_drop_cons l b v :
  rd l b = Some v ->
  drop (Z.to_nat b) l = v :: drop (Z.to_nat (b + 1)) l.
Proof.
  intros H. pose proof (rd_Some_bounds _ _ _ H) as Hb.
  unfold rd in H. destruct (Z.ltb_spec b 0); [lia|].
  replace (Z.to_nat (b + 1)) with (S (Z.to_nat b)) by lia.
  apply drop_S. exact H.
Qed.

Lemma rd_nat l (n : nat) : rd l (Z.of_nat n) = l !! n.
Proof.
  unfold rd. destruct (Z.ltb_spec (Z.of_nat n) 0); [lia|].
  rewrite Nat2Z.id. reflexivity.
Qed.
End BufferLists.

Section CheckBagFacts.
Import Mach Bag ClauseSpec.
Implicit Types (clauses variables c : list Z) (cls : list (list Z)).

Lemma checkBag_vars_spec clauses variables id idx lit :
  rd clauses idx = Some lit ->
  forall fuel b satC,
    0 <= b ->
    (length variables - Z.to_nat b <= fuel)%nat ->
    checkBag_vars clauses variables id (Z.of_nat (length variables)) idx
      fuel b satC
    = Some (lit_pass id lit (drop (Z.to_nat b) variables) b satC).
Proof.
  intros Hlit. induction fuel as [|fuel IH]; intros b satC Hb Hfuel.
  - rewrite drop_ge by lia. reflexivity.
  - simpl. destruct (Z.ltb_spec b (Z.of_nat (length variables))) as [Hlt|Hge].
    + rewrite Hlit. simpl.
      destruct (rd_is_Some variables b ltac:(lia)) as [v Hv].
      rewrite Hv. simpl. rewrite (rd_drop_cons _ _ _ Hv). simpl.
      unfold passes.
      destruct ((lit =? v) || (lit =? wrap64 (- v))).
      * destruct (lit <? 0).
        -- destruct (id_mask id b =? 0); [reflexivity|]. apply IH; lia.
        -- destruct (id_mask id b >? 0); [reflexivity|]. apply IH; lia.
      * apply IH; lia.
    + rewrite drop_ge by lia. reflexivity.
Qed.

Lemma checkBag_lits_spec variables id pre c post :
  forall fuel a satC,
    0 <= a ->
    (length c - Z.to_nat a <= fuel)%nat ->
    checkBag_lits (pre ++ c ++ post) variables id
      (Z.of_nat (length variables)) (Z.of_nat (length pre))
      (Z.of_nat (length c)) fuel a satC
    = Some (clause_pass id variables (drop (Z.to_nat a) c) satC).
Proof.
  induction fuel as [|fuel IH]; intros a satC Ha Hfuel.
  - rewrite drop_ge by lia. reflexivity.
  - simpl. destruct (Z.ltb_spec a (Z.of_nat (length c))) as [Hlt|Hge].
    + destruct (rd_is_Some c a ltac:(lia)) as [lit Hlit].
      rewrite (rd_drop_cons _ _ _ Hlit). simpl.
      destruct (satC =? 0); simpl; [|reflexivity].
      assert (Hrd : rd (pre ++ c ++ post) (Z.of_nat (length pre) + a)
                    = Some lit).
      { rewrite rd_app_r by lia. unfold rd in *.
        destruct (Z.ltb_spec a 0); [lia|].
        apply lookup_app_l_Some. exact Hlit. }
      rewrite (checkBag_vars_spec _ _ _ _ _ Hrd) by (simpl; lia).
      simpl. apply IH; lia.
    + simpl. rewrite drop_ge by lia. reflexivity.
Qed.

Lemma checkBag_clauses_spec variables id :
  forall cls pre lens fuel,
    (length cls <= fuel)%nat ->
    checkBag_clauses (pre ++ flat cls) (lens ++ lengths cls) variables
      (Z.of_nat (length lens + length cls)) id
      (Z.of_nat (length variables)) fuel
      (Z.of_nat (length lens)) (Z.of_nat (length pre))
    = Some (bag_pass id variables cls).
Proof.
  induction cls as [|c cls IH]; intros pre lens fuel Hfuel.
  - destruct fuel; [reflexivity|]. simpl.
    destruct (Z.ltb_spec (Z.of_nat (length lens))
                (Z.of_nat (length lens + 0))); [lia|reflexivity].
  - destruct fuel as [|fuel]; [simpl in Hfuel; lia|]. simpl.
    destruct (Z.ltb_spec (Z.of_nat (length lens))
                (Z.of_nat (length lens + S (length cls)))); [|lia].
    replace (rd (lens ++ Z.of_nat (length c) :: lengths cls)
               (Z.of_nat (length lens)))
      with (Some (Z.of_nat (length c))).
    2:{ rewrite rd_nat, lookup_app_r by lia.
        rewrite Nat.sub_diag. reflexivity. }
    simpl. rewrite Nat2Z.id.
    rewrite (checkBag_lits_spec variables id pre c (flat cls)) by (simpl; lia).
    simpl. change (drop (Z.to_nat 0) c) with c.
    destruct (clause_pass id variables c 0 =? 0); [reflexivity|].
    specialize (IH (pre ++ c) (lens ++ [Z.of_nat (length c)]) fuel
                  ltac:(simpl in Hfuel; lia)).
    rewrite <- !app_assoc in IH. simpl in IH.
    rewrite !length_app in IH. simpl in IH.
    replace (Z.of_nat (length lens + 1 + length cls))
      with (Z.of_nat (length lens + S (length cls))) in IH by lia.
    replace (Z.of_nat (length lens + 1))
      with (Z.of_nat (length lens) + 1) in IH by lia.
    replace (Z.of_nat (length pre + length c))
      with (Z.of_nat (length pre) + Z.of_nat (length c)) in IH by lia.
    exact IH.
Qed.

(** [checkBag] on the flat layout of a list of clauses. *)
Lemma checkBag_flat variables id cls :
  checkBag (flat cls) (lengths cls) (Z.of_nat (length cls)) id
    (Z.of_nat (length variables)) variables
  = Some (bag_pass id variables cls).
Proof.
  unfold checkBag. rewrite Nat2Z.id.
  exact (checkBag_clauses_spec variables id cls [] [] (length cls)
           (Nat.le_refl _)).
Qed.
End CheckBagFacts.

Section MachFacts.
Import Mach.

Lemma wrap64_small z : - 2 ^ 63 <= z < 2 ^ 63 -> wrap64 z = z.
Proof.
  intros H. unfold wrap64.
  rewrite Z.mod_small; [lia|].
  change (2 ^ 64) with (2 ^ 63 + 2 ^ 63). lia.
Qed.

Lemma wrap64_testbit z n :
  0 <= n < 64 -> Z.testbit (wrap64 z) n = Z.testbit z n.
Proof.
  intros Hn. unfold wrap64.
  rewrite <- (Z.mod_pow2_bits_low (_ - _) 64 n) by lia.
  rewrite <- (Z.mod_pow2_bits_low z 64 n) by lia.
  f_equal.
  rewrite Zminus_mod, Zmod_mod, <- Zminus_mod.
  replace (z + 2 ^ 63 - 2 ^ 63) with z by lia. reflexivity.
Qed.
End MachFacts.

Section CheckBagSemantics.
Import Mach Bag ClauseSpec.
Implicit Types (variables vs c : list Z) (cls : list (list Z)).

Lemma mentions_over lit v :
  var_ok v ->
  (lit =? v) || (lit =? wrap64 (- v)) = true <-> over lit v.
Proof.
  intros Hv. unfold var_ok in Hv. rewrite wrap64_small by lia.
  unfold over. rewrite orb_true_iff, !Z.eqb_eq. reflexivity.
Qed.

Lemma lit_pass_bool id lit vs : forall b satC,
  satC = 0 \/ satC = 1 ->
  lit_pass id lit vs b satC = 0 \/ lit_pass id lit vs b satC = 1.
Proof.
  induction vs as [|v vs IH]; intros b satC Hs; simpl; [exact Hs|].
  destruct ((lit =? v) || (lit =? wrap64 (- v))); [|apply IH; exact Hs].
  destruct (passes id lit b); [right; reflexivity|]. apply IH. left.
  reflexivity.
Qed.

(** What the scan of the bag variables answers for one literal. *)
Lemma lit_pass_1_iff id lit vs :
  Forall var_ok vs ->
  forall b satC,
    lit_pass id lit vs b satC = 1 <->
    (satC = 1 /\ ~ in_bag vs lit) \/
    (exists (k : nat) v, vs !! k = Some v /\ over lit v /\
                         passes id lit (b + Z.of_nat k) = true).
Proof.
  induction 1 as [|v vs Hv Hvs IH]; intros b satC; simpl.
  - split.
    + intros ->. left. split; [reflexivity|].
      intros (v & Hin & _). apply elem_of_nil in Hin. exact Hin.
    + intros [[-> _]|(k & v & Hk & _)]; [reflexivity|].
      rewrite lookup_nil in Hk. discriminate.
  - destruct ((lit =? v) || (lit =? wrap64 (- v))) eqn:Hm.
    + apply mentions_over in Hm; [|exact Hv].
      destruct (passes id lit b) eqn:Hp.
      * split; [|reflexivity]. intros _. right. exists 0%nat, v.
        rewrite Z.add_0_r. auto.
      * rewrite IH. split.
        -- intros [[? _]|(k & v' & Hk & Ho & Hpk)]; [discriminate|].
           right. exists (S k), v'. split; [exact Hk|]. split; [exact Ho|].
           rewrite <- Hpk. f_equal. lia.
        -- intros [[_ Hn]|(k & v' & Hk & Ho & Hpk)].
           ++ exfalso. apply Hn. exists v. split; [apply elem_of_cons; auto|].
              exact Hm.
           ++ right. destruct k as [|k].
              ** rewrite Z.add_0_r in Hpk. congruence.
              ** exists k, v'. split; [exact Hk|]. split; [exact Ho|].
                 rewrite <- Hpk. f_equal. lia.
    + assert (Hno : ~ over lit v).
      { intros Ho. apply mentions_over in Ho; [|exact Hv]. congruence. }
      rewrite IH. split.
      * intros [[-> Hn]|(k & v' & Hk & Ho & Hpk)].
        -- left. split; [reflexivity|]. intros (v' & Hin & Ho).
           apply elem_of_cons in Hin as [->|Hin]; [contradiction|].
           apply Hn. exists v'. auto.
        -- right. exists (S k), v'. split; [exact Hk|]. split; [exact Ho|].
           rewrite <- Hpk. f_equal. lia.
      * intros [[-> Hn]|(k & v' & Hk & Ho & Hpk)].
        -- left. split; [reflexivity|]. intros (v' & Hin & Ho).
           apply Hn. exists v'. split; [apply elem_of_cons; auto|exact Ho].
        -- destruct k as [|k].
           ++ simpl in Hk. injection Hk as <-. contradiction.
           ++ right. exists k, v'. split; [exact Hk|]. split; [exact Ho|].
              rewrite <- Hpk. f_equal. lia.
Qed.

Lemma clause_pass_bool id variables c : forall satC,
  satC = 0 \/ satC = 1 ->
  clause_pass id variables c satC = 0 \/ clause_pass id variables c satC = 1.
Proof.
  induction c as [|lit c IH]; intros satC Hs; simpl; [exact Hs|].
  destruct Hs as [->| ->]; simpl; [|right; reflexivity].
  apply IH. apply lit_pass_bool. right. reflexivity.
Qed.

Lemma clause_pass_1_iff id variables c :
  clause_pass id variables c 0 = 1 <->
  Exists (fun lit => lit_pass id lit variables 0 1 = 1) c.
Proof.
  induction c as [|lit c IH]; simpl.
  - split; [discriminate|]. intros H. inversion H.
  - destruct (lit_pass_bool id lit variables 0 1 (or_intror eq_refl))
      as [H0|H1].
    + rewrite H0, IH. split.
      * intros H. apply Exists_cons. right. exact H.
      * intros H. apply Exists_cons in H as [H|H]; [congruence|exact H].
    + rewrite H1. split.
      * intros _. apply Exists_cons. left. exact H1.
      * intros _. destruct c; reflexivity.
Qed.

Lemma bag_pass_bool id variables cls :
  bag_pass id variables cls = 0 \/ bag_pass id variables cls = 1.
Proof.
  induction cls as [|c cls IH]; simpl; [right; reflexivity|].
  destruct (clause_pass id variables c 0 =? 0); [left; reflexivity|exact IH].
Qed.

Lemma bag_pass_1_iff id variables cls :
  bag_pass id variables cls = 1 <->
  Forall (fun c => clause_pass id variables c 0 = 1) cls.
Proof.
  induction cls as [|c cls IH]; simpl.
  - split; [constructor|reflexivity].
  - destruct (clause_pass_bool id variables c 0 (or_introl eq_refl))
      as [H0|H1].
    + rewrite H0. simpl. split; [discriminate|].
      intros H. apply Forall_cons in H as [H _]. congruence.
    + rewrite H1. simpl. rewrite IH. split.
      * intros H. apply Forall_cons. auto.
      * intros H. apply Forall_cons in H as [_ H]. exact H.
Qed.

Lemma bag_pass_drop_clause id variables cls1 c cls2 :
  clause_pass id variables c 0 = 1 ->
  bag_pass id variables (cls1 ++ c :: cls2)
  = bag_pass id variables (cls1 ++ cls2).
Proof.
  intros Hc. induction cls1 as [|c1 cls1 IH]; simpl.
  - rewrite Hc. reflexivity.
  - rewrite IH. reflexivity.
Qed.
End CheckBagSemantics.

Section CheckBagBits.
Import Mach Bag ClauseSpec.
Implicit Types (variables vs c : list Z) (cls : list (list Z)).

Lemma testbit_above id n m :
  0 <= id < 2 ^ n -> 0 <= n <= m -> Z.testbit id m = false.
Proof.
  intros Hid Hm. rewrite Z.testbit_odd, Z.shiftr_div_pow2 by lia.
  rewrite Z.div_small; [reflexivity|].
  split; [lia|]. eapply Z.lt_le_trans; [apply Hid|].
  apply Z.pow_le_mono_r; lia.
Qed.

(** The [int] mask picks bit [b] of [id] as long as [b <= 31] and [id]
    has no bit above position 31. *)
Lemma id_mask_spec id b :
  0 <= b < 32 -> 0 <= id < 2 ^ 32 ->
  id_mask id b = if Z.testbit id b then 2 ^ b else 0.
Proof.
  intros Hb Hid. unfold id_mask, int_one_shl.
  destruct (Z.ltb_spec b 32); [|lia].
  apply Z.bits_inj'. intros m Hm. rewrite Z.land_spec.
  destruct (Z.eq_dec b 31) as [->|Hne].
  - change (wrap32 (Z.shiftl 1 31)) with (Z.lnot (Z.ones 31)).
    rewrite Z.lnot_spec, Z.testbit_ones_nonneg by lia.
    destruct (Z.ltb_spec m 31) as [Hlt|Hge]; cbn [negb].
    + rewrite andb_false_r. destruct (Z.testbit id 31).
      * rewrite Z.pow2_bits_false by lia. reflexivity.
      * rewrite Z.bits_0. reflexivity.
    + rewrite andb_true_r. destruct (Z.eq_dec m 31) as [->|Hm31].
      * destruct (Z.testbit id 31) eqn:E.
        -- rewrite Z.pow2_bits_true by lia. reflexivity.
        -- rewrite Z.bits_0. reflexivity.
      * rewrite (testbit_above id 32 m) by lia.
        destruct (Z.testbit id 31).
        -- rewrite Z.pow2_bits_false by lia. reflexivity.
        -- rewrite Z.bits_0. reflexivity.
  - assert (Hw : wrap32 (Z.shiftl 1 b) = 2 ^ b).
    { rewrite Z.shiftl_1_l. unfold wrap32.
      assert (0 < 2 ^ b < 2 ^ 31).
      { split; [apply Z.pow_pos_nonneg; lia|].
        apply Z.pow_lt_mono_r; lia. }
      rewrite Z.mod_small; [lia|].
      change (2 ^ 32) with (2 ^ 31 + 2 ^ 31). lia. }
    rewrite Hw. destruct (Z.eq_dec m b) as [->|Hmb].
    + rewrite Z.pow2_bits_true by lia. rewrite andb_true_r.
      destruct (Z.testbit id b).
      * rewrite Z.pow2_bits_true by lia. reflexivity.
      * rewrite Z.bits_0. reflexivity.
    + rewrite Z.pow2_bits_false by lia. rewrite andb_false_r.
      destruct (Z.testbit id b).
      * rewrite Z.pow2_bits_false by lia. reflexivity.
      * rewrite Z.bits_0. reflexivity.
Qed.

Lemma passes_satisfied_at id lit b :
  0 <= b < 32 -> 0 <= id < 2 ^ 32 -> lit <> 0 ->
  passes id lit b = satisfied_at id lit b.
Proof.
  intros Hb Hid Hl. unfold passes, satisfied_at.
  rewrite id_mask_spec by assumption.
  assert (0 < 2 ^ b) by (apply Z.pow_pos_nonneg; lia).
  destruct (Z.ltb_spec lit 0), (Z.ltb_spec 0 lit); try lia; simpl.
  - destruct (Z.testbit id b); simpl.
    + apply Z.eqb_neq. lia.
    + reflexivity.
  - rewrite orb_false_r. destruct (Z.testbit id b); simpl.
    + apply Z.gtb_lt. lia.
    + reflexivity.
Qed.

Lemma index_of_lookup v vs : forall b i,
  index_of v vs b = Some i ->
  exists k : nat, i = b + Z.of_nat k /\ vs !! k = Some v.
Proof.
  induction vs as [|x vs IH]; intros b i H; simpl in H; [discriminate|].
  destruct (Z.eqb_spec x v) as [->|Hne].
  - injection H as <-. exists 0%nat. split; [lia|reflexivity].
  - apply IH in H as (k & -> & Hk). exists (S k). split; [lia|exact Hk].
Qed.

Lemma lookup_index_of v vs : forall b (k : nat),
  NoDup vs -> vs !! k = Some v ->
  index_of v vs b = Some (b + Z.of_nat k).
Proof.
  induction vs as [|x vs IH]; intros b k Hnd Hk; [discriminate|].
  apply NoDup_cons in Hnd as [Hx Hnd]. simpl.
  destruct k as [|k]; simpl in Hk.
  - injection Hk as ->. rewrite Z.eqb_refl. f_equal. lia.
  - destruct (Z.eqb_spec x v) as [->|Hne].
    + exfalso. apply Hx. eapply list_elem_of_lookup_2. exact Hk.
    + rewrite (IH (b + 1) k Hnd Hk). f_equal. lia.
Qed.

Lemma over_abs lit v : var_ok v -> over lit v <-> Z.abs lit = v.
Proof. unfold var_ok, over. lia. Qed.

Lemma lit_pass_satisfied variables id lit :
  Forall var_ok variables -> NoDup variables ->
  (length variables <= 32)%nat -> 0 <= id < 2 ^ 32 ->
  in_bag variables lit ->
  lit_pass id lit variables 0 1 = 1 <-> lit_satisfied variables id lit = true.
Proof.
  intros Hok Hnd Hlen Hid Hin. rewrite (lit_pass_1_iff _ _ _ Hok).
  unfold lit_satisfied. split.
  - intros [[_ Hn]|(k & v & Hk & Ho & Hp)]; [contradiction|].
    assert (Hv : var_ok v).
    { eapply Forall_lookup_1 in Hok; eauto. }
    pose proof (proj1 (over_abs lit v Hv) Ho) as Habs.
    rewrite Habs, (lookup_index_of v variables 0 k Hnd Hk).
    apply lookup_lt_Some in Hk.
    rewrite <- passes_satisfied_at; [exact Hp|lia|exact Hid|].
    unfold var_ok in Hv. lia.
  - destruct (index_of (Z.abs lit) variables 0) as [i|] eqn:Hi;
      [|discriminate].
    intros Hs. right.
    apply index_of_lookup in Hi as (k & -> & Hk).
    assert (Hv : var_ok (Z.abs lit)).
    { eapply Forall_lookup_1 in Hok; eauto. }
    exists k, (Z.abs lit). split; [exact Hk|].
    split; [apply over_abs; auto|].
    apply lookup_lt_Some in Hk.
    rewrite passes_satisfied_at; [exact Hs|lia|exact Hid|].
    unfold var_ok in Hv. lia.
Qed.

(** For a bag of at most 32 variables [checkBag] decides whether every
    clause of a bag-local clause set has a literal satisfied by [id]. *)
Lemma checkBag_bag_local variables id cls :
  Forall var_ok variables -> NoDup variables ->
  (length variables <= 32)%nat ->
  0 <= id < 2 ^ Z.of_nat (length variables) ->
  Forall (Forall (in_bag variables)) cls ->
  checkBag (flat cls) (lengths cls) (Z.of_nat (length cls)) id
    (Z.of_nat (length variables)) variables
  = Some (if bag_satisfied variables id cls then 1 else 0).
Proof.
  intros Hok Hnd Hlen Hid Hloc. rewrite checkBag_flat. f_equal.
  assert (Hid32 : 0 <= id < 2 ^ 32).
  { split; [lia|]. eapply Z.lt_le_trans; [apply Hid|].
    apply Z.pow_le_mono_r; lia. }
  assert (Hiff : bag_pass id variables cls = 1 <->
                 bag_satisfied variables id cls = true).
  { rewrite bag_pass_1_iff. unfold bag_satisfied.
    rewrite forallb_forall, Forall_forall. 
    split; intros H c Hc.
    - apply list_elem_of_In in Hc.
      specialize (H c Hc). apply clause_pass_1_iff in H.
      apply existsb_exists. apply Exists_exists in H as (lit & Hl & Hp).
      exists lit. split; [apply list_elem_of_In; exact Hl|].
      apply lit_pass_satisfied; auto.
      rewrite Forall_forall in Hloc. specialize (Hloc c Hc).
      rewrite Forall_forall in Hloc. auto.
    - apply clause_pass_1_iff. apply list_elem_of_In in Hc.
      specialize (H c Hc). apply existsb_exists in H as (lit & Hl & Hp).
      apply list_elem_of_In in Hl.
      apply Exists_exists. exists lit. split; [exact Hl|].
      apply lit_pass_satisfied; auto.
      apply list_elem_of_In in Hc.
      rewrite Forall_forall in Hloc. specialize (Hloc c Hc).
      rewrite Forall_forall in Hloc. auto. }
  destruct (bag_satisfied variables id cls).
  - apply Hiff. reflexivity.
  - destruct (bag_pass_bool id variables cls) as [H0|H1]; [exact H0|].
    apply Hiff in H1. discriminate.
Qed.
End CheckBagBits.

Section CheckBagClaims.
Import Mach Dbl Bag ClauseSpec.

(** C9. [checkBag] counts a literal whose variable is not among the bag
    variables as satisfied: it answers 1 exactly when every clause has a
    literal that is out of the bag or is over a bag variable and passes
    the bit test, so a clause with an out-of-bag literal never makes it
    answer 0 and can be dropped without changing the answer. *)
Theorem checkBag_out_of_bag (variables : list Z) (id : Z)
    (cls : list (list Z)) :
  Forall var_ok variables ->
  (checkBag (flat cls) (lengths cls) (Z.of_nat (length cls)) id
     (Z.of_nat (length variables)) variables = Some 1
   <->
   Forall (Exists (fun lit =>
             ~ in_bag variables lit \/
             exists (b : nat) v, variables !! b = Some v /\ over lit v /\
                                 passes id lit (Z.of_nat b) = true)) cls)
  /\
  (forall cls1 c cls2,
     cls = cls1 ++ c :: cls2 ->
     Exists (fun lit => ~ in_bag variables lit) c ->
     checkBag (flat cls) (lengths cls) (Z.of_nat (length cls)) id
       (Z.of_nat (length variables)) variables
     = checkBag (flat (cls1 ++ cls2)) (lengths (cls1 ++ cls2))
         (Z.of_nat (length (cls1 ++ cls2))) id
         (Z.of_nat (length variables)) variables).
Proof.
  intros Hok.
  assert (Hlit : forall lit,
             lit_pass id lit variables 0 1 = 1 <->
             (~ in_bag variables lit \/
              exists (b : nat) v, variables !! b = Some v /\ over lit v /\
                                  passes id lit (Z.of_nat b) = true)).
  { intros lit. rewrite (lit_pass_1_iff _ _ _ Hok). simpl. split.
    - intros [[_ H]|H]; [left; exact H|right; exact H].
    - intros [H|H]; [left; split; [reflexivity|exact H]|right; exact H]. }
  split.
  - rewrite checkBag_flat. split.
    + intros [= H]. apply bag_pass_1_iff in H.
      eapply Forall_impl; [exact H|]. intros c Hc.
      apply clause_pass_1_iff in Hc.
      eapply Exists_impl; [exact Hc|]. intros lit. apply Hlit.
    + intros H. f_equal. apply bag_pass_1_iff.
      eapply Forall_impl; [exact H|]. intros c Hc.
      apply clause_pass_1_iff.
      eapply Exists_impl; [exact Hc|]. intros lit. apply Hlit.
  - intros cls1 c cls2 -> Hc. rewrite !checkBag_flat. f_equal.
    apply bag_pass_drop_clause. apply clause_pass_1_iff.
    eapply Exists_impl; [exact Hc|]. intros lit Hn. apply Hlit. left.
    exact Hn.
Qed.

Lemma checkBag_out_of_bag_witness :
  Forall var_ok Demo.small_bag /\
  checkBag (flat Demo.small_clauses) (lengths Demo.small_clauses) 2 0 2
    Demo.small_bag
  = checkBag (flat [[-2]]) (lengths [[-2]]) 1 0 2 Demo.small_bag.
Proof.
  assert (Hok : Forall var_ok Demo.small_bag).
  { repeat constructor; unfold var_ok; lia. }
  split; [exact Hok|].
  apply (proj2 (checkBag_out_of_bag Demo.small_bag 0 Demo.small_clauses Hok)
           [] [1; 5] [[-2]] eq_refl).
  apply Exists_cons. right. apply Exists_cons. left.
  intros (v & Hv & Ho). unfold over in Ho.
  apply elem_of_cons in Hv as [->|Hv]; [lia|].
  apply elem_of_cons in Hv as [->|Hv]; [lia|].
  apply elem_of_nil in Hv. exact Hv.
Defined.

(** C4, the introduce-forget part: an assignment that fails [checkBag]
    contributes 0. *)
Lemma solveIntroduceF_clause_check bld clauses numVarsC numclauses numV
    edge numVE variables edgeVariables minId maxId weights id tmp sat :
  match edge with
  | Some _ => solveIntroduce_ bld numV edge numVE variables edgeVariables
                minId maxId weights id
  | None => bag_weight weights variables numV id 1%float
  end = Some tmp ->
  checkBag clauses numVarsC numclauses id numV variables = Some sat ->
  solveIntroduceF bld clauses numVarsC numclauses numV edge numVE variables
    edgeVariables minId maxId weights id
  = Some (if gt0 tmp && (sat =? 1) then tmp else 0%float).
Proof.
  intros Ht Hs. unfold solveIntroduceF. rewrite Ht. simpl.
  destruct (gt0 tmp); simpl; [|reflexivity].
  rewrite Hs. simpl. destruct (sat =? 1); reflexivity.
Qed.

(** C4 fails on a bag of 33 variables.  The clause [32] is over the
    variable at position 31; bit 31 of [id = 2^32] is 0, so the clause has
    no literal satisfied by [id]; yet the [int] mask [1 << 31] is negative,
    its sign extension covers bit 32 of [id], and [checkBag] answers 1. *)
Lemma checkBag_wide_bag :
  index_of 32 Demo.wide_bag 0 = Some 31 /\
  Z.testbit (2 ^ 32) 31 = false /\
  bag_satisfied Demo.wide_bag (2 ^ 32) [[32]] = false /\
  checkBag (flat [[32]]) (lengths [[32]]) 1 (2 ^ 32) 33 Demo.wide_bag
  = Some 1.
Proof. repeat split; vm_compute; reflexivity. Qed.
End CheckBagClaims.

(** ** The variable-merge loop of solveIntroduce_ *)

Section MergeLoop.
Import Mach Bag.
Implicit Types (variables ev evs : list Z).

Lemma rd_of_drop {A} (l : list A) a x rest :
  0 <= a -> drop (Z.to_nat a) l = x :: rest ->
  rd l a = Some x /\ drop (Z.to_nat (a + 1)) l = rest.
Proof.
  intros Ha Hd. split.
  - unfold rd. destruct (Z.ltb_spec a 0); [lia|].
    rewrite <- (Nat.add_0_r (Z.to_nat a)), <- lookup_drop, Hd. reflexivity.
  - replace (Z.to_nat (a + 1)) with (Z.to_nat a + 1)%nat by lia.
    rewrite <- drop_drop, Hd. reflexivity.
Qed.

(** The scan stops at the first occurrence of the target. *)
Lemma scan_spec variables target l1 : forall l2 a fuel,
  0 <= a ->
  drop (Z.to_nat a) variables = l1 ++ target :: l2 ->
  target ∉ l1 ->
  (length l1 <= fuel)%nat ->
  scan variables target fuel a = Some (a + Z.of_nat (length l1)).
Proof.
  induction l1 as [|x l1 IH]; intros l2 a fuel Ha Hd Hn Hf.
  - apply rd_of_drop in Hd as [Hrd _]; [|exact Ha].
    destruct fuel; simpl; rewrite Hrd; simpl; rewrite Z.eqb_refl;
      f_equal; lia.
  - simpl in Hd. apply rd_of_drop in Hd as [Hrd Hd]; [|exact Ha].
    apply not_elem_of_cons in Hn as [Hne Hn].
    destruct fuel as [|fuel]; [simpl in Hf; lia|].
    simpl. rewrite Hrd. simpl.
    destruct (Z.eqb_spec x target) as [->|_]; [contradiction|].
    rewrite (IH l2 (a + 1) fuel) by (simpl in Hf; auto; lia).
    f_equal. simpl length. lia.
Qed.

(** With [length variables] increments allowed, the scan gives up only by
    reading past the end of [variables]: no later entry is the target. *)
Lemma scan_None variables target : forall fuel a,
  0 <= a ->
  (length variables - Z.to_nat a <= fuel)%nat ->
  scan variables target fuel a = None ->
  forall k, a <= k -> rd variables k <> Some target.
Proof.
  induction fuel as [|fuel IH]; intros a Ha Hf Hs k Hk Hrd.
  - pose proof (rd_Some_bounds _ _ _ Hrd) as Hb.
    assert (k = a) as -> by lia. simpl in Hs.
    rewrite Hrd in Hs. simpl in Hs. rewrite Z.eqb_refl in Hs. discriminate.
  - simpl in Hs. destruct (rd variables a) as [v|] eqn:Hv; simpl in Hs.
    + destruct (Z.eqb_spec v target) as [->|Hne]; [discriminate|].
      destruct (Z.eq_dec k a) as [->|Hka]; [congruence|].
      apply (IH (a + 1) ltac:(lia) ltac:(lia) Hs k ltac:(lia) Hrd).
    + pose proof (rd_Some_bounds _ _ _ Hrd) as Hb.
      destruct (rd_is_Some variables a ltac:(lia)) as [v Hv'].
      congruence.
Qed.

Lemma sublist_first (e : Z) evs (l : list Z) :
  (e :: evs) `sublist_of` l ->
  exists l1 l2, l = l1 ++ e :: l2 /\ (e ∉ l1) /\ (evs `sublist_of` l2).
Proof.
  intros H. apply sublist_cons_l in H as (k1 & k2 & -> & Hs).
  destruct (decide (e ∈ k1)) as [Hin|Hnin].
  - apply list_elem_of_split_l in Hin as (k1a & k1b & -> & Hn).
    exists k1a, (k1b ++ e :: k2). rewrite <- app_assoc. simpl.
    split; [reflexivity|]. split; [exact Hn|].
    apply sublist_inserts_l. apply sublist_cons. exact Hs.
  - exists k1, k2. auto.
Qed.

Lemma id_bit_testbit id a k :
  0 <= k -> Z.testbit (id_bit id a) k = (k =? 0) && Z.testbit id (k + a).
Proof.
  intros Hk. unfold id_bit.
  rewrite Z.land_spec, Z.shiftr_spec by lia.
  change 1 with (2 ^ 0). rewrite Z.pow2_bits_eqb by lia.
  rewrite andb_comm, (Z.eqb_sym 0 k). reflexivity.
Qed.

Lemma shl64_id_bit_testbit id a b j :
  0 <= b -> 0 <= a -> 0 <= j < 64 ->
  Z.testbit (shl64 (id_bit id a) b) j = (j =? b) && Z.testbit id a.
Proof.
  intros Hb Ha Hj. unfold shl64.
  rewrite wrap64_testbit, Z.shiftl_spec by lia.
  destruct (Z.ltb_spec j b) as [Hlt|Hge].
  - rewrite Z.testbit_neg_r by lia.
    destruct (Z.eqb_spec j b); [lia|reflexivity].
  - rewrite id_bit_testbit by lia.
    destruct (Z.eqb_spec (j - b) 0) as [H0|H0], (Z.eqb_spec j b);
      try lia.
    rewrite H0. reflexivity.
Qed.

Lemma merge_loop_spec variables ev id :
  forall evs (b : nat) a otherId,
    (b <= length ev)%nat ->
    drop b ev = evs ->
    evs `sublist_of` drop (Z.to_nat a) variables ->
    0 <= a <= Z.of_nat (length variables) ->
    exists a' otherId',
      merge_loop variables (Some ev) (Z.of_nat (length variables))
        (Z.of_nat (length ev)) id (length evs) (Z.of_nat b) a otherId
      = Some (a', otherId') /\
      a <= a' <= Z.of_nat (length variables) /\
      (NoDup variables -> (length ev <= 64)%nat ->
       (forall j, Z.of_nat b <= j < 64 -> Z.testbit otherId j = false) ->
       (forall j, 0 <= j < Z.of_nat b ->
          Z.testbit otherId' j = Z.testbit otherId j) /\
       (forall (j pos : nat) v, (b <= j)%nat ->
          ev !! j = Some v -> variables !! pos = Some v ->
          Z.testbit otherId' (Z.of_nat j) = Z.testbit id (Z.of_nat pos)) /\
       (forall j, Z.of_nat (length ev) <= j < 64 ->
          Z.testbit otherId' j = false)).
Proof.
  induction evs as [|e evs IH]; intros b a otherId Hble Hd Hs Ha.
  - exists a, otherId. simpl. split; [reflexivity|]. split; [lia|].
    intros Hnd Hlen Hz.
    assert (Hl : (length ev <= b)%nat).
    { destruct (Nat.le_gt_cases (length ev) b) as [H|H]; [exact H|].
      apply (f_equal length) in Hd. rewrite length_drop in Hd.
      simpl in Hd. lia. }
    split; [auto|]. split.
    + intros j pos v Hbj Hj _. exfalso.
      apply lookup_lt_Some in Hj. lia.
    + intros j Hj. apply Hz. lia.
  - assert (Hb : (b < length ev)%nat).
    { apply (f_equal length) in Hd. rewrite length_drop in Hd.
      simpl in Hd. lia. }
    assert (Heb : ev !! b = Some e).
    { rewrite <- (Nat.add_0_r b), <- lookup_drop, Hd. reflexivity. }
    assert (Hd' : drop (S b) ev = evs).
    { replace (S b) with (b + 1)%nat by lia.
      rewrite <- drop_drop, Hd. reflexivity. }
    apply sublist_first in Hs as (l1 & l2 & Hsplit & Hn & Hs).
    assert (Hal : a + Z.of_nat (length l1) < Z.of_nat (length variables)).
    { apply (f_equal length) in Hsplit.
      rewrite length_drop, length_app in Hsplit. simpl in Hsplit. lia. }
    pose proof (scan_spec variables e l1 l2 a (length variables)
                  ltac:(lia) Hsplit Hn ltac:(lia)) as Hscan.
    set (a' := a + Z.of_nat (length l1)) in *.
    assert (Hva : variables !! Z.to_nat a' = Some e).
    { replace (Z.to_nat a') with (Z.to_nat a + length l1)%nat by lia.
      rewrite <- lookup_drop, Hsplit.
      rewrite lookup_app_r by lia. rewrite Nat.sub_diag. reflexivity. }
    assert (Hda : drop (Z.to_nat (a' + 1)) variables = l2).
    { replace (Z.to_nat (a' + 1))
        with (Z.to_nat a + (length l1 + 1))%nat by lia.
      rewrite <- drop_drop, Hsplit, <- drop_drop.
      rewrite drop_app_length. reflexivity. }
    set (o1 := Z.lor otherId (shl64 (id_bit id a') (Z.of_nat b))).
    destruct (IH (S b) (a' + 1) o1 Hb Hd')
      as (a2 & o2 & Hm & Ha2 & Hbitsall).
    { rewrite Hda. exact Hs. }
    { lia. }
    exists a2, o2. split.
    { simpl.
      destruct (Z.ltb_spec (Z.of_nat b) (Z.of_nat (length ev))); [|lia].
      destruct (Z.ltb_spec a (Z.of_nat (length variables))); [|lia].
      simpl. rewrite rd_nat, Heb. simpl. rewrite Hscan. simpl.
      replace (Z.of_nat b + 1) with (Z.of_nat (S b)) by lia. exact Hm. }
    split; [lia|].
    intros Hnd Hlen Hz.
    destruct (Hbitsall Hnd Hlen) as (Hlow & Hbits & Hhigh).
    { intros j Hj. unfold o1. rewrite Z.lor_spec, Hz by lia.
      rewrite shl64_id_bit_testbit by lia.
      destruct (Z.eqb_spec j (Z.of_nat b)); [lia|reflexivity]. }
    split; [|split; [|exact Hhigh]].
    + intros j Hj. rewrite Hlow by lia. unfold o1.
      rewrite Z.lor_spec, shl64_id_bit_testbit by lia.
      destruct (Z.eqb_spec j (Z.of_nat b)); [lia|].
      simpl. apply orb_false_r.
    + intros j pos v Hbj Hj Hpos.
      destruct (Nat.eq_dec j b) as [->|Hne].
      * assert (v = e) as -> by congruence.
        assert (pos = Z.to_nat a') as ->
          by (eapply NoDup_lookup; eauto).
        rewrite Hlow by lia. unfold o1.
        rewrite Z.lor_spec, Hz, shl64_id_bit_testbit by lia.
        rewrite Z.eqb_refl. simpl. f_equal. lia.
      * eapply Hbits; eauto. lia.
Qed.
End MergeLoop.

(** What follows when the merge loop ends inside the buffers. *)

Section MergeLoopConverse.
Import Mach Bag.

Lemma scan_Some variables target : forall fuel a a1,
  0 <= a ->
  scan variables target fuel a = Some a1 ->
  a <= a1 /\ rd variables a1 = Some target.
Proof.
  induction fuel as [|fuel IH]; intros a a1 Ha H; simpl in H;
    destruct (rd variables a) as [v|] eqn:Hv; simpl in H;
    try discriminate;
    destruct (Z.eqb_spec v target) as [->|Hne].
  - injection H as <-. split; [lia|exact Hv].
  - discriminate.
  - injection H as <-. split; [lia|exact Hv].
  - destruct (IH (a + 1) a1 ltac:(lia) H) as [Hle Hrd].
    split; [lia|exact Hrd].
Qed.

Lemma merge_loop_Some variables ev id :
  forall evs (b : nat) a o a' o',
    drop b ev = evs ->
    0 <= a <= Z.of_nat (length variables) ->
    merge_loop variables (Some ev) (Z.of_nat (length variables))
      (Z.of_nat (length ev)) id (length evs) (Z.of_nat b) a o
    = Some (a', o') ->
    a <= a' <= Z.of_nat (length variables) /\
    (evs `sublist_of` drop (Z.to_nat a) variables \/
     a' = Z.of_nat (length variables)).
Proof.
  induction evs as [|e evs IH]; intros b a o a' o' Hd Ha H.
  - simpl in H. injection H as <- <-. split; [lia|].
    left. apply sublist_nil_l.
  - assert (Hb : (b < length ev)%nat).
    { apply (f_equal length) in Hd. rewrite length_drop in Hd.
      simpl in Hd. lia. }
    assert (Heb : ev !! b = Some e).
    { rewrite <- (Nat.add_0_r b), <- lookup_drop, Hd. reflexivity. }
    assert (Hd' : drop (S b) ev = evs).
    { replace (S b) with (b + 1)%nat by lia.
      rewrite <- drop_drop, Hd. reflexivity. }
    simpl in H.
    destruct (Z.ltb_spec (Z.of_nat b) (Z.of_nat (length ev))); [|lia].
    destruct (Z.ltb_spec a (Z.of_nat (length variables))) as [Hlt|Hge].
    + simpl in H. rewrite rd_nat, Heb in H. simpl in H.
      destruct (scan variables e (length variables) a) as [a1|] eqn:Hs;
        simpl in H; [|discriminate].
      destruct (scan_Some variables e _ a a1 ltac:(lia) Hs) as [Hle Hrd].
      pose proof (rd_Some_bounds _ _ _ Hrd) as Hb1.
      replace (Z.of_nat b + 1) with (Z.of_nat (S b)) in H by lia.
      destruct (IH (S b) (a1 + 1) _ a' o' Hd' ltac:(lia) H)
        as [Hle' [Hsub|Hend] ]; (split; [lia|]); [|right; exact Hend].
      left.
      replace (drop (Z.to_nat a) variables)
        with (take (Z.to_nat a1 - Z.to_nat a) (drop (Z.to_nat a) variables)
              ++ drop (Z.to_nat a1) variables).
      2:{ rewrite <- (take_drop (Z.to_nat a1 - Z.to_nat a)
                        (drop (Z.to_nat a) variables)) at 2.
          rewrite drop_drop. f_equal. f_equal. lia. }
      apply sublist_inserts_l.
      rewrite (rd_drop_cons variables a1 e Hrd).
      apply sublist_skip. exact Hsub.
    + simpl in H. injection H as <- <-. split; [lia|]. right. lia.
Qed.

End MergeLoopConverse.

Section MergeLoopClaims.
Import Mach Bag.

(** C10, as the code has it.  When the child variables form a
    subsequence of the bag variables, the variable-merge loop of
    [solveIntroduce_] ends without reading [variables] past its end, and
    (the bag variables being distinct and the child id fitting a [long])
    bit [b] of the child id it computes is the bit of [id] at the position
    of the [b]-th child variable in the bag.  The precondition is
    sufficient, and it is necessary up to one case: whenever the loop ends
    inside the buffer, the child variables are a subsequence of the bag
    variables or the loop has used up the bag ([a = numV]), where the guard
    [a < numV] ends it before the child variables left are looked for.
    Outside these two cases the scan reads past the end, as on the bag
    [1; 2] with the child [1; 3]. *)
Theorem merge_loop_subsequence :
  (forall (variables ev : list Z) (id : Z),
     ev `sublist_of` variables ->
     exists a otherId,
       merge_loop variables (Some ev) (Z.of_nat (length variables))
         (Z.of_nat (length ev)) id (Z.to_nat (Z.of_nat (length ev))) 0 0 0
       = Some (a, otherId) /\
       0 <= a <= Z.of_nat (length variables) /\
       (NoDup variables -> (length ev <= 64)%nat ->
        (forall (b pos : nat) v,
           ev !! b = Some v -> variables !! pos = Some v ->
           Z.testbit otherId (Z.of_nat b) = Z.testbit id (Z.of_nat pos)) /\
        (forall j, Z.of_nat (length ev) <= j < 64 ->
           Z.testbit otherId j = false)))
  /\
  (forall (variables ev : list Z) (id a otherId : Z),
     merge_loop variables (Some ev) (Z.of_nat (length variables))
       (Z.of_nat (length ev)) id (Z.to_nat (Z.of_nat (length ev))) 0 0 0
     = Some (a, otherId) ->
     ev `sublist_of` variables \/ a = Z.of_nat (length variables))
  /\
  (exists (variables ev : list Z) (id : Z),
     ~ ev `sublist_of` variables /\
     merge_loop variables (Some ev) (Z.of_nat (length variables))
       (Z.of_nat (length ev)) id (Z.to_nat (Z.of_nat (length ev))) 0 0 0
     = None).
Proof.
  split; [|split].
  - intros variables ev id Hsub. rewrite Nat2Z.id.
    destruct (merge_loop_spec variables ev id ev 0%nat 0 0)
      as (a & o & Hm & Ha & Hbitsall).
    + lia.
    + reflexivity.
    + exact Hsub.
    + lia.
    + exists a, o. split; [exact Hm|]. split; [lia|].
      intros Hnd Hlen.
      destruct (Hbitsall Hnd Hlen) as (_ & Hbits & Hhigh).
      { intros j _. apply Z.bits_0. }
      split; [|exact Hhigh].
      intros b pos v Hb Hpos. eapply Hbits; eauto. lia.
  - intros variables ev id a o H. rewrite Nat2Z.id in H.
    destruct (merge_loop_Some variables ev id ev 0%nat 0 0 a o eq_refl
                ltac:(lia) H) as [_ Hcases].
    exact Hcases.
  - exists [1; 2], [1; 3], 3. split; [|vm_compute; reflexivity].
    intros H. apply sublist_cons_r in H as [H|(l' & [= <-] & H)].
    + apply sublist_cons_r in H as [H|(l' & [=] & _)].
      apply sublist_nil_r in H. discriminate.
    + apply sublist_cons_r in H as [H|(l' & [=] & _)].
      apply sublist_nil_r in H. discriminate.
Qed.

Lemma merge_loop_subsequence_witness :
  exists a otherId,
    merge_loop [1; 2; 3] (Some [1; 3]) 3 2 5 2 0 0 0 = Some (a, otherId) /\
    0 <= a <= 3 /\
    (NoDup [1; 2; 3] -> (2 <= 64)%nat ->
     (forall (b pos : nat) v,
        [1; 3] !! b = Some v -> [1; 2; 3] !! pos = Some v ->
        Z.testbit otherId (Z.of_nat b) = Z.testbit 5 (Z.of_nat pos)) /\
     (forall j, 2 <= j < 64 -> Z.testbit otherId j = false)).
Proof.
  apply (proj1 merge_loop_subsequence [1; 2; 3] [1; 3] 5).
  apply sublist_skip, sublist_cons, sublist_skip, sublist_nil.
Defined.

(** C10 as stated fails: the loop does not end inside the buffer only
    under the precondition.  On the bag [1; 2] the child [2; 1] is no
    subsequence, and yet the loop ends without a read past the end: it
    finds variable 2 at the last position of the bag and the guard
    [a < numV] ends it before variable 1 is looked for. *)
Lemma merge_loop_ends_without_subsequence :
  ~ [2; 1] `sublist_of` [1; 2] /\
  merge_loop [1; 2] (Some [2; 1]) 2 2 3 2 0 0 0 = Some (2, 1).
Proof.
  split; [|vm_compute; reflexivity].
  intros H. apply sublist_cons_r in H as [H|(l' & [=] & _)].
  apply sublist_cons_r in H as [H|(l' & [= <-] & H)].
  - apply sublist_nil_r in H. discriminate.
  - apply sublist_nil_r in H. discriminate.
Qed.

(** The precondition is not necessary in every case: once the bag
    variables are used up the loop condition [a < numV] ends the loop, so a
    child variable that would come after them is never looked for. *)
Lemma merge_loop_stops_when_bag_exhausted :
  merge_loop [1; 2] (Some [1; 2; 3]) 2 3 3 3 0 0 0 = Some (2, 3) /\
  3 ∉ [1; 2].
Proof.
  split; [vm_compute; reflexivity|].
  intros H. apply elem_of_cons in H as [H|H]; [discriminate|].
  apply elem_of_cons in H as [H|H]; [discriminate|].
  apply elem_of_nil in H. exact H.
Qed.
End MergeLoopClaims.

(** ** The bit-trie *)

Section TrieWords.
Import Mach Trie TrieSpec.

Lemma half_range w k : 0 <= half w k < 2 ^ 32.
Proof.
  unfold half. destruct (k =? 0); rewrite Z.land_ones by lia;
    apply Z.mod_pos_bound; lia.
Qed.

Lemma half_0 k : half 0 k = 0.
Proof. unfold half. destruct (k =? 0); reflexivity. Qed.

Lemma to_uint_land v : to_uint v = Z.land v (Z.ones 32).
Proof. unfold to_uint. rewrite Z.land_ones by lia. reflexivity. Qed.

Lemma to_uint_small v : 0 <= v < 2 ^ 32 -> to_uint v = v.
Proof. intros H. unfold to_uint. apply Z.mod_small. exact H. Qed.

Lemma testbit_low32 a m :
  0 <= m -> Z.testbit (Z.land a (Z.ones 32)) m = Z.testbit a m && (m <? 32).
Proof.
  intros Hm. rewrite Z.land_spec, Z.testbit_ones_nonneg by lia.
  reflexivity.
Qed.

Lemma half_set_low w v :
  Z.land (Z.lor (Z.shiftl (Z.land (Z.shiftr w 32) (Z.ones 32)) 32)
            (Z.land v (Z.ones 32))) (Z.ones 32)
  = Z.land v (Z.ones 32).
Proof.
  apply Z.bits_inj'; intros m Hm.
  rewrite (testbit_low32 _ m), Z.lor_spec, Z.shiftl_spec,
    (testbit_low32 v m) by lia.
  destruct (Z.ltb_spec m 32).
  - rewrite (Z.testbit_neg_r _ (m - 32)) by lia.
    rewrite !andb_true_r. reflexivity.
  - rewrite !andb_false_r. reflexivity.
Qed.

Lemma half_set_high w v :
  Z.land (Z.shiftr (Z.lor (Z.shiftl (Z.land v (Z.ones 32)) 32)
                      (Z.land w (Z.ones 32))) 32) (Z.ones 32)
  = Z.land v (Z.ones 32).
Proof.
  apply Z.bits_inj'; intros m Hm.
  rewrite (testbit_low32 _ m), Z.shiftr_spec, Z.lor_spec, Z.shiftl_spec,
    (testbit_low32 w (m + 32)), (testbit_low32 v m) by lia.
  replace (m + 32 - 32) with m by lia.
  rewrite (testbit_low32 v m) by lia.
  destruct (Z.ltb_spec m 32), (Z.ltb_spec (m + 32) 32); try lia;
    rewrite ?andb_true_r, ?andb_false_r, ?orb_false_r; reflexivity.
Qed.

Lemma half_keep_high w v :
  Z.land (Z.shiftr (Z.lor (Z.shiftl (Z.land (Z.shiftr w 32) (Z.ones 32)) 32)
                      (Z.land v (Z.ones 32))) 32) (Z.ones 32)
  = Z.land (Z.shiftr w 32) (Z.ones 32).
Proof.
  apply Z.bits_inj'; intros m Hm.
  rewrite (testbit_low32 _ m), Z.shiftr_spec, Z.lor_spec, Z.shiftl_spec,
    (testbit_low32 v (m + 32)) by lia.
  replace (m + 32 - 32) with m by lia.
  rewrite (testbit_low32 (Z.shiftr w 32) m) by lia.
  destruct (Z.ltb_spec m 32), (Z.ltb_spec (m + 32) 32); try lia;
    rewrite ?andb_true_r, ?andb_false_r, ?orb_false_r; reflexivity.
Qed.

Lemma half_keep_low w v :
  Z.land (Z.lor (Z.shiftl (Z.land v (Z.ones 32)) 32)
            (Z.land w (Z.ones 32))) (Z.ones 32)
  = Z.land w (Z.ones 32).
Proof.
  apply Z.bits_inj'; intros m Hm.
  rewrite (testbit_low32 _ m), Z.lor_spec, Z.shiftl_spec,
    (testbit_low32 w m) by lia.
  destruct (Z.ltb_spec m 32).
  - rewrite (Z.testbit_neg_r _ (m - 32)) by lia.
    rewrite !andb_true_r. reflexivity.
  - rewrite !andb_false_r. reflexivity.
Qed.

Lemma half_set_half_same w k v :
  k = 0 \/ k = 1 -> half (set_half w k v) k = to_uint v.
Proof.
  intros [-> | ->]; unfold half, set_half; simpl; rewrite to_uint_land.
  - apply half_set_low.
  - apply half_set_high.
Qed.

Lemma half_set_half_other w k k' v :
  k = 0 \/ k = 1 -> k' = 0 \/ k' = 1 -> k' <> k ->
  half (set_half w k v) k' = half w k'.
Proof.
  intros [-> | ->] [-> | ->] Hne; try lia; unfold half, set_half; simpl;
    rewrite to_uint_land.
  - apply half_keep_high.
  - apply half_keep_low.
Qed.

Lemma child_bit_range id n i : child_bit id n i = 0 \/ child_bit id n i = 1.
Proof.
  unfold child_bit. set (s := Z.shiftr id (n - i - 1)).
  change (Z.land s 1) with (Z.land s (Z.ones 1)).
  rewrite Z.land_ones by lia.
  pose proof (Z.mod_pos_bound s (2 ^ 1) ltac:(lia)).
  change (2 ^ 1) with 2 in *. lia.
Qed.

Lemma prefix_step id n i :
  0 <= i < n ->
  prefix id n (i + 1) = 2 * prefix id n i + child_bit id n i.
Proof.
  intros Hi. unfold prefix, child_bit.
  replace (n - (i + 1)) with (n - i - 1) by lia.
  assert (E : Z.shiftr id (n - i) = Z.shiftr (Z.shiftr id (n - i - 1)) 1).
  { rewrite Z.shiftr_shiftr by lia. f_equal. lia. }
  rewrite E. set (s := Z.shiftr id (n - i - 1)).
  change (Z.land s 1) with (Z.land s (Z.ones 1)).
  rewrite Z.land_ones by lia.
  rewrite Z.shiftr_div_pow2 by lia. change (2 ^ 1) with 2.
  apply Z.div_mod. lia.
Qed.

Lemma prefix_root id n : 0 <= id < 2 ^ n -> prefix id n 0 = 0.
Proof.
  intros Hid. unfold prefix. rewrite Z.sub_0_r.
  destruct (Z.le_gt_cases 0 n) as [Hn|Hn].
  - rewrite Z.shiftr_div_pow2 by lia. apply Z.div_small. exact Hid.
  - rewrite Z.pow_neg_r in Hid by lia. lia.
Qed.

Lemma prefix_leaf id n : prefix id n n = id.
Proof. unfold prefix. rewrite Z.sub_diag. apply Z.shiftr_0_r. Qed.
End TrieWords.

Section TrieGrowth.
Import Mach Trie TrieSpec.

Lemma grows_refl n id lts dep pre t :
  grows n id lts lts dep pre dep pre t t.
Proof.
  split.
  - reflexivity.
  - lia.
  - intros y Hy. auto.
  - intros y w Hy Hw. exists w. split; [exact Hw|]. split; auto.
  - intros y Hy. lia.
Qed.

Lemma grows_trans n id l0 l1 l2 d0 p0 d1 p1 d2 p2 t0 t1 t2 :
  0 <= l0 -> l1 < Z.of_nat (length t1) ->
  grows n id l0 l1 d0 p0 d1 p1 t0 t1 ->
  grows n id l1 l2 d1 p1 d2 p2 t1 t2 ->
  grows n id l0 l2 d0 p0 d2 p2 t0 t2.
Proof.
  intros H0 Hl1 [Gl1 Gs1 Glab1 Gold1 Gnew1] [Gl2 Gs2 Glab2 Gold2 Gnew2].
  split.
  - congruence.
  - lia.
  - intros y Hy. destruct (Glab1 y Hy) as [E1 E2].
    destruct (Glab2 y ltac:(lia)) as [E3 E4]. split; congruence.
  - intros y w Hy Hw.
    destruct (Gold1 y w Hy Hw) as (w1 & Hw1 & Hin1 & Hout1).
    destruct (Gold2 y w1 ltac:(lia) Hw1) as (w2 & Hw2 & Hin2 & Hout2).
    destruct (Glab1 y Hy) as [Hd Hp].
    exists w2. split; [exact Hw2|]. split.
    + intros Hdep k Hk.
      specialize (Hin1 Hdep k Hk). rewrite Hd in Hin2.
      specialize (Hin2 Hdep k Hk). lia.
    + intros Hdep. specialize (Hout1 Hdep). rewrite Hd, Hp in Hout2.
      specialize (Hout2 Hdep).
      destruct Hout2 as [->|H2]; [exact Hout1|right; exact H2].
  - intros y Hy. destruct (Z.le_gt_cases y l1) as [Hle|Hgt].
    + destruct (Gnew1 y ltac:(lia)) as (Hp & Hd & Hh).
      destruct (Glab2 y ltac:(lia)) as [Hd2 Hp2].
      rewrite Hd2, Hp2. split; [exact Hp|]. split; [exact Hd|].
      intros w2 k Hw2 Hdn Hk Hnz.
      destruct (rd_is_Some t1 y ltac:(lia)) as [w1 Hw1].
      destruct (Gold2 y w1 ltac:(lia) Hw1) as (w2' & Hw2' & Hin2 & _).
      assert (w2' = w2) as -> by congruence.
      destruct (Hin2 ltac:(lia) k Hk) as [He|[Hz Hf]].
      * rewrite He in *. specialize (Hh w1 k Hw1 Hdn Hk Hnz). lia.
      * lia.
    + destruct (Gnew2 y ltac:(lia)) as (Hp & Hd & Hh).
      split; [exact Hp|]. split; [exact Hd|].
      intros w2 k Hw2 Hdn Hk Hnz.
      specialize (Hh w2 k Hw2 Hdn Hk Hnz). lia.
Qed.

Lemma upd_same f c v : upd f c v c = v.
Proof. unfold upd. rewrite Z.eqb_refl. reflexivity. Qed.

Lemma upd_other f c v y : y <> c -> upd f c v y = f y.
Proof. unfold upd. intros H. destruct (Z.eqb_spec y c); [lia|reflexivity]. Qed.

(** Linking the fresh node [lts + 1] below the node [x]. *)
Lemma wf_link n id lts dep pre t x w i t1 :
  wf n lts dep pre t ->
  0 <= x <= lts -> rd t x = Some w ->
  dep x = i -> 0 <= i < n -> pre x = prefix id n i ->
  half w (child_bit id n i) = 0 ->
  lts + 1 < Z.of_nat (length t) -> lts + 1 < 2 ^ 32 ->
  wr t x (set_half w (child_bit id n i) (lts + 1)) = Some t1 ->
  wf n (lts + 1) (upd dep (lts + 1) (i + 1))
    (upd pre (lts + 1) (prefix id n (i + 1))) t1.
Proof.
  intros [Hsz [Hr1 Hr2] Hfr Hch] Hx Hw Hd Hi Hp Hz Hcap H32 Hwr.
  pose proof (wr_length _ _ _ _ Hwr) as Hlen.
  pose proof (child_bit_range id n i) as Hk.
  assert (Hc : rd t1 (lts + 1) = Some 0).
  { rewrite (rd_wr_other _ _ _ _ _ Hwr) by lia. apply Hfr. lia. }
  split.
  - lia.
  - rewrite !upd_other by lia. auto.
  - intros y Hy. rewrite (rd_wr_other _ _ _ _ _ Hwr) by lia.
    apply Hfr. lia.
  - intros y wy k Hy Hwy Hdy Hk' Hnz.
    destruct (Z.eq_dec y (lts + 1)) as [->|Hyc].
    { rewrite Hc in Hwy. injection Hwy as <-. rewrite half_0 in Hnz. lia. }
    rewrite (upd_other _ _ _ y) in * by lia.
    rewrite (upd_other pre _ _ y) by lia.
    destruct (Z.eq_dec y x) as [->|Hyx].
    + rewrite (rd_wr_same _ _ _ _ Hwr) in Hwy. injection Hwy as <-.
      destruct (Z.eq_dec k (child_bit id n i)) as [->|Hkk].
      * rewrite half_set_half_same by exact Hk.
        rewrite to_uint_small by lia.
        rewrite !upd_same. split; [lia|]. split; [lia|].
        rewrite prefix_step by lia. lia.
      * rewrite half_set_half_other in * by auto.
        destruct (Hch x w k Hx Hw ltac:(lia) Hk' Hnz) as (Hle & Hd' & Hp').
        pose proof (half_range w k).
        rewrite !upd_other by lia. split; [lia|]. auto.
    + rewrite (rd_wr_other _ _ _ _ _ Hwr) in Hwy by lia.
      destruct (Hch y wy k ltac:(lia) Hwy Hdy Hk' Hnz) as (Hle & Hd' & Hp').
      pose proof (half_range wy k).
      rewrite !upd_other by lia. split; [lia|]. auto.
Qed.

Lemma grows_link n id lts dep pre t x w i t1 :
  wf n lts dep pre t ->
  0 <= x <= lts -> rd t x = Some w ->
  dep x = i -> 0 <= i < n ->
  half w (child_bit id n i) = 0 ->
  lts + 1 < Z.of_nat (length t) -> lts + 1 < 2 ^ 32 ->
  wr t x (set_half w (child_bit id n i) (lts + 1)) = Some t1 ->
  grows n id lts (lts + 1) dep pre (upd dep (lts + 1) (i + 1))
    (upd pre (lts + 1) (prefix id n (i + 1))) t t1.
Proof.
  intros [Hsz _ Hfr _] Hx Hw Hd Hi Hz Hcap H32 Hwr.
  pose proof (child_bit_range id n i) as Hk.
  split.
  - eapply wr_length; eauto.
  - lia.
  - intros y Hy. rewrite !upd_other by lia. auto.
  - intros y wy Hy Hwy. destruct (Z.eq_dec y x) as [->|Hyx].
    + assert (wy = w) as -> by congruence.
      exists (set_half w (child_bit id n i) (lts + 1)).
      split; [eapply rd_wr_same; eauto|]. split; [|lia].
      intros _ k Hk'.
      destruct (Z.eq_dec k (child_bit id n i)) as [->|Hkk].
      * right. rewrite half_set_half_same by exact Hk.
        rewrite to_uint_small by lia. lia.
      * left. apply half_set_half_other; auto.
    + exists wy. split.
      * rewrite (rd_wr_other _ _ _ _ _ Hwr) by lia. exact Hwy.
      * split; auto.
  - intros y Hy. assert (y = lts + 1) as -> by lia.
    rewrite !upd_same. split; [reflexivity|]. split; [lia|].
    intros w' k Hw' _ _ Hnz.
    rewrite (rd_wr_other _ _ _ _ _ Hwr) in Hw' by lia.
    rewrite Hfr in Hw' by lia. injection Hw' as <-.
    rewrite half_0 in Hnz. lia.
Qed.

(** Writing the value word of a leaf. *)
Lemma wf_leaf n ts dep pre t x v t' :
  wf n ts dep pre t -> 0 <= x <= ts -> dep x = n ->
  wr t x v = Some t' -> wf n ts dep pre t'.
Proof.
  intros [Hsz Hr Hfr Hch] Hx Hd Hwr.
  pose proof (wr_length _ _ _ _ Hwr) as Hlen.
  split.
  - lia.
  - exact Hr.
  - intros y Hy. rewrite (rd_wr_other _ _ _ _ _ Hwr) by lia.
    apply Hfr. lia.
  - intros y wy k Hy Hwy Hdy Hk Hnz.
    assert (Hyx : y <> x) by (intros ->; lia).
    rewrite (rd_wr_other _ _ _ _ _ Hwr) in Hwy by exact Hyx.
    eapply Hch; eauto.
Qed.

Lemma grows_leaf n id ts dep pre t x v t' :
  0 <= x <= ts -> dep x = n -> pre x = id ->
  wr t x v = Some t' ->
  grows n id ts ts dep pre dep pre t t'.
Proof.
  intros Hx Hd Hp Hwr. split.
  - eapply wr_length; eauto.
  - lia.
  - auto.
  - intros y wy Hy Hwy. destruct (Z.eq_dec y x) as [->|Hyx].
    + exists v. split; [eapply rd_wr_same; eauto|]. split; [lia|].
      intros _. right. auto.
    + exists wy. split.
      * rewrite (rd_wr_other _ _ _ _ _ Hwr) by lia. exact Hwy.
      * split; auto.
  - intros y Hy. lia.
Qed.
End TrieGrowth.

Section SetCountSteps.
Import Mach Dbl Trie TrieSpec.

Lemma add_one_small cell :
  0 <= cell < 2 ^ 32 ->
  wrap64 (1 + cell) = cell + 1 /\
  to_ulong (wrap64 (cell + 1)) = cell + 1.
Proof.
  intros H. unfold to_ulong.
  assert (H63 : (2:Z) ^ 32 < 2 ^ 63) by (apply Z.pow_lt_mono_r; lia).
  rewrite (Z.add_comm 1 cell), wrap64_small by lia.
  split; [reflexivity|]. apply Z.mod_small.
  assert ((2:Z) ^ 63 < 2 ^ 64) by (apply Z.pow_lt_mono_r; lia). lia.
Qed.

(** An iteration that follows an existing child. *)
Lemma setCount_loop_follow id n fuel i t ts x w :
  rd t x = Some w ->
  half w (child_bit id n i) <> 0 ->
  setCount_loop id n (S fuel) i t ts x 0
  = setCount_loop id n fuel (i + 1) t ts (half w (child_bit id n i)) 0.
Proof.
  intros Hw Hnz. simpl. rewrite Hw. simpl.
  destruct (Z.eqb_spec (half w (child_bit id n i)) 0) as [?|_]; [lia|].
  simpl. rewrite Hw. simpl.
  destruct (Z.eqb_spec (half w (child_bit id n i)) 0) as [?|_]; [lia|].
  reflexivity.
Qed.

(** An iteration that finds the child index 0 and links the node
    [lts + 1]: either it allocates the node ([val = 0]) or the node was
    allocated by the iteration before ([val = lts + 1]). *)
Lemma setCount_loop_link id n fuel i t ts lts x val w t1 :
  rd t x = Some w ->
  half w (child_bit id n i) = 0 ->
  (val = 0 /\ ts = lts) \/ (val = ts /\ ts = lts + 1) ->
  0 <= lts -> lts + 2 < 2 ^ 32 ->
  wr t x (set_half w (child_bit id n i) (lts + 1)) = Some t1 ->
  setCount_loop id n (S fuel) i t ts x val
  = setCount_loop id n fuel (i + 1) t1
      (if i <? n - 1 then lts + 2 else lts + 1) (lts + 1)
      (if i <? n - 1 then lts + 2 else lts + 1).
Proof.
  intros Hw Hz Hval Hl H32 Hwr.
  pose proof (child_bit_range id n i) as Hk.
  simpl. rewrite Hw. simpl. rewrite Hz. simpl.
  assert (Hfirst :
    (if (val =? 0) && true
     then (wrap64 (1 + ts), to_ulong (wrap64 (ts + 1)))
     else (ts, val)) = (lts + 1, lts + 1)).
  { destruct Hval as [[-> ->]|[-> ->]].
    - change (0 =? 0) with true. cbn [andb].
      destruct (add_one_small lts ltac:(lia)) as [-> ->].
      reflexivity.
    - destruct (Z.eqb_spec (lts + 1) 0); [lia|]. reflexivity. }
  rewrite Hfirst. rewrite Hwr. simpl.
  rewrite (rd_wr_same _ _ _ _ Hwr). simpl.
  rewrite half_set_half_same by exact Hk.
  rewrite to_uint_small by lia. rewrite Z.eqb_refl. simpl.
  destruct (i <? n - 1).
  - destruct (add_one_small (lts + 1) ltac:(lia)) as [-> ->].
    replace (lts + 1 + 1) with (lts + 2) by lia. reflexivity.
  - reflexivity.
Qed.
End SetCountSteps.

Section SetCountLoop.
Import Mach Dbl Trie TrieSpec.

(** The loop of [setCount] from depth [i] at the node [x] of a
    well-formed trie whose linked nodes are [0 .. lts]. *)
Lemma setCount_loop_spec n id :
  forall fuel i t ts lts x val dep pre,
    Z.of_nat fuel = n - i -> 0 <= i ->
    wf n lts dep pre t ->
    0 <= x <= lts -> dep x = i -> pre x = prefix id n i ->
    (val = 0 /\ ts = lts) \/
    (val = ts /\ ts = lts + 1 /\ rd t x = Some 0 /\ i < n) \/
    (i = n /\ ts = lts) ->
    lts + (n - i) < Z.of_nat (length t) ->
    lts + (n - i) + 1 < 2 ^ 32 ->
    exists t' ts' x' dep' pre',
      setCount_loop id n fuel i t ts x val = Some (t', ts', x') /\
      wf n ts' dep' pre' t' /\
      ts' <= lts + (n - i) /\
      0 <= x' <= ts' /\ dep' x' = n /\ pre' x' = id /\
      grows n id lts ts' dep pre dep' pre' t t' /\
      (forall y, 0 <= y <= lts -> dep y < i -> rd t' y = rd t y) /\
      (forall t'',
         (forall y, 0 <= y <= ts' -> 0 <= dep' y < n -> rd t'' y = rd t' y) ->
         getCount_loop t'' id n fuel i x
         = (w ← rd t'' x'; Some (longlong_as_double w))).
Proof.
  induction fuel as [|fuel IH];
    intros i t ts lts x val dep pre Hf Hi Hwf Hx Hd Hp Hval Hcap H32.
  - assert (i = n) as -> by lia.
    assert (ts = lts) as -> by lia.
    exists t, lts, x, dep, pre. simpl. split; [reflexivity|].
    split; [exact Hwf|]. split; [lia|]. split; [exact Hx|].
    split; [exact Hd|]. split; [rewrite Hp; apply prefix_leaf|].
    split; [apply grows_refl|]. split; [reflexivity|]. reflexivity.
  - assert (Hin : i < n) by lia.
    pose proof (wf_size _ _ _ _ _ Hwf) as Hsz.
    destruct (rd_is_Some t x ltac:(lia)) as [w Hw].
    pose proof (child_bit_range id n i) as Hk.
    pose proof (half_range w (child_bit id n i)) as Hhr.
    destruct (Z.eq_dec (half w (child_bit id n i)) 0) as [Hz|Hnz].
    + (* link the node lts + 1 *)
      assert (Hval' : (val = 0 /\ ts = lts) \/ (val = ts /\ ts = lts + 1))
        by lia.
      pose proof (wr_is_Some t x
                    (set_half w (child_bit id n i) (lts + 1)) ltac:(lia))
        as Hwr.
      set (t1 := <[Z.to_nat x := _]> t) in Hwr.
      rewrite (setCount_loop_link id n fuel i t ts lts x val w t1
                 Hw Hz Hval' ltac:(lia) ltac:(lia) Hwr).
      pose proof (wf_link n id lts dep pre t x w i t1 Hwf Hx Hw Hd
                    ltac:(lia) Hp Hz ltac:(lia) ltac:(lia) Hwr) as Hwf1.
      pose proof (grows_link n id lts dep pre t x w i t1 Hwf Hx Hw Hd
                    ltac:(lia) Hz ltac:(lia) ltac:(lia) Hwr) as Hg1.
      pose proof (wr_length _ _ _ _ Hwr) as Hlen1.
      assert (Hc0 : rd t1 (lts + 1) = Some 0).
      { rewrite (rd_wr_other _ _ _ _ _ Hwr) by lia.
        apply (wf_fresh _ _ _ _ _ Hwf). lia. }
      destruct (IH (i + 1) t1 (if i <? n - 1 then lts + 2 else lts + 1)
                  (lts + 1) (lts + 1)
                  (if i <? n - 1 then lts + 2 else lts + 1)
                  (upd dep (lts + 1) (i + 1))
                  (upd pre (lts + 1) (prefix id n (i + 1))))
        as (t' & ts' & x' & dep' & pre' & Hrun & Hwf' & Hts' & Hx' & Hdx'
            & Hpx' & Hg' & Hfr' & Hget').
      { lia. } { lia. } { exact Hwf1. } { lia. }
      { apply upd_same. } { apply upd_same. }
      { destruct (Z.ltb_spec i (n - 1)).
        - right. left. repeat split; try lia. exact Hc0.
        - right. right. lia. }
      { lia. } { lia. }
      exists t', ts', x', dep', pre'.
      split; [exact Hrun|]. split; [exact Hwf'|]. split; [lia|].
      split; [exact Hx'|]. split; [exact Hdx'|]. split; [exact Hpx'|].
      split; [|split].
      * eapply grows_trans; [lia| |exact Hg1|exact Hg']. lia.
      * intros y Hy Hdy.
        rewrite Hfr' by (rewrite ?upd_other by lia; lia).
        apply (rd_wr_other _ _ _ _ _ Hwr). intros ->. lia.
      * intros t'' Hagree. simpl.
        assert (Hx1 : rd t1 x = Some (set_half w (child_bit id n i) (lts + 1)))
          by (eapply rd_wr_same; eauto).
        assert (Hxt' : rd t' x = rd t1 x).
        { apply Hfr'; [lia|]. rewrite upd_other by lia. lia. }
        assert (Hxt'' : rd t'' x = rd t' x).
        { pose proof (g_size _ _ _ _ _ _ _ _ _ _ Hg') as Hs'.
          apply Hagree; [lia|].
          destruct (g_lab _ _ _ _ _ _ _ _ _ _ Hg' x ltac:(lia)) as [-> _].
          rewrite upd_other by lia. lia. }
        rewrite Hxt'', Hxt', Hx1. simpl.
        rewrite half_set_half_same by exact Hk.
        rewrite to_uint_small by lia.
        destruct (Z.eqb_spec (lts + 1) 0); [lia|].
        apply Hget'. exact Hagree.
    + (* follow the existing child *)
      assert (Hv0 : val = 0 /\ ts = lts).
      { destruct Hval as [H|[(_ & _ & H0 & _)|[? _]]]; [exact H| |lia].
        rewrite Hw in H0. injection H0 as ->.
        rewrite half_0 in Hnz. lia. }
      destruct Hv0 as [-> ->].
      rewrite (setCount_loop_follow id n fuel i t lts x w Hw Hnz).
      destruct (wf_child _ _ _ _ _ Hwf x w (child_bit id n i) Hx Hw
                  ltac:(lia) Hk Hnz) as (Hle & Hdc & Hpc).
      destruct (IH (i + 1) t lts lts (half w (child_bit id n i)) 0 dep pre)
        as (t' & ts' & x' & dep' & pre' & Hrun & Hwf' & Hts' & Hx' & Hdx'
            & Hpx' & Hg' & Hfr' & Hget').
      { lia. } { lia. } { exact Hwf. } { lia. } { lia. }
      { rewrite Hpc, Hp. symmetry. apply prefix_step. lia. }
      { left. auto. } { lia. } { lia. }
      exists t', ts', x', dep', pre'.
      split; [exact Hrun|]. split; [exact Hwf'|]. split; [lia|].
      split; [exact Hx'|]. split; [exact Hdx'|]. split; [exact Hpx'|].
      split; [exact Hg'|]. split.
      * intros y Hy Hdy. apply Hfr'; lia.
      * intros t'' Hagree. simpl.
        assert (Hxt' : rd t' x = rd t x) by (apply Hfr'; lia).
        assert (Hxt'' : rd t'' x = rd t' x).
        { pose proof (g_size _ _ _ _ _ _ _ _ _ _ Hg') as Hs'.
          apply Hagree; [lia|].
          destruct (g_lab _ _ _ _ _ _ _ _ _ _ Hg' x ltac:(lia)) as [-> _].
          lia. }
        rewrite Hxt'', Hxt', Hw. simpl.
        destruct (Z.eqb_spec (half w (child_bit id n i)) 0); [lia|].
        apply Hget'. exact Hagree.
Qed.
End SetCountLoop.

Section GetCountFacts.
Import Mach Dbl Trie TrieSpec.

(** [getCount] of another assignment does not see what [setCount id]
    changed: from an old node it finds the old answer, and a new node lies
    on the path of [id], which the other assignment leaves through a child
    index that is still 0. *)
Lemma getCount_loop_other n id id' t t'' lts ts' dep pre dep' pre' :
  wf n lts dep pre t -> wf n ts' dep' pre' t'' ->
  grows n id lts ts' dep pre dep' pre' t t'' ->
  id' <> id ->
  forall fuel i,
    Z.of_nat fuel = n - i -> 0 <= i ->
    (forall y, 0 <= y <= lts -> dep y = i -> pre y = prefix id' n i ->
       getCount_loop t'' id' n fuel i y = getCount_loop t id' n fuel i y) /\
    (forall y, lts < y <= ts' -> dep' y = i -> pre' y = prefix id' n i ->
       getCount_loop t'' id' n fuel i y = Some 0%float).
Proof.
  intros Hwf Hwf' Hg Hne.
  pose proof (wf_size _ _ _ _ _ Hwf) as Hsz.
  pose proof (wf_size _ _ _ _ _ Hwf') as Hsz'.
  pose proof (g_size _ _ _ _ _ _ _ _ _ _ Hg) as Hgs.
  induction fuel as [|fuel IH]; intros i Hf Hi.
  - assert (i = n) as -> by lia. split.
    + intros y Hy Hd Hp. simpl.
      destruct (rd_is_Some t y ltac:(lia)) as [w Hw].
      destruct (g_old _ _ _ _ _ _ _ _ _ _ Hg y w Hy Hw)
        as (w' & Hw' & _ & Hout).
      rewrite Hw, Hw'. simpl.
      destruct (Hout ltac:(lia)) as [->|[_ Hpid]]; [reflexivity|].
      rewrite Hp, prefix_leaf in Hpid. contradiction.
    + intros y Hy Hd Hp. exfalso.
      destruct (g_new _ _ _ _ _ _ _ _ _ _ Hg y Hy) as (Hpy & _ & _).
      rewrite Hd, prefix_leaf in Hpy. rewrite Hp, prefix_leaf in Hpy.
      contradiction.
  - assert (Hin : i < n) by lia.
    destruct (IH (i + 1) ltac:(lia) ltac:(lia)) as [IHa IHb].
    pose proof (child_bit_range id' n i) as Hk.
    split.
    + intros y Hy Hd Hp. simpl.
      destruct (rd_is_Some t y ltac:(lia)) as [w Hw].
      destruct (g_old _ _ _ _ _ _ _ _ _ _ Hg y w Hy Hw)
        as (w' & Hw' & Hint & _).
      destruct (g_lab _ _ _ _ _ _ _ _ _ _ Hg y Hy) as [Hd' Hp'].
      rewrite Hw, Hw'. simpl.
      pose proof (half_range w (child_bit id' n i)) as Hr.
      pose proof (half_range w' (child_bit id' n i)) as Hr'.
      destruct (Hint ltac:(lia) (child_bit id' n i) Hk) as [He|[Hz Hfresh]].
      * rewrite He.
        destruct (Z.eqb_spec (half w (child_bit id' n i)) 0) as [|Hnz];
          [reflexivity|].
        destruct (wf_child _ _ _ _ _ Hwf y w (child_bit id' n i) Hy Hw
                    ltac:(lia) Hk Hnz) as (Hle & Hdc & Hpc).
        apply IHa; [lia|lia|].
        rewrite Hpc, Hp. symmetry. apply prefix_step. lia.
      * rewrite Hz. simpl.
        destruct (Z.eqb_spec (half w' (child_bit id' n i)) 0) as [|Hnz];
          [lia|].
        destruct (wf_child _ _ _ _ _ Hwf' y w' (child_bit id' n i)
                    ltac:(lia) Hw' ltac:(lia) Hk Hnz) as (Hle & Hdc & Hpc).
        apply IHb; [lia|lia|].
        rewrite Hpc, Hp', Hp. symmetry. apply prefix_step. lia.
    + intros y Hy Hd Hp. simpl.
      destruct (rd_is_Some t'' y ltac:(lia)) as [w' Hw'].
      rewrite Hw'. simpl.
      pose proof (half_range w' (child_bit id' n i)) as Hr'.
      destruct (Z.eqb_spec (half w' (child_bit id' n i)) 0) as [|Hnz];
        [reflexivity|].
      destruct (g_new _ _ _ _ _ _ _ _ _ _ Hg y Hy) as (_ & _ & Hh).
      specialize (Hh w' (child_bit id' n i) Hw' ltac:(lia) Hk Hnz).
      destruct (wf_child _ _ _ _ _ Hwf' y w' (child_bit id' n i)
                  ltac:(lia) Hw' ltac:(lia) Hk Hnz) as (Hle & Hdc & Hpc).
      apply IHb; [lia|lia|].
      rewrite Hpc, Hp. symmetry. apply prefix_step. lia.
Qed.

Lemma wf_more n ts ts2 dep pre t :
  wf n ts dep pre t -> ts <= ts2 < Z.of_nat (length t) ->
  wf n ts2 dep pre t.
Proof.
  intros [Hsz Hr Hfr Hch] H2. split.
  - lia.
  - exact Hr.
  - intros y Hy. apply Hfr. lia.
  - intros y w k Hy Hw Hd Hk Hnz.
    destruct (Z.le_gt_cases y ts) as [Hle|Hgt].
    + destruct (Hch y w k ltac:(lia) Hw Hd Hk Hnz) as (? & ? & ?).
      split; [lia|]. auto.
    + rewrite Hfr in Hw by lia. injection Hw as <-.
      rewrite half_0 in Hnz. lia.
Qed.

(** The path of [getCount] from the root. *)
Lemma getCount_node_at t id n : forall (k : nat) x,
  (k <= Z.to_nat n)%nat ->
  node_at t id n k = Some x ->
  getCount id t n = getCount_loop t id n (Z.to_nat n - k) (Z.of_nat k) x.
Proof.
  induction k as [|k IH]; intros x Hk Hnode.
  - simpl in Hnode. injection Hnode as <-. unfold getCount.
    rewrite Nat.sub_0_r. reflexivity.
  - simpl in Hnode.
    destruct (node_at t id n k) as [x0|] eqn:Hx0; [|discriminate].
    simpl in Hnode.
    destruct (rd t x0) as [w0|] eqn:Hw0; [|discriminate]. simpl in Hnode.
    destruct (Z.eqb_spec (half w0 (child_bit id n (Z.of_nat k))) 0)
      as [|Hnz]; [discriminate|].
    injection Hnode as <-.
    rewrite (IH x0 ltac:(lia) eq_refl).
    replace (Z.to_nat n - k)%nat with (S (Z.to_nat n - S k)) by lia.
    simpl. rewrite Hw0. simpl.
    destruct (Z.eqb_spec (half w0 (child_bit id n (Z.of_nat k))) 0);
      [contradiction|].
    replace (Z.of_nat k + 1) with (Z.pos (Pos.of_succ_nat k)) by lia.
    reflexivity.
Qed.
End GetCountFacts.

Section SetCountFacts.
Import Mach Dbl Trie TrieSpec.

Lemma setCount_body n id t lts dep pre v :
  wf n lts dep pre t -> 0 <= n -> 0 <= id < 2 ^ n ->
  lts + n < Z.of_nat (length t) -> lts + n + 1 < 2 ^ 32 ->
  exists t'' ts' dep' pre',
    ('(tree1, treeSize1, nextId) ←
       setCount_loop id n (Z.to_nat n) 0 t lts 0 0;
     tree2 ← wr tree1 nextId (double_as_longlong v);
     Some (tree2, treeSize1)) = Some (t'', ts') /\
    wf n ts' dep' pre' t'' /\
    lts <= ts' <= lts + n /\
    grows n id lts ts' dep pre dep' pre' t t'' /\
    getCount id t'' n = Some v.
Proof.
  intros Hwf Hn Hid Hcap H32.
  pose proof (wf_size _ _ _ _ _ Hwf) as Hsz.
  destruct (wf_root _ _ _ _ _ Hwf) as [Hd0 Hp0].
  destruct (setCount_loop_spec n id (Z.to_nat n) 0 t lts lts 0 0 dep pre)
    as (t' & ts' & x' & dep' & pre' & Hrun & Hwf' & Hts' & Hx' & Hdx'
        & Hpx' & Hg' & _ & Hget').
  { lia. } { lia. } { exact Hwf. } { lia. } { exact Hd0. }
  { rewrite Hp0. symmetry. apply prefix_root. exact Hid. }
  { left. auto. } { lia. } { lia. }
  pose proof (wf_size _ _ _ _ _ Hwf') as Hsz'.
  pose proof (g_size _ _ _ _ _ _ _ _ _ _ Hg') as Hgs.
  pose proof (wr_is_Some t' x' (double_as_longlong v) ltac:(lia)) as Hwr.
  set (t'' := <[Z.to_nat x' := _]> t') in Hwr.
  exists t'', ts', dep', pre'. rewrite Hrun. simpl. rewrite Hwr. simpl.
  split; [reflexivity|]. split; [eapply wf_leaf; eauto|].
  split; [lia|]. split.
  - eapply grows_trans; [lia| |exact Hg'|]; [lia|].
    eapply grows_leaf; eauto.
  - unfold getCount. rewrite Hget'.
    + rewrite (rd_wr_same _ _ _ _ Hwr). simpl.
      rewrite longlong_as_double_as_longlong. reflexivity.
    + intros y Hy Hdy. apply (rd_wr_other _ _ _ _ _ Hwr).
      intros ->. lia.
Qed.

(** [setCount] on a well-formed trie with room for [n] more nodes. *)
Lemma setCount_spec n ts t id v :
  trie n ts t -> 0 <= n -> 0 <= id < 2 ^ n ->
  ts + Z.max n 1 < Z.of_nat (length t) -> ts + n + 2 < 2 ^ 32 ->
  exists t' ts',
    setCount id t n ts v = Some (t', ts') /\
    getCount id t' n = Some v /\
    trie n ts' t' /\
    ts <= ts' <= ts + Z.max n 1 /\
    length t' = length t /\
    (forall id', 0 <= id' < 2 ^ n -> id' <> id ->
       getCount id' t' n = getCount id' t n).
Proof.
  intros (dep & pre & Hwf) Hn Hid Hcap H32. unfold setCount.
  pose proof (wf_size _ _ _ _ _ Hwf) as Hsz.
  set (lts := if n =? 0 then ts + 1 else ts).
  assert (Hts0 : (if n =? 0 then (Mach.atomicAdd ts 1).1 else ts) = lts).
  { subst lts. destruct (n =? 0); [|reflexivity]. simpl.
    destruct (add_one_small ts ltac:(lia)) as [-> _]. reflexivity. }
  rewrite Hts0.
  assert (Hwfl : wf n lts dep pre t).
  { eapply wf_more; [exact Hwf|]. subst lts.
    destruct (Z.eqb_spec n 0); lia. }
  destruct (setCount_body n id t lts dep pre v Hwfl Hn Hid)
    as (t'' & ts' & dep' & pre' & Hrun & Hwf' & Hts' & Hg & Hget).
  { subst lts. destruct (Z.eqb_spec n 0); lia. }
  { subst lts. destruct (Z.eqb_spec n 0); lia. }
  exists t'', ts'. split; [exact Hrun|]. split; [exact Hget|].
  split; [exists dep', pre'; exact Hwf'|].
  split; [subst lts; destruct (Z.eqb_spec n 0); lia|].
  split; [exact (g_len _ _ _ _ _ _ _ _ _ _ Hg)|].
  intros id' Hid' Hne. unfold getCount.
  destruct (wf_root _ _ _ _ _ Hwfl) as [Hd0 Hp0].
  apply (getCount_loop_other n id id' t t'' lts ts' dep pre dep' pre'
           Hwfl Hwf' Hg Hne (Z.to_nat n) 0 ltac:(lia) ltac:(lia)).
  - pose proof (wf_size _ _ _ _ _ Hwfl). lia.
  - exact Hd0.
  - rewrite Hp0. symmetry. apply prefix_root. exact Hid'.
Qed.

(** A buffer of zeros is the empty trie. *)
Lemma trie_empty n (cap : nat) :
  (0 < cap)%nat -> trie n 0 (replicate cap 0).
Proof.
  intros Hc. exists (fun _ => 0), (fun _ => 0). split.
  - rewrite length_replicate. lia.
  - auto.
  - intros x Hx. rewrite length_replicate in Hx. unfold rd.
    destruct (Z.ltb_spec x 0); [lia|].
    apply lookup_replicate_2. lia.
  - intros x w k Hx Hw _ _ Hnz. assert (x = 0) as -> by lia.
    unfold rd in Hw. simpl in Hw. destruct cap; [lia|]. simpl in Hw.
    injection Hw as <-. rewrite half_0 in Hnz. lia.
Qed.
End SetCountFacts.

Section CountFacts.
Import Dbl TrieSpec.

Lemma fadd_0_l v : is_count v -> (0 + v)%float = v.
Proof.
  intros Hc. apply Prim2SF_inj. rewrite add_spec.
  change (Prim2SF 0) with (S754_zero false).
  destruct (Prim2SF v) as [s|s| |s m e] eqn:E; try reflexivity.
  destruct s; [|reflexivity]. exfalso. destruct Hc as [->|Hg].
  - discriminate E.
  - unfold gt0 in Hg. rewrite ltb_spec, E in Hg. discriminate Hg.
Qed.

Lemma fadd_0_r v : is_count v -> (v + 0)%float = v.
Proof.
  intros Hc. apply Prim2SF_inj. rewrite add_spec.
  change (Prim2SF 0) with (S754_zero false).
  destruct (Prim2SF v) as [s|s| |s m e] eqn:E; try reflexivity.
  destruct s; [|reflexivity]. exfalso. destruct Hc as [->|Hg].
  - discriminate E.
  - unfold gt0 in Hg. rewrite ltb_spec, E in Hg. discriminate Hg.
Qed.

Lemma gt0_zero : gt0 0 = false.
Proof. reflexivity. Qed.
End CountFacts.

Section CombineTree.
Import Mach Dbl Trie TrieSpec.

Lemma getCount_loop_total n ts dep pre t id :
  wf n ts dep pre t ->
  forall fuel i y,
    Z.of_nat fuel = n - i -> 0 <= i -> 0 <= y <= ts -> dep y = i ->
    is_Some (getCount_loop t id n fuel i y).
Proof.
  intros Hwf. pose proof (wf_size _ _ _ _ _ Hwf) as Hsz.
  induction fuel as [|fuel IH]; intros i y Hf Hi Hy Hd; simpl;
    destruct (rd_is_Some t y ltac:(lia)) as [w Hw]; rewrite Hw; simpl.
  - eexists. reflexivity.
  - pose proof (child_bit_range id n i) as Hk.
    pose proof (half_range w (child_bit id n i)) as Hr.
    destruct (Z.eqb_spec (half w (child_bit id n i)) 0) as [|Hnz].
    + eexists. reflexivity.
    + destruct (wf_child _ _ _ _ _ Hwf y w (child_bit id n i) Hy Hw
                  ltac:(lia) Hk Hnz) as (Hle & Hdc & _).
      apply IH; lia.
Qed.

Lemma getCount_total n ts t id :
  trie n ts t -> 0 <= n -> is_Some (getCount id t n).
Proof.
  intros (dep & pre & Hwf) Hn. unfold getCount.
  pose proof (wf_size _ _ _ _ _ Hwf) as Hsz.
  destruct (wf_root _ _ _ _ _ Hwf) as [Hd0 _].
  eapply getCount_loop_total; eauto; lia.
Qed.

(** The launch of [combineTree] over the workers [g .. g + threads - 1]:
    an assignment of that range with a positive count in the source gets
    that count; every other assignment keeps what the destination had. *)
Lemma combineTree_launch_spec n t2 ts2 startId id_offset :
  trie n ts2 t2 -> 0 <= n ->
  forall threads g t ts,
    trie n ts t ->
    0 <= g + id_offset + startId ->
    g + id_offset + startId + Z.of_nat threads <= 2 ^ n ->
    ts + Z.max n 1 * Z.of_nat threads < Z.of_nat (length t) ->
    ts + Z.max n 1 * Z.of_nat threads + n + 2 < 2 ^ 32 ->
    exists t' ts',
      launch_from (combineTree n t2 startId id_offset) threads g (t, ts)
      = Some (t', ts') /\
      trie n ts' t' /\
      (forall id v2, 0 <= id < 2 ^ n -> getCount id t2 n = Some v2 ->
         getCount id t' n =
           if (g + id_offset + startId <=? id)
              && (id <? g + id_offset + startId + Z.of_nat threads)
              && gt0 v2
           then Some v2 else getCount id t n).
Proof.
  intros Ht2 Hn.
  induction threads as [|k IH]; intros g t ts Ht Hlo Hhi Hcap H32.
  - exists t, ts. split; [reflexivity|]. split; [exact Ht|].
    intros id v2 Hid Hv2.
    destruct (Z.leb_spec (g + id_offset + startId) id),
             (Z.ltb_spec id (g + id_offset + startId + Z.of_nat 0));
      try reflexivity. lia.
  - rewrite Nat2Z.inj_succ, Z.mul_succ_r in Hcap, H32.
    assert (Hm : 1 <= Z.max n 1) by lia.
    assert (Hm' : 0 <= Z.max n 1 * Z.of_nat k) by lia.
    simpl. unfold combineTree at 1.
    replace (g + id_offset + startId) with (g + id_offset + startId) by lia.
    destruct (getCount_total n ts2 t2 (g + id_offset + startId) Ht2 Hn)
      as [v Hv].
    rewrite Hv. simpl.
    assert (Hstep : exists t1 ts1,
      (if gt0 v then setCount (g + id_offset + startId) t n ts v
       else Some (t, ts)) = Some (t1, ts1) /\
      trie n ts1 t1 /\ ts <= ts1 <= ts + Z.max n 1 /\
      length t1 = length t /\
      getCount (g + id_offset + startId) t1 n
      = (if gt0 v then Some v
         else getCount (g + id_offset + startId) t n) /\
      (forall id', 0 <= id' < 2 ^ n -> id' <> g + id_offset + startId ->
         getCount id' t1 n = getCount id' t n)).
    { destruct (gt0 v).
      - destruct (setCount_spec n ts t (g + id_offset + startId) v Ht Hn
                    ltac:(lia) ltac:(lia) ltac:(lia))
          as (t1 & ts1 & Hset & Hget & Ht1 & Hts1 & Hlen & Hfr).
        exists t1, ts1. auto 10.
      - exists t, ts. repeat split; auto; lia. }
    destruct Hstep as (t1 & ts1 & Hrun & Ht1 & Hts1 & Hlen1 & Hown & Hfr).
    rewrite Hrun. simpl.
    destruct (IH (g + 1) t1 ts1 Ht1 ltac:(lia) ltac:(lia) ltac:(lia)
                ltac:(lia)) as (t' & ts' & Hl & Ht' & Hres).
    exists t', ts'. split; [exact Hl|]. split; [exact Ht'|].
    intros id v2 Hid Hv2. rewrite (Hres id v2 Hid Hv2).
    destruct (Z.eq_dec id (g + id_offset + startId)) as [->|Hne].
    + assert (v2 = v) as -> by congruence.
      destruct (Z.leb_spec (g + 1 + id_offset + startId)
                  (g + id_offset + startId)); [lia|].
      destruct (Z.leb_spec (g + id_offset + startId)
                  (g + id_offset + startId)); [|lia].
      destruct (Z.ltb_spec (g + id_offset + startId)
                  (g + id_offset + startId + Z.of_nat (S k))); [|lia].
      simpl. exact Hown.
    + rewrite (Hfr id Hid Hne).
      destruct (Z.leb_spec (g + 1 + id_offset + startId) id),
               (Z.leb_spec (g + id_offset + startId) id); try lia;
      destruct (Z.ltb_spec id (g + 1 + id_offset + startId + Z.of_nat k)),
               (Z.ltb_spec id (g + id_offset + startId
                               + Z.of_nat (S k)));
        try lia; reflexivity.
Qed.

(** A source without positive counts in the range of the launch leaves the
    destination as it is. *)
Lemma combineTree_launch_zero n t2 startId id_offset :
  forall threads g t ts,
    (forall id, g + id_offset + startId <= id
                < g + id_offset + startId + Z.of_nat threads ->
       exists v, getCount id t2 n = Some v /\ gt0 v = false) ->
    launch_from (combineTree n t2 startId id_offset) threads g (t, ts)
    = Some (t, ts).
Proof.
  induction threads as [|k IH]; intros g t ts Hz; [reflexivity|].
  simpl. unfold combineTree at 1.
  destruct (Hz (g + id_offset + startId) ltac:(lia)) as (v & Hv & Hg).
  rewrite Hv. simpl. rewrite Hg. simpl.
  apply IH. intros id Hid. apply Hz. lia.
Qed.
End CombineTree.

Section TrieClaims.
Import Mach Dbl Trie TrieSpec.

(** C3.  On a well-formed trie of width [n] with room for the new nodes,
    [setCount id .. v] succeeds and a following [getCount id] returns
    exactly [v]; and [getCount] returns 0 whenever the path of [id] reaches
    a child index 0. *)
Theorem getCount_setCount :
  (forall (n ts : Z) (t : list Z) (id : Z) (v : float),
     trie n ts t -> 0 <= n -> 0 <= id < 2 ^ n ->
     ts + Z.max n 1 < Z.of_nat (length t) -> ts + n + 2 < 2 ^ 32 ->
     exists t' ts',
       setCount id t n ts v = Some (t', ts') /\
       getCount id t' n = Some v)
  /\
  (forall (t : list Z) (id n : Z) (k : nat) (x w : Z),
     (k < Z.to_nat n)%nat ->
     node_at t id n k = Some x -> rd t x = Some w ->
     half w (child_bit id n (Z.of_nat k)) = 0 ->
     getCount id t n = Some 0%float).
Proof.
  split.
  - intros n ts t id v Ht Hn Hid Hcap H32.
    destruct (setCount_spec n ts t id v Ht Hn Hid Hcap H32)
      as (t' & ts' & Hset & Hget & _).
    exists t', ts'. auto.
  - intros t id n k x w Hk Hnode Hw Hz.
    rewrite (getCount_node_at t id n k x ltac:(lia) Hnode).
    replace (Z.to_nat n - k)%nat with (S (Z.to_nat n - S k)) by lia.
    simpl. rewrite Hw. simpl. rewrite Hz. reflexivity.
Qed.

Lemma getCount_setCount_witness :
  exists t' ts',
    setCount 5 Demo.empty_trie 3 0 7%float = Some (t', ts') /\
    getCount 5 t' 3 = Some 7%float.
Proof.
  apply (proj1 getCount_setCount 3 0 Demo.empty_trie 5 7%float).
  - apply trie_empty. lia.
  - lia.
  - lia.
  - vm_compute. reflexivity.
  - vm_compute. reflexivity.
Defined.

(** C6.  Two well-formed tries of the same width hold counts, no
    assignment has a positive count in both, and the positive counts of
    the source [t2] lie in the range of the launch.  Then the launch of
    [combineTree] (workers in turn) succeeds, and in the trie it leaves
    every assignment has the sum of its two counts; when the source has no
    positive count the destination is left as it was. *)
Theorem combineTree_pointwise_sum (n : Z) (t1 : list Z) (ts1 : Z)
    (t2 : list Z) (ts2 startId id_offset : Z) (threads : nat) :
  trie n ts1 t1 -> trie n ts2 t2 -> 0 <= n ->
  0 <= id_offset + startId ->
  id_offset + startId + Z.of_nat threads <= 2 ^ n ->
  ts1 + Z.max n 1 * Z.of_nat threads < Z.of_nat (length t1) ->
  ts1 + Z.max n 1 * Z.of_nat threads + n + 2 < 2 ^ 32 ->
  (forall id v, 0 <= id < 2 ^ n -> getCount id t1 n = Some v -> is_count v) ->
  (forall id v, 0 <= id < 2 ^ n -> getCount id t2 n = Some v -> is_count v) ->
  (forall id v1 v2, 0 <= id < 2 ^ n ->
     getCount id t1 n = Some v1 -> getCount id t2 n = Some v2 ->
     gt0 v1 = true -> gt0 v2 = false) ->
  (forall id v2, 0 <= id < 2 ^ n ->
     getCount id t2 n = Some v2 -> gt0 v2 = true ->
     id_offset + startId <= id < id_offset + startId + Z.of_nat threads) ->
  exists t1' ts1',
    combineTree_launch n t2 startId id_offset threads t1 ts1
    = Some (t1', ts1') /\
    trie n ts1' t1' /\
    (forall id, 0 <= id < 2 ^ n ->
       exists v1 v2,
         getCount id t1 n = Some v1 /\ getCount id t2 n = Some v2 /\
         getCount id t1' n = Some (v1 + v2)%float) /\
    ((forall id v2, 0 <= id < 2 ^ n -> getCount id t2 n = Some v2 ->
        gt0 v2 = false) ->
     t1' = t1 /\ ts1' = ts1).
Proof.
  intros Ht1 Ht2 Hn Hlo Hhi Hcap H32 Hc1 Hc2 Hdis Hrange.
  destruct (combineTree_launch_spec n t2 ts2 startId id_offset Ht2 Hn
              threads 0 t1 ts1 Ht1 ltac:(lia) ltac:(lia) Hcap H32)
    as (t1' & ts1' & Hrun & Ht1' & Hres).
  exists t1', ts1'. unfold combineTree_launch, launch.
  split; [exact Hrun|]. split; [exact Ht1'|]. split.
  - intros id Hid.
    destruct (getCount_total n ts1 t1 id Ht1 Hn) as [v1 Hv1].
    destruct (getCount_total n ts2 t2 id Ht2 Hn) as [v2 Hv2].
    exists v1, v2. split; [exact Hv1|]. split; [exact Hv2|].
    rewrite (Hres id v2 Hid Hv2).
    destruct (gt0 v2) eqn:Hg2.
    + specialize (Hrange id v2 Hid Hv2 Hg2).
      destruct (Z.leb_spec (0 + id_offset + startId) id); [|lia].
      destruct (Z.ltb_spec id (0 + id_offset + startId + Z.of_nat threads));
        [|lia].
      simpl. f_equal.
      assert (Hz1 : v1 = 0%float).
      { destruct (Hc1 id v1 Hid Hv1) as [Hzero|Hg1]; [exact Hzero|].
        specialize (Hdis id v1 v2 Hid Hv1 Hv2 Hg1). congruence. }
      rewrite Hz1. symmetry. apply fadd_0_l. right. exact Hg2.
    + rewrite andb_false_r, Hv1. f_equal.
      assert (Hz2 : v2 = 0%float).
      { destruct (Hc2 id v2 Hid Hv2) as [Hzero|Hg];
          [exact Hzero|congruence]. }
      rewrite Hz2. symmetry. apply fadd_0_r. eapply Hc1; eauto.
  - intros Hzero.
    rewrite (combineTree_launch_zero n t2 startId id_offset threads 0 t1 ts1)
      in Hrun.
    + injection Hrun as <- <-. auto.
    + intros id Hid.
      destruct (getCount_total n ts2 t2 id Ht2 Hn) as [v Hv].
      exists v. split; [exact Hv|]. eapply Hzero; [|exact Hv]. lia.
Qed.
End TrieClaims.

Section TrieWitness.
Import Mach Dbl Trie TrieSpec.

Lemma demo_trie_1 : trie 3 3 Demo.trie_1.
Proof.
  destruct (setCount_spec 3 0 Demo.empty_trie 1 2%float)
    as (t' & ts' & Hset & _ & Ht & _).
  - apply trie_empty. lia.
  - lia.
  - lia.
  - vm_compute. reflexivity.
  - vm_compute. reflexivity.
  - assert (Hc : setCount 1 Demo.empty_trie 3 0 2%float
                 = Some (Demo.trie_1, 3)) by (vm_compute; reflexivity).
    rewrite Hc in Hset. injection Hset as <- <-. exact Ht.
Qed.

Lemma demo_trie_5 : trie 3 3 Demo.trie_5.
Proof.
  destruct (setCount_spec 3 0 Demo.empty_trie 5 7%float)
    as (t' & ts' & Hset & _ & Ht & _).
  - apply trie_empty. lia.
  - lia.
  - lia.
  - vm_compute. reflexivity.
  - vm_compute. reflexivity.
  - assert (Hc : setCount 5 Demo.empty_trie 3 0 7%float
                 = Some (Demo.trie_5, 3)) by (vm_compute; reflexivity).
    rewrite Hc in Hset. injection Hset as <- <-. exact Ht.
Qed.

Lemma below_8 id :
  0 <= id < 2 ^ 3 ->
  id = 0 \/ id = 1 \/ id = 2 \/ id = 3 \/ id = 4 \/ id = 5 \/ id = 6 \/
  id = 7.
Proof. change (2 ^ 3) with 8. lia. Qed.

Lemma combineTree_pointwise_sum_witness :
  exists t1' ts1',
    combineTree_launch 3 Demo.trie_5 0 0 8 Demo.trie_1 3
    = Some (t1', ts1') /\
    trie 3 ts1' t1' /\
    (forall id, 0 <= id < 2 ^ 3 ->
       exists v1 v2,
         getCount id Demo.trie_1 3 = Some v1 /\
         getCount id Demo.trie_5 3 = Some v2 /\
         getCount id t1' 3 = Some (v1 + v2)%float) /\
    ((forall id v2, 0 <= id < 2 ^ 3 ->
        getCount id Demo.trie_5 3 = Some v2 -> gt0 v2 = false) ->
     t1' = Demo.trie_1 /\ ts1' = 3).
Proof.
  apply (combineTree_pointwise_sum 3 Demo.trie_1 3 Demo.trie_5 3 0 0 8).
  - exact demo_trie_1.
  - exact demo_trie_5.
  - lia.
  - lia.
  - vm_compute. discriminate.
  - vm_compute. reflexivity.
  - vm_compute. reflexivity.
  - intros id v Hid Hv.
    destruct (below_8 id Hid) as [-> | [-> | [-> | [-> | [-> | [-> | [-> | ->] ] ] ] ] ] ];
      vm_compute in Hv; injection Hv as <-;
      first [left; reflexivity | right; reflexivity].
  - intros id v Hid Hv.
    destruct (below_8 id Hid) as [-> | [-> | [-> | [-> | [-> | [-> | [-> | ->] ] ] ] ] ] ];
      vm_compute in Hv; injection Hv as <-;
      first [left; reflexivity | right; reflexivity].
  - intros id v1 v2 Hid Hv1 Hv2.
    destruct (below_8 id Hid) as [-> | [-> | [-> | [-> | [-> | [-> | [-> | ->] ] ] ] ] ] ];
      vm_compute in Hv1; vm_compute in Hv2;
      injection Hv1 as <-; injection Hv2 as <-;
      vm_compute; congruence.
  - intros id v2 Hid Hv2 Hg. change (2 ^ 3) with 8 in Hid. simpl. lia.
Defined.
End TrieWitness.

(** ** The exponent cell *)

Section IlogbFacts.
Import Dbl.

(** [ilogb] of a positive finite double [m * 2^e] is the floor of its
    binary logarithm: [2^k <= m * 2^e < 2^(k+1)], stated on the mantissa. *)
Lemma ilogb_floor_log2 (v : float) (m : positive) (e : Z) :
  Prim2SF v = S754_finite false m e ->
  0 <= ilogb v - e /\
  2 ^ (ilogb v - e) <= Z.pos m < 2 ^ (ilogb v - e + 1).
Proof.
  intros E. unfold ilogb. rewrite E.
  pose proof (digits2_pos_bounds m) as [Hlo Hhi].
  replace (Z.pos (digits2_pos m) + e - 1 - e)
    with (Z.pos (digits2_pos m) - 1) by lia.
  replace (Z.pos (digits2_pos m) - 1 + 1)
    with (Z.pos (digits2_pos m)) by lia.
  split; [lia|]. split; assumption.
Qed.
End IlogbFacts.

Section JoinExponent.
Import Mach Dbl Bag Join.

Lemma combine_exponent bld p id tmp tmp_ weight st st' :
  combine bld p id tmp tmp_ weight st = Some st' ->
  exponent st' = exponent st.
Proof.
  unfold combine. intros H.
  destruct (ge0 tmp_ && ge0 tmp).
  { destruct (wr (solutions st) _ _); simpl in H; [|discriminate].
    injection H as <-. reflexivity. }
  destruct (ge0 tmp).
  { destruct (rd (solutions st) _); simpl in H; [|discriminate].
    destruct (wr (solutions st) _ _); simpl in H; [|discriminate].
    injection H as <-. reflexivity. }
  destruct (ge0 tmp_).
  { destruct (rd (solutions st) _); simpl in H; [|discriminate].
    destruct (wr (solutions st) _ _); simpl in H; [|discriminate].
    injection H as <-. reflexivity. }
  injection H as <-. reflexivity.
Qed.

Lemma solveJoin_skip bld p gid st :
  max_id p <= gid + id_offset p -> solveJoin bld p gid st = Some st.
Proof.
  intros H. unfold solveJoin.
  destruct (Z.geb_spec (gid + id_offset p) (max_id p)); [reflexivity|lia].
Qed.

(** What one worker of the join kernel does to the exponent cell. *)
Lemma solveJoin_exponent bld p gid st st' :
  solveJoin bld p gid st = Some st' ->
  gid + id_offset p < max_id p ->
  if ARRAY_TYPE bld && negb (NO_EXP bld)
  then exists w,
         rd (solutions st') (gid + id_offset p - startIDNode p) = Some w /\
         exponent st'
         = Z.max (ilogb (longlong_as_double w)) (exponent st)
  else exponent st' = exponent st.
Proof.
  unfold solveJoin. intros H Hid.
  destruct (Z.geb_spec (gid + id_offset p) (max_id p)); [lia|].
  destruct (lookup1 bld p _) as [tmp|]; simpl in H; [|discriminate].
  destruct (lookup2 bld p _) as [tmp_|]; simpl in H; [|discriminate].
  destruct (bag_weight _ _ _ _ _) as [weight|]; simpl in H; [|discriminate].
  destruct (combine bld p _ tmp tmp_ weight st) as [st1|] eqn:Hc;
    simpl in H; [|discriminate].
  apply combine_exponent in Hc. unfold track_exponent in H.
  destruct (ARRAY_TYPE bld && negb (NO_EXP bld)).
  - destruct (rd (solutions st1) _) as [w|] eqn:Hw; simpl in H;
      [|discriminate].
    injection H as <-. simpl. exists w. rewrite Hc. auto.
  - injection H as <-. exact Hc.
Qed.

Lemma launch_from_other_slots bld p threads : forall g st st' s,
  launch_from (solveJoin bld p) threads g st = Some st' ->
  (forall j, g <= j < g + Z.of_nat threads ->
     s <> j + id_offset p - startIDNode p) ->
  rd (solutions st') s = rd (solutions st) s.
Proof.
  induction threads as [|k IH]; intros g st st' s H Hs.
  - injection H as <-. reflexivity.
  - simpl in H.
    destruct (solveJoin bld p g st) as [st1|] eqn:Hw; simpl in H;
      [|discriminate].
    rewrite (IH _ _ _ s H) by (intros; apply Hs; lia).
    eapply solveJoin_other_slots; eauto. apply Hs. lia.
Qed.

(** The exponent cell at the end of a launch of the join kernel in the
    array build with exponents: the maximum of its initial value and of
    [ilogb] of the final content of every slot of the launch. *)
Lemma solveJoin_launch_exponent bld p threads :
  ARRAY_TYPE bld && negb (NO_EXP bld) = true ->
  forall g st st',
    launch_from (solveJoin bld p) threads g st = Some st' ->
    exponent st <= exponent st' /\
    (forall j, g <= j < g + Z.of_nat threads ->
       j + id_offset p < max_id p ->
       exists w,
         rd (solutions st') (j + id_offset p - startIDNode p) = Some w /\
         ilogb (longlong_as_double w) <= exponent st') /\
    (exponent st' = exponent st \/
     exists j w,
       g <= j < g + Z.of_nat threads /\ j + id_offset p < max_id p /\
       rd (solutions st') (j + id_offset p - startIDNode p) = Some w /\
       exponent st' = ilogb (longlong_as_double w)).
Proof.
  intros Hb. induction threads as [|k IH]; intros g st st' H.
  - injection H as <-. split; [lia|]. split; [intros; lia|]. left.
    reflexivity.
  - simpl in H.
    destruct (solveJoin bld p g st) as [st1|] eqn:Hw; simpl in H;
      [|discriminate].
    destruct (IH _ _ _ H) as (Hmono & Hall & Hatt).
    destruct (Z.lt_ge_cases (g + id_offset p) (max_id p)) as [Hin|Hout].
    + pose proof (solveJoin_exponent _ _ _ _ _ Hw Hin) as He.
      rewrite Hb in He. destruct He as (w & Hrd & He).
      assert (Hkeep : rd (solutions st') (g + id_offset p - startIDNode p)
                      = Some w).
      { rewrite <- Hrd. eapply launch_from_other_slots; eauto.
        intros j Hj. lia. }
      split; [lia|]. split.
      * intros j Hj Hjin. destruct (Z.eq_dec j g) as [->|Hne].
        -- exists w. split; [exact Hkeep|]. lia.
        -- apply Hall; [lia|exact Hjin].
      * destruct Hatt as [Heq|(j & w' & Hj & Hjin & Hrd' & Heq)].
        -- destruct (Z.max_spec (ilogb (longlong_as_double w))
                       (exponent st)) as [[_ Hm]|[_ Hm]].
           ++ left. lia.
           ++ right. exists g, w. split; [lia|]. split; [exact Hin|].
              split; [exact Hkeep|]. lia.
        -- right. exists j, w'. split; [lia|]. auto.
    + rewrite solveJoin_skip in Hw by lia. injection Hw as <-.
      split; [exact Hmono|]. split.
      * intros j Hj Hjin. destruct (Z.eq_dec j g) as [->|Hne]; [lia|].
        apply Hall; [lia|exact Hjin].
      * destruct Hatt as [Heq|(j & w' & Hj & Hjin & Hrd' & Heq)].
        -- left. exact Heq.
        -- right. exists j, w'. split; [lia|]. auto.
Qed.
End JoinExponent.

Section IntroForgetExponent.
Import Mach Dbl Bag IntroForget.

(** What the write-back of a worker of the introduce-forget kernel does:
    nothing unless [tmp > 0]; otherwise it stores [tmp / value + last] on
    top of the previous content [last] and raises the exponent cell to
    [ilogb] of the stored value. *)
Lemma write_back_spec bld p id tmp st st' :
  write_back bld p id tmp st = Some st' ->
  (gt0 tmp = false -> st' = st) /\
  (gt0 tmp = true ->
   exists last,
     (if ARRAY_TYPE bld
      then exists w,
             rd (solsF st) (id - startIDF p) = Some w /\
             last = longlong_as_double w /\
             rd (solsF st') (id - startIDF p)
             = Some (double_as_longlong (stored bld p tmp last))
      else Trie.getCount id (solsF st) (numVF p) = Some last /\
           Trie.setCount id (solsF st) (numVF p) (sols st)
             (stored bld p tmp last) = Some (solsF st', sols st')) /\
     exponent st'
     = (if NO_EXP bld then exponent st
        else Z.max (ilogb (stored bld p tmp last)) (exponent st))).
Proof.
  unfold write_back. intros H. destruct (gt0 tmp).
  2:{ injection H as <-. split; [reflexivity|discriminate]. }
  split; [discriminate|]. intros _.
  destruct (ARRAY_TYPE bld).
  - destruct (rd (solsF st) _) as [w|] eqn:Hw; simpl in H; [|discriminate].
    destruct (wr (solsF st) _ _) as [s'|] eqn:Hwr; simpl in H;
      [|discriminate].
    injection H as <-. simpl. exists (longlong_as_double w). split.
    + exists w. split; [reflexivity|]. split; [reflexivity|].
      eapply rd_wr_same; eauto.
    + destruct (NO_EXP bld); reflexivity.
  - destruct (Trie.getCount id (solsF st) (numVF p)) as [last|] eqn:Hl;
      simpl in H; [|discriminate].
    destruct (Trie.setCount _ _ _ _ _) as [[s' n']|] eqn:Hs; simpl in H;
      [|discriminate].
    injection H as <-. simpl. exists last. split; [auto|].
    destruct (NO_EXP bld); reflexivity.
Qed.

Lemma write_back_other_slots bld p id tmp st st' s :
  ARRAY_TYPE bld = true ->
  write_back bld p id tmp st = Some st' ->
  s <> id - startIDF p ->
  rd (solsF st') s = rd (solsF st) s.
Proof.
  unfold write_back. intros Hb H Hs. rewrite Hb in H.
  destruct (gt0 tmp); [|injection H as <-; reflexivity].
  destruct (rd (solsF st) _) as [w|]; simpl in H; [|discriminate].
  destruct (wr (solsF st) _ _) as [s'|] eqn:Hwr; simpl in H; [|discriminate].
  injection H as <-. simpl. eapply rd_wr_other; eauto.
Qed.

Lemma solveIntroduceForget_skip bld p gid st :
  max_id p <= gid + id_offset p ->
  solveIntroduceForget bld p gid st = Some st.
Proof.
  intros H. unfold solveIntroduceForget.
  destruct (Z.geb_spec (gid + id_offset p) (max_id p)); [reflexivity|lia].
Qed.

Lemma solveIntroduceForget_run bld p gid st st' :
  solveIntroduceForget bld p gid st = Some st' ->
  gid + id_offset p < max_id p ->
  exists tmp,
    worker_sum bld p (gid + id_offset p) = Some tmp /\
    write_back bld p (gid + id_offset p) tmp st = Some st'.
Proof.
  unfold solveIntroduceForget. intros H Hid.
  destruct (Z.geb_spec (gid + id_offset p) (max_id p)); [lia|].
  destruct (worker_sum bld p _) as [tmp|]; simpl in H; [|discriminate].
  exists tmp. auto.
Qed.

Lemma launch_from_IF_other_slots bld p threads :
  ARRAY_TYPE bld = true ->
  forall g st st' s,
    launch_from (solveIntroduceForget bld p) threads g st = Some st' ->
    (forall j, g <= j < g + Z.of_nat threads ->
       s <> j + id_offset p - startIDF p) ->
    rd (solsF st') s = rd (solsF st) s.
Proof.
  intros Hb. induction threads as [|k IH]; intros g st st' s H Hs.
  - injection H as <-. reflexivity.
  - simpl in H.
    destruct (solveIntroduceForget bld p g st) as [st1|] eqn:Hw;
      simpl in H; [|discriminate].
    rewrite (IH _ _ _ s H) by (intros; apply Hs; lia).
    destruct (Z.lt_ge_cases (g + id_offset p) (max_id p)) as [Hin|Hout].
    + destruct (solveIntroduceForget_run _ _ _ _ _ Hw Hin)
        as (tmp & _ & Hwb).
      eapply write_back_other_slots; eauto. apply Hs. lia.
    + rewrite solveIntroduceForget_skip in Hw by lia.
      injection Hw as <-. reflexivity.
Qed.

(** The exponent cell at the end of a launch of the introduce-forget
    kernel in the array build with exponents: the maximum of its initial
    value and of [ilogb] of the final content of every slot whose worker
    found [tmp > 0], that is, of every slot written. *)
Lemma solveIntroduceForget_launch_exponent bld p threads :
  ARRAY_TYPE bld = true -> NO_EXP bld = false ->
  forall g st st',
    launch_from (solveIntroduceForget bld p) threads g st = Some st' ->
    exponent st <= exponent st' /\
    (forall j tmp, g <= j < g + Z.of_nat threads ->
       j + id_offset p < max_id p ->
       worker_sum bld p (j + id_offset p) = Some tmp -> gt0 tmp = true ->
       exists w,
         rd (solsF st') (j + id_offset p - startIDF p) = Some w /\
         ilogb (longlong_as_double w) <= exponent st') /\
    (exponent st' = exponent st \/
     exists j tmp w,
       g <= j < g + Z.of_nat threads /\ j + id_offset p < max_id p /\
       worker_sum bld p (j + id_offset p) = Some tmp /\ gt0 tmp = true /\
       rd (solsF st') (j + id_offset p - startIDF p) = Some w /\
       exponent st' = ilogb (longlong_as_double w)).
Proof.
  intros Hb Hx. induction threads as [|k IH]; intros g st st' H.
  - injection H as <-. split; [lia|]. split; [intros; lia|]. left.
    reflexivity.
  - simpl in H.
    destruct (solveIntroduceForget bld p g st) as [st1|] eqn:Hw;
      simpl in H; [|discriminate].
    destruct (IH _ _ _ H) as (Hmono & Hall & Hatt).
    destruct (Z.lt_ge_cases (g + id_offset p) (max_id p)) as [Hin|Hout].
    + destruct (solveIntroduceForget_run _ _ _ _ _ Hw Hin)
        as (tmp & Hsum & Hwb).
      destruct (write_back_spec _ _ _ _ _ _ Hwb) as [Hno Hyes].
      destruct (gt0 tmp) eqn:Hg.
      * destruct (Hyes eq_refl) as (last & Hst & He).
        rewrite Hb in Hst. rewrite Hx in He.
        destruct Hst as (w0 & _ & _ & Hrd).
        set (v := stored bld p tmp last) in *.
        assert (Hkeep : rd (solsF st') (g + id_offset p - startIDF p)
                        = Some (double_as_longlong v)).
        { rewrite <- Hrd. eapply launch_from_IF_other_slots; eauto.
          intros j Hj. lia. }
        split; [lia|]. split.
        -- intros j tmp' Hj Hjin Hsum' Hg'.
           destruct (Z.eq_dec j g) as [->|Hne].
           ++ exists (double_as_longlong v). split; [exact Hkeep|].
              rewrite longlong_as_double_as_longlong. lia.
           ++ eapply Hall; eauto. lia.
        -- destruct Hatt as [Heq|(j & tmp' & w' & Hj & Hjin & Hs' & Hg'
                                  & Hrd' & Heq)].
           ++ destruct (Z.max_spec (ilogb v) (exponent st))
                as [[_ Hm]|[_ Hm]].
              ** left. lia.
              ** right. exists g, tmp, (double_as_longlong v).
                 split; [lia|]. split; [exact Hin|].
                 split; [exact Hsum|]. split; [exact Hg|].
                 split; [exact Hkeep|].
                 rewrite longlong_as_double_as_longlong. lia.
           ++ right. exists j, tmp', w'. split; [lia|]. auto 10.
      * rewrite (Hno eq_refl) in *. split; [exact Hmono|]. split.
        -- intros j tmp' Hj Hjin Hsum' Hg'.
           destruct (Z.eq_dec j g) as [->|Hne]; [congruence|].
           eapply Hall; eauto. lia.
        -- destruct Hatt as [Heq|(j & tmp' & w' & Hj & Hjin & Hs' & Hg'
                                  & Hrd' & Heq)].
           ++ left. exact Heq.
           ++ right. exists j, tmp', w'. split; [lia|]. auto 10.
    + rewrite solveIntroduceForget_skip in Hw by lia. injection Hw as <-.
      split; [exact Hmono|]. split.
      * intros j tmp' Hj Hjin Hsum' Hg'.
        destruct (Z.eq_dec j g) as [->|Hne]; [lia|].
        eapply Hall; eauto. lia.
      * destruct Hatt as [Heq|(j & tmp' & w' & Hj & Hjin & Hs' & Hg'
                                & Hrd' & Heq)].
        -- left. exact Heq.
        -- right. exists j, tmp', w'. split; [lia|]. auto 10.
Qed.
End IntroForgetExponent.

(** The exponent cell against the values that the workers of a launch
    write, in either table layout. *)

Section IntroForgetWritten.
Import Mach Dbl Bag IntroForget.

Lemma write_back_previous bld p id tmp st st' :
  NO_EXP bld = false ->
  write_back bld p id tmp st = Some st' -> gt0 tmp = true ->
  exists last,
    previous_count bld p id st = Some last /\
    exponent st'
    = Z.max (ilogb (tmp / value p + last)%float) (exponent st).
Proof.
  intros Hx Hwb Hg.
  destruct (write_back_spec _ _ _ _ _ _ Hwb) as [_ Hyes].
  destruct (Hyes Hg) as (last & Hst & He).
  unfold stored in He. rewrite Hx in He.
  exists last. split; [|exact He].
  unfold previous_count. destruct (ARRAY_TYPE bld).
  - destruct Hst as (w & Hrd & -> & _). rewrite Hrd. reflexivity.
  - destruct Hst as (Hget & _). exact Hget.
Qed.

Lemma launch_from_later {S : Type} (body : Z -> S -> option S) g st st1 :
  body g st = Some st1 ->
  forall j, g < j ->
    launch_from body (Z.to_nat (j - g)) g st
    = launch_from body (Z.to_nat (j - (g + 1))) (g + 1) st1.
Proof.
  intros Hb j Hj.
  replace (Z.to_nat (j - g)) with (Datatypes.S (Z.to_nat (j - (g + 1))))
    by lia.
  simpl. rewrite Hb. reflexivity.
Qed.

Lemma solveIntroduceForget_launch_written bld p threads :
  NO_EXP bld = false ->
  forall g st st',
    launch_from (solveIntroduceForget bld p) threads g st = Some st' ->
    exponent st <= exponent st' /\
    (forall j tmp, g <= j < g + Z.of_nat threads ->
       j + id_offset p < max_id p ->
       worker_sum bld p (j + id_offset p) = Some tmp -> gt0 tmp = true ->
       exists stj last,
         launch_from (solveIntroduceForget bld p) (Z.to_nat (j - g)) g st
         = Some stj /\
         previous_count bld p (j + id_offset p) stj = Some last /\
         ilogb (tmp / value p + last)%float <= exponent st') /\
    (exponent st' = exponent st \/
     exists j tmp stj last,
       g <= j < g + Z.of_nat threads /\ j + id_offset p < max_id p /\
       worker_sum bld p (j + id_offset p) = Some tmp /\ gt0 tmp = true /\
       launch_from (solveIntroduceForget bld p) (Z.to_nat (j - g)) g st
       = Some stj /\
       previous_count bld p (j + id_offset p) stj = Some last /\
       exponent st' = ilogb (tmp / value p + last)%float).
Proof.
  intros Hx. induction threads as [|k IH]; intros g st st' H.
  - injection H as <-. split; [lia|]. split; [intros; lia|]. left.
    reflexivity.
  - simpl in H.
    destruct (solveIntroduceForget bld p g st) as [st1|] eqn:Hw;
      simpl in H; [|discriminate].
    destruct (IH _ _ _ H) as (Hmono & Hall & Hatt).
    assert (Hlater : forall j tmp', g <= j < g + Z.of_nat (S k) ->
              j <> g ->
              j + id_offset p < max_id p ->
              worker_sum bld p (j + id_offset p) = Some tmp' ->
              gt0 tmp' = true ->
              exists stj last,
                launch_from (solveIntroduceForget bld p)
                  (Z.to_nat (j - g)) g st = Some stj /\
                previous_count bld p (j + id_offset p) stj = Some last /\
                ilogb (tmp' / value p + last)%float <= exponent st').
    { intros j tmp' Hj Hne Hjin Hsum' Hg'.
      destruct (Hall j tmp' ltac:(lia) Hjin Hsum' Hg')
        as (stj & last & Hl & Hp & Hle).
      exists stj, last. split; [|auto].
      rewrite (launch_from_later _ g st st1 Hw j ltac:(lia)). exact Hl. }
    assert (Hatt' :
      exponent st' = exponent st1 \/
      exists j tmp stj last,
        g <= j < g + Z.of_nat (S k) /\ j + id_offset p < max_id p /\
        worker_sum bld p (j + id_offset p) = Some tmp /\ gt0 tmp = true /\
        launch_from (solveIntroduceForget bld p) (Z.to_nat (j - g)) g st
        = Some stj /\
        previous_count bld p (j + id_offset p) stj = Some last /\
        exponent st' = ilogb (tmp / value p + last)%float).
    { destruct Hatt as [Heq|(j & tmp' & stj & last & Hj & Hjin & Hs' & Hg'
                             & Hl & Hp & Heq)]; [left; exact Heq|].
      right. exists j, tmp', stj, last. split; [lia|].
      rewrite (launch_from_later _ g st st1 Hw j ltac:(lia)). auto 10. }
    destruct (Z.lt_ge_cases (g + id_offset p) (max_id p)) as [Hin|Hout].
    + destruct (solveIntroduceForget_run _ _ _ _ _ Hw Hin)
        as (tmp & Hsum & Hwb).
      destruct (gt0 tmp) eqn:Hg.
      * destruct (write_back_previous bld p _ tmp st st1 Hx Hwb Hg)
          as (last & Hprev & He).
        split; [lia|]. split.
        -- intros j tmp' Hj Hjin Hsum' Hg'.
           destruct (Z.eq_dec j g) as [->|Hne]; [|eauto].
           assert (tmp' = tmp) as -> by congruence.
           exists st, last. rewrite Z.sub_diag. split; [reflexivity|].
           split; [exact Hprev|]. lia.
        -- destruct Hatt' as [Heq|Hwit]; [|right; exact Hwit].
           destruct (Z.max_spec (ilogb (tmp / value p + last)%float)
                       (exponent st)) as [[_ Hm]|[_ Hm] ].
           ++ left. lia.
           ++ right. exists g, tmp, st, last. rewrite Z.sub_diag.
              split; [lia|]. split; [exact Hin|].
              split; [exact Hsum|]. split; [exact Hg|].
              split; [reflexivity|]. split; [exact Hprev|]. lia.
      * destruct (write_back_spec _ _ _ _ _ _ Hwb) as [Hno _].
        rewrite (Hno Hg) in *. split; [exact Hmono|]. split.
        -- intros j tmp' Hj Hjin Hsum' Hg'.
           destruct (Z.eq_dec j g) as [->|Hne]; [congruence|eauto].
        -- exact Hatt'.
    + pose proof Hw as Hw'.
      rewrite solveIntroduceForget_skip in Hw' by lia.
      injection Hw' as <-.
      split; [exact Hmono|]. split.
      * intros j tmp' Hj Hjin Hsum' Hg'.
        destruct (Z.eq_dec j g) as [->|Hne]; [lia|eauto].
      * exact Hatt'.
Qed.

End IntroForgetWritten.

Section ExponentClaims.
Import Mach Dbl Bag.

(** C5, as the code has it.
    - A worker of the introduce-forget kernel (exponent build) writes
      exactly when its sum [tmp] is positive; it writes
      [tmp / value + last] and then raises the exponent cell to the
      maximum of the cell and [ilogb] of the value written; a worker that
      does not write leaves the cell alone.
    - In every exponent build, array or trie, the cell holds at the end of
      a launch of the introduce-forget kernel the maximum of its initial
      value and of [ilogb] of the values written during the launch: it
      does not decrease, it bounds [ilogb] of the value [tmp / value + last]
      written by every worker with a positive sum ([last] being what this
      worker finds in the table, after the workers before it), and it is
      its initial value or [ilogb] of one of these values.
    - In the array build these values are the final contents of the slots
      written.
    - A worker of the join kernel raises the cell in the array build with
      exponents only, and there always: to the maximum of the cell and
      [ilogb] of the content of its slot, written or not, positive or not.
      At the end of such a launch the cell holds the maximum of its
      initial value and of [ilogb] of the final content of every slot of
      the launch.  In every other build the join kernel leaves the cell
      as it was. *)
Theorem exponent_tracking :
  (forall bld p gid st st' tmp,
     NO_EXP bld = false ->
     gid + IntroForget.id_offset p < IntroForget.max_id p ->
     IntroForget.worker_sum bld p (gid + IntroForget.id_offset p)
     = Some tmp ->
     IntroForget.solveIntroduceForget bld p gid st = Some st' ->
     (gt0 tmp = false -> st' = st) /\
     (gt0 tmp = true ->
      exists last,
        (if ARRAY_TYPE bld
         then exists w,
                rd (IntroForget.solsF st)
                  (gid + IntroForget.id_offset p - IntroForget.startIDF p)
                = Some w /\
                last = longlong_as_double w /\
                rd (IntroForget.solsF st')
                  (gid + IntroForget.id_offset p - IntroForget.startIDF p)
                = Some (double_as_longlong
                          (tmp / IntroForget.value p + last)%float)
         else Trie.getCount (gid + IntroForget.id_offset p)
                (IntroForget.solsF st) (IntroForget.numVF p) = Some last /\
              Trie.setCount (gid + IntroForget.id_offset p)
                (IntroForget.solsF st) (IntroForget.numVF p)
                (IntroForget.sols st)
                (tmp / IntroForget.value p + last)%float
              = Some (IntroForget.solsF st', IntroForget.sols st')) /\
        IntroForget.exponent st'
        = Z.max (ilogb (tmp / IntroForget.value p + last)%float)
            (IntroForget.exponent st)))
  /\
  (forall bld p threads st st',
     NO_EXP bld = false ->
     IntroForget.solveIntroduceForget_launch bld p threads st = Some st' ->
     IntroForget.exponent st <= IntroForget.exponent st' /\
     (forall j tmp, 0 <= j < Z.of_nat threads ->
        j + IntroForget.id_offset p < IntroForget.max_id p ->
        IntroForget.worker_sum bld p (j + IntroForget.id_offset p)
        = Some tmp ->
        gt0 tmp = true ->
        exists stj last,
          IntroForget.solveIntroduceForget_launch bld p (Z.to_nat j) st
          = Some stj /\
          IntroForget.previous_count bld p (j + IntroForget.id_offset p)
            stj = Some last /\
          ilogb (tmp / IntroForget.value p + last)%float
          <= IntroForget.exponent st') /\
     (IntroForget.exponent st' = IntroForget.exponent st \/
      exists j tmp stj last,
        0 <= j < Z.of_nat threads /\
        j + IntroForget.id_offset p < IntroForget.max_id p /\
        IntroForget.worker_sum bld p (j + IntroForget.id_offset p)
        = Some tmp /\
        gt0 tmp = true /\
        IntroForget.solveIntroduceForget_launch bld p (Z.to_nat j) st
        = Some stj /\
        IntroForget.previous_count bld p (j + IntroForget.id_offset p)
          stj = Some last /\
        IntroForget.exponent st'
        = ilogb (tmp / IntroForget.value p + last)%float))
  /\
  (forall bld p threads st st',
     ARRAY_TYPE bld = true -> NO_EXP bld = false ->
     IntroForget.solveIntroduceForget_launch bld p threads st = Some st' ->
     IntroForget.exponent st <= IntroForget.exponent st' /\
     (forall j tmp, 0 <= j < Z.of_nat threads ->
        j + IntroForget.id_offset p < IntroForget.max_id p ->
        IntroForget.worker_sum bld p (j + IntroForget.id_offset p)
        = Some tmp ->
        gt0 tmp = true ->
        exists w,
          rd (IntroForget.solsF st')
            (j + IntroForget.id_offset p - IntroForget.startIDF p)
          = Some w /\
          ilogb (longlong_as_double w) <= IntroForget.exponent st') /\
     (IntroForget.exponent st' = IntroForget.exponent st \/
      exists j tmp w,
        0 <= j < Z.of_nat threads /\
        j + IntroForget.id_offset p < IntroForget.max_id p /\
        IntroForget.worker_sum bld p (j + IntroForget.id_offset p)
        = Some tmp /\
        gt0 tmp = true /\
        rd (IntroForget.solsF st')
          (j + IntroForget.id_offset p - IntroForget.startIDF p)
        = Some w /\
        IntroForget.exponent st' = ilogb (longlong_as_double w)))
  /\
  (forall bld p gid st st',
     Join.solveJoin bld p gid st = Some st' ->
     gid + Join.id_offset p < Join.max_id p ->
     if ARRAY_TYPE bld && negb (NO_EXP bld)
     then exists w,
            rd (Join.solutions st')
              (gid + Join.id_offset p - Join.startIDNode p) = Some w /\
            Join.exponent st'
            = Z.max (ilogb (longlong_as_double w)) (Join.exponent st)
     else Join.exponent st' = Join.exponent st)
  /\
  (forall bld p threads st st',
     ARRAY_TYPE bld && negb (NO_EXP bld) = true ->
     Join.solveJoin_launch bld p threads st = Some st' ->
     Join.exponent st <= Join.exponent st' /\
     (forall j, 0 <= j < Z.of_nat threads ->
        j + Join.id_offset p < Join.max_id p ->
        exists w,
          rd (Join.solutions st')
            (j + Join.id_offset p - Join.startIDNode p) = Some w /\
          ilogb (longlong_as_double w) <= Join.exponent st') /\
     (Join.exponent st' = Join.exponent st \/
      exists j w,
        0 <= j < Z.of_nat threads /\
        j + Join.id_offset p < Join.max_id p /\
        rd (Join.solutions st')
          (j + Join.id_offset p - Join.startIDNode p) = Some w /\
        Join.exponent st' = ilogb (longlong_as_double w))).

Proof.
  split; [|split; [|split; [|split] ] ].
  - intros bld p gid st st' tmp Hx Hid Hsum Hrun.
    destruct (solveIntroduceForget_run _ _ _ _ _ Hrun Hid)
      as (tmp' & Hsum' & Hwb).
    assert (tmp' = tmp) as -> by congruence.
    destruct (write_back_spec _ _ _ _ _ _ Hwb) as [Hno Hyes].
    split; [exact Hno|]. intros Hg.
    destruct (Hyes Hg) as (last & Hst & He).
    unfold IntroForget.stored in *. rewrite Hx in *.
    exists last. auto.
  - intros bld p threads st st' Hx Hrun.
    unfold IntroForget.solveIntroduceForget_launch, launch in *.
    destruct (solveIntroduceForget_launch_written bld p threads Hx
                0 st st' Hrun) as (Hmono & Hall & Hatt).
    split; [exact Hmono|]. split.
    + intros j tmp Hj Hjin Hsum Hg.
      destruct (Hall j tmp ltac:(lia) Hjin Hsum Hg)
        as (stj & last & Hl & Hrest).
      rewrite Z.sub_0_r in Hl. exists stj, last. auto.
    + destruct Hatt as [Heq|(j & tmp & stj & last & Hj & Hjin & Hsum & Hg
                             & Hl & Hrest)];
        [left; exact Heq|].
      rewrite Z.sub_0_r in Hl.
      right. exists j, tmp, stj, last. split; [lia|]. auto 10.
  - intros bld p threads st st' Hb Hx Hrun.
    destruct (solveIntroduceForget_launch_exponent bld p threads Hb Hx
                0 st st' Hrun) as (Hmono & Hall & Hatt).
    split; [exact Hmono|]. split.
    + intros j tmp Hj. apply Hall. lia.
    + destruct Hatt as [Heq|(j & tmp & w & Hj & Hrest)];
        [left; exact Heq|].
      right. exists j, tmp, w. split; [lia|exact Hrest].
  - intros bld p gid st st'. apply solveJoin_exponent.
  - intros bld p threads st st' Hb Hrun.
    destruct (solveJoin_launch_exponent bld p threads Hb 0 st st' Hrun)
      as (Hmono & Hall & Hatt).
    split; [exact Hmono|]. split.
    + intros j Hj. apply Hall. lia.
    + destruct Hatt as [Heq|(j & w & Hj & Hrest)]; [left; exact Heq|].
      right. exists j, w. split; [lia|exact Hrest].
Qed.

Lemma exponent_tracking_witness :
  (exists st',
     IntroForget.solveIntroduceForget_launch Demo.trie_exp Sample.leaf_args
       4 Sample.leaf_trie = Some st' /\
     IntroForget.exponent Sample.leaf_trie <= IntroForget.exponent st' /\
     IntroForget.exponent st' = 1)
  /\
  (exists st',
     Join.solveJoin_launch Demo.array_exp (Demo.join_args 0 0) 4
       Demo.join_state = Some st' /\
     Join.exponent Demo.join_state <= Join.exponent st' /\
     Join.exponent st' = 2).
Proof.
  split.
  - eexists. split; [vm_compute; reflexivity|]. split.
    + apply (proj1 (proj2 exponent_tracking) Demo.trie_exp
               Sample.leaf_args 4%nat Sample.leaf_trie _ eq_refl).
      vm_compute. reflexivity.
    + vm_compute. reflexivity.
  - eexists. split; [vm_compute; reflexivity|]. split.
    + apply (proj2 (proj2 (proj2 (proj2 exponent_tracking)))
               Demo.array_exp (Demo.join_args 0 0) 4%nat Demo.join_state
               _ eq_refl).
      vm_compute. reflexivity.
    + vm_compute. reflexivity.
Defined.

(** C5 as stated fails for the join kernel.  In the array build a launch
    in which no child is in range writes nothing, the table holds the
    uninitialised value -1 in every slot and no positive value at all, and
    yet the exponent cell goes from [INT_MIN] to [ilogb (-1) = 0]. *)
Lemma join_exponent_without_positive_write :
  exists st',
    Join.solveJoin_launch Demo.array_exp (Demo.join_args (-1) (-1)) 4
      Demo.join_state = Some st' /\
    Join.solutions st' = Join.solutions Demo.join_state /\
    forallb (fun w => negb (gt0 (longlong_as_double w)))
      (Join.solutions st') = true /\
    Join.exponent Demo.join_state = INT_MIN /\
    Join.exponent st' = 0.
Proof.
  eexists. split; [vm_compute; reflexivity|].
  repeat split; vm_compute; reflexivity.
Qed.
End ExponentClaims.

(** ** Launches *)

Section LaunchFacts.
Context {S : Type}.

Lemma launch_from_app (body : Z -> S -> option S) (n m : nat) :
  forall g st,
    launch_from body (n + m) g st
    = (st' ← launch_from body n g st;
       launch_from body m (g + Z.of_nat n) st').
Proof.
  induction n as [|n IH]; intros g st.
  - simpl. f_equal. lia.
  - cbn [Nat.add launch_from]. destruct (body g st) as [st1|]; simpl;
      [|reflexivity].
    rewrite IH. replace (g + 1 + Z.of_nat n) with (g + Z.of_nat (Datatypes.S n))
      by lia. reflexivity.
Qed.

Lemma launch_from_ext (body body' : Z -> S -> option S) (n : nat) :
  forall g st,
    (forall k st, g <= k < g + Z.of_nat n -> body k st = body' k st) ->
    launch_from body n g st = launch_from body' n g st.
Proof.
  induction n as [|n IH]; intros g st H; [reflexivity|].
  simpl. rewrite (H g st) by lia.
  destruct (body' g st) as [st1|]; simpl; [|reflexivity].
  apply IH. intros k st2 Hk. apply H. lia.
Qed.

Lemma launch_from_idle (body : Z -> S -> option S) (n : nat) :
  forall g st,
    (forall k st, g <= k < g + Z.of_nat n -> body k st = Some st) ->
    launch_from body n g st = Some st.
Proof.
  induction n as [|n IH]; intros g st H; [reflexivity|].
  simpl. rewrite (H g st) by lia. simpl.
  apply IH. intros k st2 Hk. apply H. lia.
Qed.
End LaunchFacts.

Section HostFacts.
Import Mach Host.

Lemma get_global_id_linear k :
  0 <= k < 2 ^ 32 -> get_global_id 256 (k / 256) (k mod 256) = k.
Proof.
  intros Hk. unfold get_global_id, to_uint.
  rewrite <- (Z.div_mod k 256) by lia. apply Z.mod_small. exact Hk.
Qed.

Lemma get_global_id_nonneg blockDim blockIdx threadIdx :
  0 <= get_global_id blockDim blockIdx threadIdx.
Proof. unfold get_global_id, to_uint. apply Z.mod_pos_bound. lia. Qed.

Lemma blocksPerGrid_covers threads :
  0 <= threads <= 2 ^ 32 - 256 ->
  exists pad : nat,
    Z.to_nat (blocksPerGrid threads * 256) = (Z.to_nat threads + pad)%nat /\
    Z.of_nat (Z.to_nat threads + pad) <= 2 ^ 32.
Proof.
  intros Ht. unfold blocksPerGrid, to_ulong, wrap32.
  change (2 ^ 32) with 4294967296 in *.
  change (2 ^ 31) with 2147483648. change (2 ^ 64) with 18446744073709551616.
  rewrite (Z.mod_small (threads + 256 - 1)) by lia.
  assert (Hq : 0 <= (threads + 256 - 1) / 256 <= 16777216).
  { split; [apply Z.div_pos; lia|].
    apply Z.div_le_upper_bound; lia. }
  rewrite (Z.mod_small ((threads + 256 - 1) / 256 + 2147483648)) by lia.
  pose proof (Z.div_mod (threads + 256 - 1) 256 ltac:(lia)) as Hd.
  pose proof (Z.mod_pos_bound (threads + 256 - 1) 256 ltac:(lia)) as Hm.
  exists (Z.to_nat (((threads + 256 - 1) / 256 + 2147483648 - 2147483648) * 256
                    - threads)).
  split; lia.
Qed.

Lemma grid_launch_exact {S : Type} (kernel : Z -> S -> option S)
    (threads : Z) (st : S) :
  0 <= threads <= 2 ^ 32 - 256 ->
  (forall k st, threads <= k -> kernel k st = Some st) ->
  grid_launch kernel (blocksPerGrid threads) 256 st
  = launch kernel (Z.to_nat threads) st.
Proof.
  intros Ht Hidle. unfold grid_launch, launch.
  destruct (blocksPerGrid_covers threads Ht) as (pad & E & Hle).
  rewrite E.
  rewrite (launch_from_ext _ kernel).
  - rewrite launch_from_app.
    destruct (launch_from kernel (Z.to_nat threads) 0 st) as [st1|];
      simpl; [|reflexivity].
    apply launch_from_idle. intros k st2 Hk. apply Hidle. lia.
  - intros k st2 Hk. rewrite get_global_id_linear by lia. reflexivity.
Qed.

Lemma grid_launch_idle {S : Type} (kernel : Z -> S -> option S)
    (blocks : Z) (st : S) :
  (forall k st, 0 <= k -> kernel k st = Some st) ->
  grid_launch kernel blocks 256 st = Some st.
Proof.
  intros Hidle. unfold grid_launch, launch.
  apply launch_from_idle. intros k st2 _. apply Hidle.
  apply get_global_id_nonneg.
Qed.

Lemma wrap32_to_ulong z :
  - 2 ^ 31 <= z < 2 ^ 31 -> wrap32 (to_ulong z) = z.
Proof.
  intros Hz. unfold wrap32, to_ulong.
  destruct (Z_lt_le_dec z 0) as [Hneg|Hpos].
  - replace (z mod 2 ^ 64) with (z + 2 ^ 64)
      by (apply Z.mod_unique with (-1); lia).
    replace (z + 2 ^ 64 + 2 ^ 31) with (z + 2 ^ 31 + 2 ^ 32 * 2 ^ 32) by lia.
    rewrite Z.mod_add by lia. rewrite Z.mod_small by lia. lia.
  - rewrite (Z.mod_small z) by lia. rewrite Z.mod_small by lia. lia.
Qed.

Lemma wrap32_to_ulong_high z :
  2 ^ 31 <= z < 2 ^ 32 -> wrap32 (to_ulong z) = z - 2 ^ 32.
Proof.
  intros Hz. unfold wrap32, to_ulong.
  rewrite (Z.mod_small z) by lia.
  replace (z + 2 ^ 31) with (z - 2 ^ 31 + 1 * 2 ^ 32) by lia.
  rewrite Z.mod_add by lia. rewrite Z.mod_small by lia. lia.
Qed.

Lemma wrap64_to_ulong z :
  - 2 ^ 63 <= z < 2 ^ 63 -> wrap64 (to_ulong z) = z.
Proof.
  intros Hz. unfold wrap64, to_ulong.
  destruct (Z_lt_le_dec z 0) as [Hneg|Hpos].
  - replace (z mod 2 ^ 64) with (z + 2 ^ 64)
      by (apply Z.mod_unique with (-1); lia).
    replace (z + 2 ^ 64 + 2 ^ 63) with (z + 2 ^ 63 + 1 * 2 ^ 64) by lia.
    rewrite Z.mod_add by lia. rewrite Z.mod_small by lia. lia.
  - rewrite (Z.mod_small z) by lia. rewrite Z.mod_small by lia. lia.
Qed.
End HostFacts.

Section HostWrappers.
Import Mach Host.

(** [solveJoinWrapper] rounds the grid up to whole blocks of 256 threads;
    as long as [threads + id_offset] is an [int], the workers past
    [threads] return at once and the launch is that of the first [threads]
    workers with [max_id = threads + id_offset]. *)
Theorem solveJoinWrapper_exact (bld : build) (p : Join.args)
    (threads id_offset : Z) (st : Join.state) :
  0 <= threads <= 2 ^ 32 - 256 ->
  - 2 ^ 31 <= threads + id_offset < 2 ^ 31 ->
  solveJoinWrapper bld p threads id_offset st
  = Join.solveJoin_launch bld (join_args p id_offset (threads + id_offset))
      (Z.to_nat threads) st.
Proof.
  intros Ht Hsum. unfold solveJoinWrapper, Join.solveJoin_launch.
  rewrite wrap32_to_ulong by exact Hsum.
  apply grid_launch_exact; [exact Ht|].
  intros k st2 Hk. apply solveJoin_skip.
  cbn [Join.max_id Join.id_offset join_args]. lia.
Qed.

Lemma solveJoinWrapper_exact_witness :
  solveJoinWrapper Demo.array_exp (Demo.join_args 0 0) 4 0 Demo.join_state
  = Join.solveJoin_launch Demo.array_exp
      (join_args (Demo.join_args 0 0) 0 (4 + 0)) (Z.to_nat 4)
      Demo.join_state.
Proof.
  apply (solveJoinWrapper_exact Demo.array_exp (Demo.join_args 0 0) 4 0
           Demo.join_state); lia.
Defined.

(** [max_id] of [solveJoinWrapper] is an [int]: when [threads + id_offset]
    lies in [2^31, 2^32) it becomes negative, every worker lies past it and
    the launch leaves the table, the counter and the exponent as they
    were. *)
Theorem solveJoinWrapper_int_max_id (bld : build) (p : Join.args)
    (threads id_offset : Z) (st : Join.state) :
  0 <= id_offset ->
  2 ^ 31 <= threads + id_offset < 2 ^ 32 ->
  solveJoinWrapper bld p threads id_offset st = Some st.
Proof.
  intros Ho Hsum. unfold solveJoinWrapper.
  rewrite wrap32_to_ulong_high by exact Hsum.
  apply grid_launch_idle. intros k st2 Hk.
  apply solveJoin_skip.
  cbn [Join.max_id Join.id_offset join_args]. lia.
Qed.

Lemma solveJoinWrapper_int_max_id_witness :
  solveJoinWrapper Demo.array_exp (Demo.join_args 0 0) 4 (2 ^ 31 - 2)
    Demo.join_state
  = Some Demo.join_state.
Proof.
  apply (solveJoinWrapper_int_max_id Demo.array_exp (Demo.join_args 0 0) 4
           (2 ^ 31 - 2) Demo.join_state); lia.
Defined.

(** [introduceForgetWrapper] passes [threads + id_offset] on as a [long]:
    the launch is that of the first [threads] workers, the workers that
    fill the last block return at once. *)
Theorem introduceForgetWrapper_exact (bld : build) (p : IntroForget.args)
    (threads id_offset : Z) (st : IntroForget.state) :
  0 <= threads <= 2 ^ 32 - 256 ->
  - 2 ^ 63 <= threads + id_offset < 2 ^ 63 ->
  introduceForgetWrapper bld p threads id_offset st
  = IntroForget.solveIntroduceForget_launch bld
      (introduceForget_args p id_offset (threads + id_offset))
      (Z.to_nat threads) st.
Proof.
  intros Ht Hsum.
  unfold introduceForgetWrapper, IntroForget.solveIntroduceForget_launch.
  rewrite wrap64_to_ulong by exact Hsum.
  apply grid_launch_exact; [exact Ht|].
  intros k st2 Hk. apply solveIntroduceForget_skip.
  cbn [IntroForget.max_id IntroForget.id_offset introduceForget_args]. lia.
Qed.

Lemma introduceForgetWrapper_exact_witness :
  introduceForgetWrapper Demo.array_exp Sample.leaf_args 4 0
    Sample.leaf_array
  = IntroForget.solveIntroduceForget_launch Demo.array_exp
      (introduceForget_args Sample.leaf_args 0 (4 + 0)) (Z.to_nat 4)
      Sample.leaf_array.
Proof.
  apply (introduceForgetWrapper_exact Demo.array_exp Sample.leaf_args 4 0
           Sample.leaf_array); lia.
Defined.

End HostWrappers.

(** ** More on the bit-trie *)

Section TrieMore.
Import Mach Dbl Trie TrieSpec TableSpec.

Lemma getCount_empty n (cap : nat) id :
  0 <= n -> (0 < cap)%nat ->
  getCount id (replicate cap 0) n = Some 0%float.
Proof.
  intros Hn Hcap. unfold getCount.
  assert (Hr : rd (replicate cap 0) 0 = Some 0).
  { unfold rd. simpl. apply lookup_replicate_2. lia. }
  destruct (Z.to_nat n) as [|fuel]; simpl; rewrite Hr; simpl.
  - reflexivity.
  - rewrite half_0. reflexivity.
Qed.

Lemma setCounts_spec n :
  0 <= n ->
  forall l t ts,
    trie n ts t ->
    Forall (fun e => 0 <= e.1 < 2 ^ n) l ->
    ts + Z.max n 1 * Z.of_nat (length l) < Z.of_nat (length t) ->
    ts + Z.max n 1 * Z.of_nat (length l) + n + 2 < 2 ^ 32 ->
    exists t' ts',
      setCounts n l t ts = Some (t', ts') /\
      trie n ts' t' /\
      ts <= ts' <= ts + Z.max n 1 * Z.of_nat (length l) /\
      (forall id d, 0 <= id < 2 ^ n -> getCount id t n = Some d ->
         getCount id t' n = Some (last_count l id d)).
Proof.
  intros Hn. induction l as [|[id0 v] l IH]; intros t ts Ht Hl Hcap H32.
  - exists t, ts. simpl. repeat split; auto; lia.
  - apply Forall_cons in Hl as [Hid0 Hl]. simpl in Hid0.
    cbn [length] in Hcap, H32.
    rewrite Nat2Z.inj_succ, Z.mul_succ_r in Hcap, H32.
    assert (Hm : 1 <= Z.max n 1) by lia.
    assert (Hm' : 0 <= Z.max n 1 * Z.of_nat (length l)) by lia.
    destruct (setCount_spec n ts t id0 v Ht Hn Hid0 ltac:(lia) ltac:(lia))
      as (t1 & ts1 & Hset & Hget & Ht1 & Hts1 & Hlen & Hfr).
    destruct (IH t1 ts1 Ht1 Hl ltac:(lia) ltac:(lia))
      as (t' & ts' & Hrun & Ht' & Hts' & Hres).
    exists t', ts'. split.
    { simpl. rewrite Hset. simpl. exact Hrun. }
    split; [exact Ht'|].
    split; [cbn [length]; rewrite Nat2Z.inj_succ, Z.mul_succ_r; lia|].
    intros id d Hid Hd. simpl. apply Hres; [exact Hid|].
    destruct (Z.eqb_spec id0 id) as [->|Hne]; [exact Hget|].
    rewrite Hfr by (auto; congruence). exact Hd.
Qed.

Lemma node_at_prefix t id n : forall (m k : nat),
  (k <= m)%nat -> is_Some (node_at t id n m) -> is_Some (node_at t id n k).
Proof.
  induction m as [|m IH]; intros k Hk Hm.
  - replace k with 0%nat by lia. exact Hm.
  - destruct (Nat.eq_dec k (S m)) as [->|Hne]; [exact Hm|].
    apply IH; [lia|]. simpl in Hm.
    destruct (node_at t id n m) as [x|]; [eauto|].
    destruct Hm as [? Hm]. discriminate.
Qed.

Lemma setCount_loop_present t id n ts y : forall (fuel k : nat) x,
  (k + fuel)%nat = Z.to_nat n ->
  node_at t id n k = Some x ->
  node_at t id n (Z.to_nat n) = Some y ->
  setCount_loop id n fuel (Z.of_nat k) t ts x 0 = Some (t, ts, y).
Proof.
  induction fuel as [|fuel IH]; intros k x Hk Hx Hy.
  - replace k with (Z.to_nat n) in Hx by lia.
    simpl. congruence.
  - destruct (node_at_prefix t id n (Z.to_nat n) (S k) ltac:(lia)
                ltac:(eauto)) as [c Hc].
    pose proof Hc as Hc'. simpl in Hc'. rewrite Hx in Hc'. simpl in Hc'.
    destruct (rd t x) as [w|] eqn:Hw; [|discriminate]. simpl in Hc'.
    destruct (Z.eqb_spec (half w (child_bit id n (Z.of_nat k))) 0)
      as [|Hnz]; [discriminate|].
    injection Hc' as Hc'.
    rewrite (setCount_loop_follow id n fuel (Z.of_nat k) t ts x w Hw Hnz).
    replace (Z.of_nat k + 1) with (Z.of_nat (S k)) by lia.
    rewrite Hc'. apply IH; [lia|exact Hc|exact Hy].
Qed.

End TrieMore.

Section TrieMoreClaims.
Import Mach Dbl Trie TrieSpec TableSpec.

(** On a well-formed trie with room, [setCount] keeps the trie well
    formed and the buffer as long as it was, takes at most [max n 1] new
    nodes, and leaves the count of every other assignment as it was. *)
Theorem setCount_keeps_other_counts (n ts : Z) (t : list Z) (id : Z)
    (v : float) :
  trie n ts t -> 0 <= n -> 0 <= id < 2 ^ n ->
  ts + Z.max n 1 < Z.of_nat (length t) -> ts + n + 2 < 2 ^ 32 ->
  exists t' ts',
    setCount id t n ts v = Some (t', ts') /\
    trie n ts' t' /\
    ts <= ts' <= ts + Z.max n 1 /\
    length t' = length t /\
    (forall id', 0 <= id' < 2 ^ n -> id' <> id ->
       getCount id' t' n = getCount id' t n).
Proof.
  intros Ht Hn Hid Hcap H32.
  destruct (setCount_spec n ts t id v Ht Hn Hid Hcap H32)
    as (t' & ts' & Hset & _ & Ht' & Hts' & Hlen & Hfr).
  exists t', ts'. auto.
Qed.

Lemma setCount_keeps_other_counts_witness :
  exists t' ts',
    setCount 5 Demo.trie_1 3 3 7%float = Some (t', ts') /\
    trie 3 ts' t' /\
    3 <= ts' <= 3 + Z.max 3 1 /\
    length t' = length Demo.trie_1 /\
    (forall id', 0 <= id' < 2 ^ 3 -> id' <> 5 ->
       getCount id' t' 3 = getCount id' Demo.trie_1 3).
Proof.
  apply (setCount_keeps_other_counts 3 3 Demo.trie_1 5 7%float).
  - exact demo_trie_1.
  - lia.
  - lia.
  - vm_compute. reflexivity.
  - vm_compute. reflexivity.
Defined.

(** [getCount] on a well-formed trie stays inside the buffer and returns a
    value, whatever the id, also one outside [0, 2^n). *)
Theorem getCount_in_bounds (n ts : Z) (t : list Z) (id : Z) :
  trie n ts t -> 0 <= n -> exists v, getCount id t n = Some v.
Proof.
  intros Ht Hn. destruct (getCount_total n ts t id Ht Hn) as [v Hv].
  exists v. exact Hv.
Qed.

Lemma getCount_in_bounds_witness :
  exists v, getCount (-1) Demo.trie_5 3 = Some v.
Proof.
  apply (getCount_in_bounds 3 3 Demo.trie_5 (-1)).
  - exact demo_trie_5.
  - lia.
Defined.

(** The trie is a finite map.  A sequence of [setCount]s into a
    well-formed trie with room for [max n 1] nodes per entry succeeds, and
    afterwards [getCount] returns for every assignment the value of its
    last entry in the sequence, and its former count when the sequence has
    no entry for it. *)
Theorem setCounts_getCount (n ts : Z) (t : list Z) (l : list (Z * float)) :
  trie n ts t -> 0 <= n ->
  Forall (fun e => 0 <= e.1 < 2 ^ n) l ->
  ts + Z.max n 1 * Z.of_nat (length l) < Z.of_nat (length t) ->
  ts + Z.max n 1 * Z.of_nat (length l) + n + 2 < 2 ^ 32 ->
  exists t' ts',
    setCounts n l t ts = Some (t', ts') /\
    trie n ts' t' /\
    (forall id d, 0 <= id < 2 ^ n -> getCount id t n = Some d ->
       getCount id t' n = Some (last_count l id d)).
Proof.
  intros Ht Hn Hl Hcap H32.
  destruct (setCounts_spec n Hn l t ts Ht Hl Hcap H32)
    as (t' & ts' & Hrun & Ht' & _ & Hres).
  exists t', ts'. auto.
Qed.

Lemma setCounts_getCount_witness :
  exists t' ts',
    setCounts 3 [(5, 7%float); (1, 2%float); (5, 3%float)]
      Demo.empty_trie 0 = Some (t', ts') /\
    trie 3 ts' t' /\
    (forall id d, 0 <= id < 2 ^ 3 ->
       getCount id Demo.empty_trie 3 = Some d ->
       getCount id t' 3
       = Some (last_count [(5, 7%float); (1, 2%float); (5, 3%float)] id d)).
Proof.
  apply (setCounts_getCount 3 0 Demo.empty_trie
           [(5, 7%float); (1, 2%float); (5, 3%float)]).
  - apply trie_empty. lia.
  - lia.
  - repeat constructor; simpl; lia.
  - vm_compute. reflexivity.
  - vm_compute. reflexivity.
Defined.

(** Where the path of [id] is already in the trie, [setCount] takes no
    new node: it leaves [treeSize] and the inner nodes alone and only
    overwrites the value word at the end of the path. *)
Theorem setCount_overwrite (t : list Z) (id n ts x : Z) (v : float) :
  0 < n ->
  node_at t id n (Z.to_nat n) = Some x ->
  setCount id t n ts v
  = (t' ← wr t x (double_as_longlong v); Some (t', ts)).
Proof.
  intros Hn Hx. unfold setCount.
  destruct (Z.eqb_spec n 0) as [?|_]; [lia|].
  pose proof (setCount_loop_present t id n ts x (Z.to_nat n) 0 0
                ltac:(lia) eq_refl Hx) as Hloop.
  change (Z.of_nat 0) with 0 in Hloop. rewrite Hloop.
  simpl. destruct (wr t x (double_as_longlong v)); reflexivity.
Qed.

Lemma setCount_overwrite_witness :
  setCount 5 Demo.trie_5 3 3 2%float
  = (t' ← wr Demo.trie_5 3 (double_as_longlong 2); Some (t', 3)).
Proof.
  apply (setCount_overwrite Demo.trie_5 5 3 3 3 2%float).
  - lia.
  - vm_compute. reflexivity.
Defined.

(** [setCount] does not check the capacity of the buffer.  When the first
    child on the path of [id] is missing and [treeSize] is already the
    last index of the buffer, the new node lies past the end and the next
    access to it is outside the buffer. *)
Theorem setCount_without_room (t : list Z) (id n ts w : Z) (v : float) :
  0 < n -> 0 <= ts -> ts + 2 < 2 ^ 32 ->
  rd t 0 = Some w ->
  half w (child_bit id n 0) = 0 ->
  Z.of_nat (length t) <= ts + 1 ->
  setCount id t n ts v = None.
Proof.
  intros Hn Hts H32 Hw Hz Hfull. unfold setCount.
  destruct (Z.eqb_spec n 0) as [?|_]; [lia|].
  destruct (Z.to_nat n) as [|fuel] eqn:Hfuel; [lia|].
  destruct (wr t 0 (set_half w (child_bit id n 0) (ts + 1)))
    as [t1|] eqn:Hwr.
  2:{ apply rd_Some_bounds in Hw.
      unfold wr in Hwr.
      destruct (Z.leb_spec 0 0); [|lia].
      destruct (Z.ltb_spec 0 (Z.of_nat (length t))); [|lia].
      discriminate. }
  rewrite (setCount_loop_link id n fuel 0 t ts ts 0 0 w t1 Hw Hz
             ltac:(left; split; reflexivity) Hts H32 Hwr).
  assert (Hlen : length t1 = length t) by (eapply wr_length; eauto).
  assert (Hout : rd t1 (ts + 1) = None).
  { unfold rd. destruct (Z.ltb_spec (ts + 1) 0); [reflexivity|].
    apply lookup_ge_None. lia. }
  destruct fuel as [|fuel'].
  - simpl. unfold wr.
    destruct (Z.ltb_spec (ts + 1) (Z.of_nat (length t1))); [lia|].
    rewrite andb_false_r. reflexivity.
  - simpl. rewrite Hout. reflexivity.
Qed.

Lemma setCount_without_room_witness :
  setCount 5 [0; 0] 3 1 7%float = None.
Proof.
  apply (setCount_without_room [0; 0] 5 3 1 0 7%float).
  - lia.
  - lia.
  - lia.
  - reflexivity.
  - reflexivity.
  - simpl. lia.
Defined.

End TrieMoreClaims.

(** ** The conversion of an array into a trie *)

Section ResizeFacts.
Import Mach Dbl Trie TrieSpec Resize.

Lemma resize_launch_spec bld n old startId id_offset :
  0 <= n ->
  forall threads g st,
    trie n (treeSize st) (tree st) ->
    0 <= g + id_offset ->
    g + id_offset + Z.of_nat threads <= Z.of_nat (length old) ->
    0 <= g + id_offset + startId ->
    g + id_offset + startId + Z.of_nat threads <= 2 ^ n ->
    treeSize st + Z.max n 1 * Z.of_nat threads < Z.of_nat (length (tree st)) ->
    treeSize st + Z.max n 1 * Z.of_nat threads + n + 2 < 2 ^ 32 ->
    exists st',
      launch_from (resize bld n old startId id_offset) threads g st
      = Some st' /\
      trie n (treeSize st') (tree st') /\
      (forall id, 0 <= id < 2 ^ n ->
         getCount id (tree st') n =
           match rd old (id - startId) with
           | Some v =>
               if (g + id_offset + startId <=? id)
                  && (id <? g + id_offset + startId + Z.of_nat threads)
                  && gt0 v
               then Some v else getCount id (tree st) n
           | None => getCount id (tree st) n
           end) /\
      (if NO_EXP bld then exponent st' = exponent st
       else
         exponent st <= exponent st' /\
         (forall j v, g + id_offset <= j < g + id_offset + Z.of_nat threads ->
            rd old j = Some v -> gt0 v = true -> ilogb v <= exponent st') /\
         (exponent st' = exponent st \/
          exists j v,
            g + id_offset <= j < g + id_offset + Z.of_nat threads /\
            rd old j = Some v /\ gt0 v = true /\
            exponent st' = ilogb v)).
Proof.
  intros Hn.
  induction threads as [|k IH];
    intros g st Ht Hlo Hhi Hlo' Hhi' Hcap H32.
  - exists st. split; [reflexivity|]. split; [exact Ht|]. split.
    + intros id Hid. destruct (rd old (id - startId)); [|reflexivity].
      destruct (Z.leb_spec (g + id_offset + startId) id),
               (Z.ltb_spec id (g + id_offset + startId + Z.of_nat 0));
        try reflexivity. lia.
    + destruct (NO_EXP bld); [reflexivity|].
      split; [lia|]. split; [intros; lia|left; reflexivity].
  - rewrite Nat2Z.inj_succ, Z.mul_succ_r in Hcap, H32.
    rewrite Nat2Z.inj_succ in Hhi, Hhi'.
    assert (Hm : 1 <= Z.max n 1) by lia.
    assert (Hm' : 0 <= Z.max n 1 * Z.of_nat k) by lia.
    destruct (rd_is_Some old (g + id_offset) ltac:(lia)) as [v Hv].
    assert (Hstep : exists st1,
      resize bld n old startId id_offset g st = Some st1 /\
      trie n (treeSize st1) (tree st1) /\
      treeSize st <= treeSize st1 <= treeSize st + Z.max n 1 /\
      length (tree st1) = length (tree st) /\
      getCount (g + id_offset + startId) (tree st1) n
      = (if gt0 v then Some v
         else getCount (g + id_offset + startId) (tree st) n) /\
      (forall id', 0 <= id' < 2 ^ n -> id' <> g + id_offset + startId ->
         getCount id' (tree st1) n = getCount id' (tree st) n) /\
      exponent st1
      = (if gt0 v && negb (NO_EXP bld)
         then Z.max (ilogb v) (exponent st) else exponent st)).
    { unfold resize. rewrite Hv. simpl. destruct (gt0 v).
      - destruct (setCount_spec n (treeSize st) (tree st)
                    (g + id_offset + startId) v Ht Hn
                    ltac:(lia) ltac:(lia) ltac:(lia))
          as (t1 & ts1 & Hset & Hget & Ht1 & Hts1 & Hlen & Hfr).
        rewrite Hset. simpl. eexists. split; [reflexivity|]. simpl.
        repeat split; auto; try lia.
        destruct (NO_EXP bld); reflexivity.
      - exists st. repeat split; auto; lia. }
    destruct Hstep
      as (st1 & Hrun & Ht1 & Hts1 & Hlen1 & Hown & Hfr & Hexp).
    simpl. rewrite Hrun. simpl.
    destruct (IH (g + 1) st1 Ht1 ltac:(lia) ltac:(lia) ltac:(lia)
                ltac:(lia) ltac:(lia) ltac:(lia))
      as (st' & Hl & Ht' & Hres & Hexp').
    exists st'. split; [exact Hl|]. split; [exact Ht'|]. split.
    + intros id Hid. rewrite (Hres id Hid).
      destruct (Z.eq_dec id (g + id_offset + startId)) as [->|Hne].
      * replace (g + id_offset + startId - startId) with (g + id_offset)
          by lia.
        rewrite Hv.
        destruct (Z.leb_spec (g + 1 + id_offset + startId)
                    (g + id_offset + startId)); [lia|].
        destruct (Z.leb_spec (g + id_offset + startId)
                    (g + id_offset + startId)); [|lia].
        destruct (Z.ltb_spec (g + id_offset + startId)
                    (g + id_offset + startId + Z.of_nat (S k)));
          [|lia].
        simpl. exact Hown.
      * rewrite (Hfr id Hid Hne).
        destruct (rd old (id - startId)) as [v'|]; [|reflexivity].
        destruct (Z.leb_spec (g + 1 + id_offset + startId) id),
                 (Z.leb_spec (g + id_offset + startId) id); try lia;
        destruct (Z.ltb_spec id (g + 1 + id_offset + startId + Z.of_nat k)),
                 (Z.ltb_spec id (g + id_offset + startId
                                 + Z.of_nat (S k)));
          try lia; reflexivity.
    + destruct (NO_EXP bld).
      * rewrite Hexp', Hexp. rewrite andb_false_r. reflexivity.
      * rewrite andb_true_r in Hexp.
        destruct Hexp' as (Hmono & Hub & Hwit).
        assert (Hmono1 : exponent st <= exponent st1)
          by (rewrite Hexp; destruct (gt0 v); lia).
        split; [lia|]. split.
        { intros j v' Hj Hv' Hpos.
          destruct (Z.eq_dec j (g + id_offset)) as [->|Hne].
          - assert (v' = v) as -> by congruence.
            rewrite Hpos in Hexp. lia.
          - apply (Hub j v'); [lia|exact Hv'|exact Hpos]. }
        { destruct Hwit as [E|(j & v' & Hj & Hv' & Hpos & E)].
          - rewrite E, Hexp. destruct (gt0 v) eqn:Hpos;
              [|left; reflexivity].
            destruct (Z.max_spec (ilogb v) (exponent st)) as [[_ ->]|[_ ->]];
              [left; reflexivity|].
            right. exists (g + id_offset), v. repeat split; auto; lia.
          - right. exists j, v'. repeat split; auto; lia. }
Qed.

End ResizeFacts.

Section ResizeClaims.
Import Mach Dbl Trie TrieSpec Resize.

(** A launch of [resize] over the entries [id_offset ..
    id_offset + threads - 1] of an array turns the array into a trie: with
    room for [max n 1] nodes per entry the launch succeeds, the trie stays
    well formed, every positive entry of the array is the count of its
    assignment ([startId] added to its index), and every other assignment
    keeps the count it had. *)
Theorem resize_array_to_trie (bld : build) (n : Z) (old : list float)
    (startId id_offset : Z) (threads : nat) (st : state) :
  0 <= n ->
  trie n (treeSize st) (tree st) ->
  0 <= id_offset ->
  id_offset + Z.of_nat threads <= Z.of_nat (length old) ->
  0 <= id_offset + startId ->
  id_offset + startId + Z.of_nat threads <= 2 ^ n ->
  treeSize st + Z.max n 1 * Z.of_nat threads < Z.of_nat (length (tree st)) ->
  treeSize st + Z.max n 1 * Z.of_nat threads + n + 2 < 2 ^ 32 ->
  exists st',
    resize_launch bld n old startId id_offset threads st = Some st' /\
    trie n (treeSize st') (tree st') /\
    (forall id, 0 <= id < 2 ^ n ->
       getCount id (tree st') n =
         match rd old (id - startId) with
         | Some v =>
             if (id_offset + startId <=? id)
                && (id <? id_offset + startId + Z.of_nat threads)
                && gt0 v
             then Some v else getCount id (tree st) n
         | None => getCount id (tree st) n
         end).
Proof.
  intros Hn Ht Hlo Hhi Hlo' Hhi' Hcap H32.
  destruct (resize_launch_spec bld n old startId id_offset Hn threads 0 st
              Ht Hlo Hhi Hlo' Hhi' Hcap H32)
    as (st' & Hl & Ht' & Hres & _).
  exists st'. split; [exact Hl|]. split; [exact Ht'|]. exact Hres.
Qed.

Lemma resize_array_to_trie_witness :
  exists st',
    Resize.resize_launch Demo.trie_exp 2 Sample.counts 0 0 4
      Sample.resize_state = Some st' /\
    trie 2 (Resize.treeSize st') (Resize.tree st') /\
    (forall id, 0 <= id < 2 ^ 2 ->
       getCount id (Resize.tree st') 2 =
         match rd Sample.counts (id - 0) with
         | Some v =>
             if (0 + 0 <=? id) && (id <? 0 + 0 + Z.of_nat 4) && gt0 v
             then Some v
             else getCount id (Resize.tree Sample.resize_state) 2
         | None => getCount id (Resize.tree Sample.resize_state) 2
         end).
Proof.
  apply (resize_array_to_trie Demo.trie_exp 2 Sample.counts 0 0 4
           Sample.resize_state).
  - lia.
  - apply trie_empty. lia.
  - lia.
  - simpl. lia.
  - lia.
  - simpl. lia.
  - vm_compute. reflexivity.
  - vm_compute. reflexivity.
Defined.

(** With exponents, the launch of [resize] leaves in the exponent cell the
    maximum of its former content and of [ilogb] of the positive entries
    converted: the cell does not decrease, it bounds [ilogb] of every
    positive entry of the launch, and it is its former content or [ilogb]
    of one of these entries.  Without exponents the cell is left alone. *)
Theorem resize_exponent (bld : build) (n : Z) (old : list float)
    (startId id_offset : Z) (threads : nat) (st : state) :
  0 <= n ->
  trie n (treeSize st) (tree st) ->
  0 <= id_offset ->
  id_offset + Z.of_nat threads <= Z.of_nat (length old) ->
  0 <= id_offset + startId ->
  id_offset + startId + Z.of_nat threads <= 2 ^ n ->
  treeSize st + Z.max n 1 * Z.of_nat threads < Z.of_nat (length (tree st)) ->
  treeSize st + Z.max n 1 * Z.of_nat threads + n + 2 < 2 ^ 32 ->
  exists st',
    resize_launch bld n old startId id_offset threads st = Some st' /\
    (if NO_EXP bld then exponent st' = exponent st
     else
       exponent st <= exponent st' /\
       (forall j v, id_offset <= j < id_offset + Z.of_nat threads ->
          rd old j = Some v -> gt0 v = true -> ilogb v <= exponent st') /\
       (exponent st' = exponent st \/
        exists j v,
          id_offset <= j < id_offset + Z.of_nat threads /\
          rd old j = Some v /\ gt0 v = true /\
          exponent st' = ilogb v)).
Proof.
  intros Hn Ht Hlo Hhi Hlo' Hhi' Hcap H32.
  destruct (resize_launch_spec bld n old startId id_offset Hn threads 0 st
              Ht Hlo Hhi Hlo' Hhi' Hcap H32)
    as (st' & Hl & _ & _ & Hexp).
  exists st'. split; [exact Hl|]. exact Hexp.
Qed.

Lemma resize_exponent_witness :
  exists st',
    Resize.resize_launch Demo.trie_exp 2 Sample.counts 0 0 4
      Sample.resize_state = Some st' /\
    (if NO_EXP Demo.trie_exp
     then Resize.exponent st' = Resize.exponent Sample.resize_state
     else
       Resize.exponent Sample.resize_state <= Resize.exponent st' /\
       (forall j v, 0 <= j < 0 + Z.of_nat 4 ->
          rd Sample.counts j = Some v -> gt0 v = true ->
          ilogb v <= Resize.exponent st') /\
       (Resize.exponent st' = Resize.exponent Sample.resize_state \/
        exists j v,
          0 <= j < 0 + Z.of_nat 4 /\
          rd Sample.counts j = Some v /\ gt0 v = true /\
          Resize.exponent st' = ilogb v)).
Proof.
  apply (resize_exponent Demo.trie_exp 2 Sample.counts 0 0 4
           Sample.resize_state).
  - lia.
  - apply trie_empty. lia.
  - lia.
  - simpl. lia.
  - lia.
  - simpl. lia.
  - vm_compute. reflexivity.
  - vm_compute. reflexivity.
Defined.

End ResizeClaims.

(** ** More on the clause check and on the leaves *)

Section LeafClaims.
Import Mach Dbl Bag ClauseSpec TrieSpec.

Lemma small_bag_ok : Forall var_ok Demo.small_bag.
Proof. repeat constructor; unfold var_ok; lia. Qed.

Lemma small_bag_clauses :
  Forall (Forall (in_bag Demo.small_bag)) [[1; -2]; [2]].
Proof.
  repeat constructor.
  - exists 1. split; [compute_done|left; reflexivity].
  - exists 2. split; [compute_done|right; reflexivity].
  - exists 2. split; [compute_done|left; reflexivity].
Qed.

(** For a bag of at most 32 distinct variables and an assignment of the
    bag, [checkBag] on clauses over the bag returns 1 when every clause
    has a literal that the assignment satisfies, and 0 otherwise. *)
Theorem checkBag_narrow_bag (variables : list Z) (id : Z)
    (cls : list (list Z)) :
  Forall var_ok variables -> NoDup variables ->
  (length variables <= 32)%nat ->
  0 <= id < 2 ^ Z.of_nat (length variables) ->
  Forall (Forall (in_bag variables)) cls ->
  checkBag (flat cls) (lengths cls) (Z.of_nat (length cls)) id
    (Z.of_nat (length variables)) variables
  = Some (if bag_satisfied variables id cls then 1 else 0).
Proof. apply checkBag_bag_local. Qed.

Lemma checkBag_narrow_bag_witness :
  checkBag (flat [[1; -2]; [2]]) (lengths [[1; -2]; [2]])
    (Z.of_nat (length [[1; -2]; [2]])) 3
    (Z.of_nat (length Demo.small_bag)) Demo.small_bag
  = Some (if bag_satisfied Demo.small_bag 3 [[1; -2]; [2]] then 1 else 0).
Proof.
  apply (checkBag_narrow_bag Demo.small_bag 3 [[1; -2]; [2]]).
  - exact small_bag_ok.
  - compute_done.
  - simpl. lia.
  - simpl. lia.
  - exact small_bag_clauses.
Defined.

(** A clause without literals is never satisfied: [checkBag] returns 0
    for every assignment as soon as the clause set holds an empty
    clause. *)
Theorem checkBag_empty_clause (variables : list Z) (id : Z)
    (cls : list (list Z)) :
  [] ∈ cls ->
  checkBag (flat cls) (lengths cls) (Z.of_nat (length cls)) id
    (Z.of_nat (length variables)) variables
  = Some 0.
Proof.
  intros Hin. rewrite checkBag_flat. f_equal.
  destruct (bag_pass_bool id variables cls) as [E|E]; [exact E|].
  apply bag_pass_1_iff in E.
  rewrite Forall_forall in E. specialize (E [] Hin).
  simpl in E. discriminate.
Qed.

Lemma checkBag_empty_clause_witness :
  checkBag (flat [[1; 5]; []]) (lengths [[1; 5]; []])
    (Z.of_nat (length [[1; 5]; [] : list Z])) 3
    (Z.of_nat (length Demo.small_bag)) Demo.small_bag
  = Some 0.
Proof.
  apply (checkBag_empty_clause Demo.small_bag 3 [[1; 5]; []]).
  apply elem_of_cons. right. apply elem_of_cons. left. reflexivity.
Defined.

(** A leaf without weights: for a bag of at most 32 distinct variables
    [solveIntroduceF] without a child table returns 1.0 for an assignment
    that satisfies the clauses over the bag and 0.0 for any other. *)
Theorem solveIntroduceF_leaf (bld : build) (variables : list Z) (id : Z)
    (cls : list (list Z)) (numVE : Z) (edgeVariables : option (list Z))
    (minId maxId : Z) :
  Forall var_ok variables -> NoDup variables ->
  (length variables <= 32)%nat ->
  0 <= id < 2 ^ Z.of_nat (length variables) ->
  Forall (Forall (in_bag variables)) cls ->
  solveIntroduceF bld (flat cls) (lengths cls) (Z.of_nat (length cls))
    (Z.of_nat (length variables)) None numVE variables edgeVariables
    minId maxId None id
  = Some (if bag_satisfied variables id cls then 1%float else 0%float).
Proof.
  intros Hok Hnd Hlen Hid Hcls.
  rewrite (solveIntroduceF_clause_check bld _ _ _ _ None numVE variables
             edgeVariables minId maxId None id 1%float
             (if bag_satisfied variables id cls then 1 else 0)).
  - destruct (bag_satisfied variables id cls); reflexivity.
  - reflexivity.
  - apply checkBag_bag_local; assumption.
Qed.

Lemma solveIntroduceF_leaf_witness :
  solveIntroduceF Demo.array_exp (flat [[1; -2]; [2]])
    (lengths [[1; -2]; [2]]) (Z.of_nat (length [[1; -2]; [2]]))
    (Z.of_nat (length Demo.small_bag)) None 0 Demo.small_bag None 0 0 None 2
  = Some (if bag_satisfied Demo.small_bag 2 [[1; -2]; [2]]
          then 1%float else 0%float).
Proof.
  apply (solveIntroduceF_leaf Demo.array_exp Demo.small_bag 2
           [[1; -2]; [2]] 0 None 0 0).
  - exact small_bag_ok.
  - compute_done.
  - simpl. lia.
  - simpl. lia.
  - exact small_bag_clauses.
Defined.

(** Whatever the child lookup yields, [solveIntroduceF] returns a count:
    0.0 or a positive value.  The value -1.0 by which [solveIntroduce_]
    marks a child id outside [minId, maxId) is turned into 0.0. *)
Theorem solveIntroduceF_count (bld : build) (clauses numVarsC : list Z)
    (numclauses numV : Z) (edge : option (list Z)) (numVE : Z)
    (variables : list Z) (edgeVariables : option (list Z))
    (minId maxId : Z) (weights : option (list float)) (id : Z) (r : float) :
  solveIntroduceF bld clauses numVarsC numclauses numV edge numVE variables
    edgeVariables minId maxId weights id = Some r ->
  is_count r.
Proof.
  unfold solveIntroduceF, is_count. intros H.
  destruct (match edge with
            | Some _ => solveIntroduce_ bld numV edge numVE variables
                          edgeVariables minId maxId weights id
            | None => bag_weight weights variables numV id 1%float
            end) as [tmp|]; [|discriminate].
  simpl in H. destruct (gt0 tmp) eqn:Hpos.
  - destruct (checkBag clauses numVarsC numclauses id numV variables)
      as [sat|]; [|discriminate].
    simpl in H. destruct (negb (sat =? 1)); injection H as <-; auto.
  - injection H as <-. auto.
Qed.

Lemma solveIntroduceF_count_witness :
  solveIntroduceF Demo.array_exp (flat [[1; -2]; [2]])
    (lengths [[1; -2]; [2]]) 2 2 (Some [Demo.d 3; Demo.d 0]) 1
    Demo.small_bag (Some [1]) 4 6 None 2 = Some 0%float /\
  is_count 0%float.
Proof.
  assert (H : solveIntroduceF Demo.array_exp (flat [[1; -2]; [2]])
                (lengths [[1; -2]; [2]]) 2 2 (Some [Demo.d 3; Demo.d 0]) 1
                Demo.small_bag (Some [1]) 4 6 None 2 = Some 0%float)
    by (vm_compute; reflexivity).
  split; [exact H|].
  exact (solveIntroduceF_count _ _ _ _ _ _ _ _ _ _ _ _ _ _ H).
Defined.

End LeafClaims.

(** ** Slots outside a launch *)

Section FrameClaims.
Import Mach Dbl.

(** A launch of [solveJoin] writes the slots of its own workers only:
    every slot outside [id_offset - startIDNode,
    id_offset - startIDNode + threads) holds what it held before. *)
Theorem solveJoin_launch_frame (bld : build) (p : Join.args)
    (threads : nat) (st st' : Join.state) (s : Z) :
  Join.solveJoin_launch bld p threads st = Some st' ->
  ~ (Join.id_offset p - Join.startIDNode p <= s
     < Join.id_offset p - Join.startIDNode p + Z.of_nat threads) ->
  rd (Join.solutions st') s = rd (Join.solutions st) s.
Proof.
  intros Hl Hs. unfold Join.solveJoin_launch, launch in Hl.
  apply (launch_from_other_slots bld p threads 0 st st' s Hl).
  intros j Hj. lia.
Qed.

Lemma solveJoin_launch_frame_witness :
  exists st',
    Join.solveJoin_launch Demo.array_exp (Demo.join_args 0 0) 2
      Demo.join_state = Some st' /\
    rd (Join.solutions st') 3 = rd (Join.solutions Demo.join_state) 3.
Proof.
  eexists. split; [vm_compute; reflexivity|].
  apply (solveJoin_launch_frame Demo.array_exp (Demo.join_args 0 0) 2
           Demo.join_state _ 3).
  - vm_compute. reflexivity.
  - simpl. lia.
Defined.

(** In the array build a launch of [solveIntroduceForget] writes the
    slots of its own workers only. *)
Theorem solveIntroduceForget_launch_frame (bld : build)
    (p : IntroForget.args) (threads : nat) (st st' : IntroForget.state)
    (s : Z) :
  ARRAY_TYPE bld = true ->
  IntroForget.solveIntroduceForget_launch bld p threads st = Some st' ->
  ~ (IntroForget.id_offset p - IntroForget.startIDF p <= s
     < IntroForget.id_offset p - IntroForget.startIDF p + Z.of_nat threads) ->
  rd (IntroForget.solsF st') s = rd (IntroForget.solsF st) s.
Proof.
  intros Ha Hl Hs.
  unfold IntroForget.solveIntroduceForget_launch, launch in Hl.
  apply (launch_from_IF_other_slots bld p threads Ha 0 st st' s Hl).
  intros j Hj. lia.
Qed.

Lemma solveIntroduceForget_launch_frame_witness :
  exists st',
    IntroForget.solveIntroduceForget_launch Demo.array_exp Sample.leaf_args
      2 Sample.leaf_array = Some st' /\
    rd (IntroForget.solsF st') 3
    = rd (IntroForget.solsF Sample.leaf_array) 3.
Proof.
  eexists. split; [vm_compute; reflexivity|].
  apply (solveIntroduceForget_launch_frame Demo.array_exp Sample.leaf_args
           2 Sample.leaf_array _ 3).
  - reflexivity.
  - vm_compute. reflexivity.
  - simpl. lia.
Defined.

End FrameClaims.

(** ** The child lookup and the weights of the introduced variables *)

Section ListFacts.

Lemma rd_middle {A} (pre : list A) v rest :
  rd (pre ++ v :: rest) (Z.of_nat (length pre)) = Some v.
Proof.
  unfold rd. destruct (Z.ltb_spec (Z.of_nat (length pre)) 0); [lia|].
  rewrite Nat2Z.id. apply list_lookup_middle. reflexivity.
Qed.

Lemma NoDup_app_cons_not_in (pre : list Z) v rest :
  NoDup (pre ++ v :: rest) -> (v ∉ pre) /\ (v ∉ rest).
Proof.
  intros H. apply NoDup_app in H as (_ & Hd & Hr).
  apply NoDup_cons in Hr as (Hr & _). split; [|exact Hr].
  intros Hin. apply (Hd v Hin). apply elem_of_cons. left. reflexivity.
Qed.

Lemma sublist_cons_head (v : Z) es rest :
  (v :: es) `sublist_of` (v :: rest) -> v ∉ rest -> es `sublist_of` rest.
Proof.
  intros H Hn. apply sublist_cons_r in H as [H|(l' & E & H)].
  - exfalso. apply Hn. eapply elem_of_sublist; [|exact H].
    apply elem_of_cons. left. reflexivity.
  - injection E as <-. exact H.
Qed.

Lemma sublist_cons_other (e v : Z) es rest :
  (e :: es) `sublist_of` (v :: rest) -> v <> e ->
  (e :: es) `sublist_of` rest.
Proof.
  intros H Hne. apply sublist_cons_r in H as [H|(l' & E & H)];
    [exact H|]. congruence.
Qed.

End ListFacts.

Section IntroducedWeights.
Import Mach Dbl Bag TableSpec.

Lemma introduced_weight_loop_spec ws variables ev id :
  NoDup variables ->
  forall vs pre (b : nat) weight,
    variables = pre ++ vs ->
    (b < length ev)%nat ->
    (forall x, x ∈ take b ev -> x ∈ pre) ->
    (drop b ev `sublist_of` vs \/
     (S b = length ev /\ forall x, x ∈ ev -> x ∈ pre)) ->
    introduced_weight_loop ws variables (Some ev)
      (Z.of_nat (length variables)) (Z.of_nat (length ev)) id
      (length vs) (Z.of_nat (length pre)) (Z.of_nat b) weight
    = introduced_product ws id ev vs (Z.of_nat (length pre)) weight.
Proof.
  intros Hnd.
  induction vs as [|v vs IH]; intros pre b weight Hsplit Hb Htake Hrest.
  - reflexivity.
  - assert (Hlen : Z.of_nat (length pre) < Z.of_nat (length variables)).
    { rewrite Hsplit, length_app. simpl. lia. }
    assert (Hv : rd variables (Z.of_nat (length pre)) = Some v)
      by (rewrite Hsplit; apply rd_middle).
    destruct (lookup_lt_is_Some_2 ev b Hb) as [e He].
    assert (Hre : rd ev (Z.of_nat b) = Some e)
      by (rewrite rd_nat; exact He).
    assert (Hdrop : drop b ev = e :: drop (S b) ev)
      by (apply drop_S; exact He).
    assert (Hsplit' : variables = (pre ++ [v]) ++ vs)
      by (rewrite <- app_assoc; exact Hsplit).
    assert (Hlen' : Z.of_nat (length pre) + 1
                    = Z.of_nat (length (pre ++ [v])))
      by (rewrite length_app; simpl; lia).
    pose proof Hnd as Hnd'. rewrite Hsplit in Hnd'.
    apply NoDup_app_cons_not_in in Hnd' as (Hvpre & Hvvs).
    assert (Hev : ev = take b ev ++ e :: drop (S b) ev)
      by (rewrite <- Hdrop; symmetry; apply take_drop).
    cbn [length introduced_weight_loop introduced_product].
    destruct (Z.ltb_spec (Z.of_nat (length pre))
                (Z.of_nat (length variables))); [|lia].
    rewrite Hv. cbn [mbind option_bind]. rewrite Hre.
    cbn [mbind option_bind].
    destruct (Z.eqb_spec v e) as [<-|Hne].
    + (* the next child variable *)
      assert (Hin : v ∈ ev)
        by (eapply list_elem_of_lookup_2; exact He).
      rewrite bool_decide_eq_true_2 by exact Hin.
      cbn [negb andb]. rewrite Hlen'.
      assert (Hsub : drop (S b) ev `sublist_of` vs).
      { destruct Hrest as [Hs|[_ Hall] ].
        - rewrite Hdrop in Hs. apply sublist_cons_head in Hs; assumption.
        - exfalso. apply Hvpre. apply Hall. exact Hin. }
      assert (Htake' : forall x, x ∈ take (S b) ev -> x ∈ pre ++ [v]).
      { intros x Hx. rewrite (take_S_r ev b v He) in Hx.
        apply elem_of_app in Hx as [Hx|Hx]; apply elem_of_app;
          [left; auto|right; exact Hx]. }
      destruct (Z.ltb_spec (Z.of_nat b) (Z.of_nat (length ev) - 1)).
      * replace (Z.of_nat b + 1) with (Z.of_nat (S b)) by lia.
        apply IH; [exact Hsplit'|lia|exact Htake'|left; exact Hsub].
      * apply IH; [exact Hsplit'|exact Hb| |].
        { intros x Hx. apply elem_of_app. left. auto. }
        right. split; [lia|].
        intros x Hx. apply Htake'.
        rewrite take_ge by lia. exact Hx.
    + (* an introduced variable *)
      assert (Hnin : v ∉ ev).
      { intros Hin. rewrite Hev in Hin.
        apply elem_of_app in Hin as [Hin|Hin]; [auto|].
        apply elem_of_cons in Hin as [Hin|Hin]; [congruence|].
        destruct Hrest as [Hs|[_ Hall] ].
        - rewrite Hdrop in Hs. apply sublist_cons_other in Hs; [|exact Hne].
          apply Hvvs. eapply elem_of_sublist; [|exact Hs].
          apply elem_of_cons. right. exact Hin.
        - apply Hvpre, Hall. rewrite Hev.
          apply elem_of_app. right. apply elem_of_cons. right. exact Hin. }
      rewrite bool_decide_eq_false_2 by exact Hnin.
      cbn [negb andb].
      destruct (literal_weight ws id (Z.of_nat (length pre)) v) as [w|];
        [|reflexivity].
      cbn [mbind option_bind]. rewrite Hlen'.
      apply IH; [exact Hsplit'|exact Hb| |].
      { intros x Hx. apply elem_of_app. left. auto. }
      destruct Hrest as [Hs|[Hlast Hall] ].
      * left. rewrite Hdrop in Hs |- *.
        apply sublist_cons_other in Hs; assumption.
      * right. split; [exact Hlast|].
        intros x Hx. apply elem_of_app. left. auto.
Qed.

Lemma introduced_weight_loop_null ws variables numVE id :
  forall vs pre weight,
    variables = pre ++ vs ->
    introduced_weight_loop ws variables None
      (Z.of_nat (length variables)) numVE id
      (length vs) (Z.of_nat (length pre)) 0 weight
    = introduced_product ws id [] vs (Z.of_nat (length pre)) weight.
Proof.
  induction vs as [|v vs IH]; intros pre weight Hsplit; [reflexivity|].
  assert (Hlen : Z.of_nat (length pre) < Z.of_nat (length variables)).
  { rewrite Hsplit, length_app. simpl. lia. }
  assert (Hv : rd variables (Z.of_nat (length pre)) = Some v)
    by (rewrite Hsplit; apply rd_middle).
  cbn [length introduced_weight_loop introduced_product].
  destruct (Z.ltb_spec (Z.of_nat (length pre))
              (Z.of_nat (length variables))); [|lia].
  rewrite Hv. cbn [mbind option_bind].
  rewrite bool_decide_eq_false_2 by (apply not_elem_of_nil).
  destruct (literal_weight ws id (Z.of_nat (length pre)) v) as [w|];
    [|reflexivity].
  cbn [mbind option_bind negb andb].
  replace (Z.of_nat (length pre) + 1)
    with (Z.of_nat (length (pre ++ [v])))
    by (rewrite length_app; simpl; lia).
  apply IH. rewrite <- app_assoc. exact Hsplit.
Qed.

End IntroducedWeights.

Section LookupClaims.
Import Mach Dbl Bag TableSpec.

(** The weight loop of [solveIntroduce_] multiplies the literal weights
    of the introduced variables only: of the variables of the bag that
    are not in the child bag, each at its position in the bag.  Without a
    child bag every variable of the bag is introduced. *)
Theorem introduced_weights (ws : list float) (variables ev : list Z)
    (numVE id : Z) :
  NoDup variables -> ev `sublist_of` variables -> ev <> [] ->
  introduced_weight_loop ws variables (Some ev)
    (Z.of_nat (length variables)) (Z.of_nat (length ev)) id
    (Z.to_nat (Z.of_nat (length variables))) 0 0 1%float
  = introduced_product ws id ev variables 0 1%float
  /\
  introduced_weight_loop ws variables None
    (Z.of_nat (length variables)) numVE id
    (Z.to_nat (Z.of_nat (length variables))) 0 0 1%float
  = introduced_product ws id [] variables 0 1%float.
Proof.
  intros Hnd Hsub Hne. rewrite Nat2Z.id. split.
  - apply (introduced_weight_loop_spec ws variables ev id Hnd variables []
             0%nat 1%float).
    + reflexivity.
    + destruct ev; [congruence|simpl; lia].
    + intros x Hx. simpl in Hx. exact Hx.
    + left. exact Hsub.
  - apply (introduced_weight_loop_null ws variables numVE id variables []
             1%float). reflexivity.
Qed.

Lemma introduced_weights_witness :
  introduced_weight_loop Sample.literal_weights [1; 2; 3] (Some [1; 3])
    (Z.of_nat (length [1; 2; 3])) (Z.of_nat (length [1; 3])) 5
    (Z.to_nat (Z.of_nat (length [1; 2; 3]))) 0 0 1%float
  = introduced_product Sample.literal_weights 5 [1; 3] [1; 2; 3] 0 1%float
  /\
  introduced_weight_loop Sample.literal_weights [1; 2; 3] None
    (Z.of_nat (length [1; 2; 3])) 0 5
    (Z.to_nat (Z.of_nat (length [1; 2; 3]))) 0 0 1%float
  = introduced_product Sample.literal_weights 5 [] [1; 2; 3] 0 1%float.
Proof.
  apply (introduced_weights Sample.literal_weights [1; 2; 3] [1; 3] 0 5).
  - compute_done.
  - apply sublist_skip, sublist_cons, sublist_skip, sublist_nil.
  - discriminate.
Defined.

(** [solveIntroduce_] without weights, for a child bag whose variables
    are a subsequence of the distinct variables of the bag: the child id
    has at bit [b] the bit of [id] at the bag position of the [b]-th child
    variable; the result is -1.0 when the child id is outside
    [minId, maxId), 0.0 when it is inside and there is no child table, and
    else the entry of the table at the child id: slot [otherId - minId] of
    an array, [getCount] of a trie. *)
Theorem solveIntroduce_lookup (bld : build) (variables ev : list Z)
    (edge : option (list Z)) (minId maxId id : Z) :
  ev `sublist_of` variables -> NoDup variables -> (length ev <= 64)%nat ->
  exists otherId,
    (forall (b pos : nat) v,
       ev !! b = Some v -> variables !! pos = Some v ->
       Z.testbit otherId (Z.of_nat b) = Z.testbit id (Z.of_nat pos)) /\
    (forall j, Z.of_nat (length ev) <= j < 64 ->
       Z.testbit otherId j = false) /\
    solveIntroduce_ bld (Z.of_nat (length variables)) edge
      (Z.of_nat (length ev)) variables (Some ev) minId maxId None id
    = if (otherId >=? minId) && (otherId <? maxId)
      then match edge with
           | Some e =>
               if ARRAY_TYPE bld
               then w ← rd e (otherId - minId);
                    Some (longlong_as_double w * 1)%float
               else c ← Trie.getCount otherId e (Z.of_nat (length ev));
                    Some (c * 1)%float
           | None => Some 0%float
           end
      else Some (-1)%float.
Proof.
  intros Hsub Hnd Hlen.
  destruct (merge_loop_spec variables ev id ev 0%nat 0 0)
    as (a & o & Hm & Ha & Hbitsall); [lia|reflexivity|exact Hsub|lia|].
  destruct (Hbitsall Hnd Hlen) as (_ & Hbits & Hhigh).
  { intros j _. apply Z.bits_0. }
  exists o. split.
  { intros b pos v Hb Hpos. eapply Hbits; eauto. lia. }
  split; [exact Hhigh|].
  unfold solveIntroduce_. rewrite Nat2Z.id.
  change (Z.of_nat 0) with 0 in Hm. rewrite Hm.
  cbn [mbind option_bind].
  destruct edge as [e|];
    destruct ((o >=? minId) && (o <? maxId)); reflexivity.
Qed.

Lemma solveIntroduce_lookup_witness :
  exists otherId,
    (forall (b pos : nat) v,
       [1; 3] !! b = Some v -> [1; 2; 3] !! pos = Some v ->
       Z.testbit otherId (Z.of_nat b) = Z.testbit 5 (Z.of_nat pos)) /\
    (forall j, Z.of_nat (length [1; 3]) <= j < 64 ->
       Z.testbit otherId j = false) /\
    solveIntroduce_ Demo.array_exp (Z.of_nat (length [1; 2; 3]))
      (Some [Demo.d 3; Demo.d 0; Demo.d 5; Demo.d 2])
      (Z.of_nat (length [1; 3])) [1; 2; 3] (Some [1; 3]) 0 4 None 5
    = if (otherId >=? 0) && (otherId <? 4)
      then match Some [Demo.d 3; Demo.d 0; Demo.d 5; Demo.d 2] with
           | Some e =>
               if ARRAY_TYPE Demo.array_exp
               then w ← rd e (otherId - 0);
                    Some (longlong_as_double w * 1)%float
               else c ← Trie.getCount otherId e (Z.of_nat (length [1; 3]));
                    Some (c * 1)%float
           | None => Some 0%float
           end
      else Some (-1)%float.
Proof.
  apply (solveIntroduce_lookup Demo.array_exp [1; 2; 3] [1; 3]
           (Some [Demo.d 3; Demo.d 0; Demo.d 5; Demo.d 2]) 0 4 5).
  - apply sublist_skip, sublist_cons, sublist_skip, sublist_nil.
  - compute_done.
  - simpl. lia.
Defined.

End LookupClaims.

(** ** The extensions of an assignment over the forgotten variables *)

Section Extensions.
Import Mach Dbl Bag IntroForget TableSpec.

Variable p : args.
Hypothesis HI : numVI p = Z.of_nat (length (varsI p)).
Hypothesis HF : numVF p = Z.of_nat (length (varsF p)).
Hypothesis HndI : NoDup (varsI p).
Hypothesis HndF : NoDup (varsF p).
Hypothesis H64 : (length (varsI p) <= 64)%nat.

Lemma pre_position (preI restI : list Z) x (pos : nat) :
  varsI p = preI ++ restI -> x ∈ preI -> varsI p !! pos = Some x ->
  (pos < length preI)%nat.
Proof.
  intros Hsplit Hin Hpos.
  apply list_elem_of_lookup_1 in Hin as [k Hk].
  assert (Hk' : varsI p !! k = Some x).
  { rewrite Hsplit. rewrite lookup_app_l; [exact Hk|].
    eapply lookup_lt_Some; exact Hk. }
  rewrite (NoDup_lookup _ _ _ _ HndI Hpos Hk').
  eapply lookup_lt_Some; exact Hk.
Qed.

Lemma head_position (preI restI : list Z) v :
  varsI p = preI ++ v :: restI -> varsI p !! length preI = Some v.
Proof. intros ->. apply list_lookup_middle. reflexivity. Qed.

(** The head of the rest of [varsI] is kept exactly when it is the head
    of the rest of [varsF]. *)
Lemma head_kept (preI restI preF restF : list Z) vi :
  varsI p = preI ++ vi :: restI -> varsF p = preF ++ restF ->
  restF `sublist_of` (vi :: restI) ->
  (forall x, x ∈ preF -> x ∈ preI) ->
  vi ∈ varsF p -> exists restF', restF = vi :: restF'.
Proof.
  intros HsI HsF Hsub Hpre Hin.
  pose proof HndI as Hnd. rewrite HsI in Hnd.
  apply NoDup_app_cons_not_in in Hnd as (Hvpre & Hvrest).
  rewrite HsF in Hin. apply elem_of_app in Hin as [Hin|Hin];
    [exfalso; auto|].
  destruct restF as [|vf restF']; [inversion Hin|].
  destruct (Z.eq_dec vi vf) as [->|Hne]; [eauto|].
  exfalso. apply sublist_cons_other in Hsub; [|exact Hne].
  apply Hvrest. eapply elem_of_sublist; [exact Hin|exact Hsub].
Qed.

Lemma template_loop_spec id :
  forall restI preI preF restF tid,
    varsI p = preI ++ restI -> varsF p = preF ++ restF ->
    restF `sublist_of` restI ->
    (forall x, x ∈ preF -> x ∈ preI) ->
    (forall j, Z.of_nat (length preI) <= j < 64 ->
       Z.testbit tid j = false) ->
    exists tid',
      template_loop p id (length restI) (Z.of_nat (length preI))
        (Z.of_nat (length preF)) tid = Some tid' /\
      (forall j, 0 <= j < Z.of_nat (length preI) ->
         Z.testbit tid' j = Z.testbit tid j) /\
      (forall (pos a : nat) v, (length preI <= pos)%nat ->
         varsI p !! pos = Some v -> varsF p !! a = Some v ->
         Z.testbit tid' (Z.of_nat pos) = Z.testbit id (Z.of_nat a)) /\
      (forall (pos : nat) v, (length preI <= pos)%nat ->
         varsI p !! pos = Some v -> v ∉ varsF p ->
         Z.testbit tid' (Z.of_nat pos) = false) /\
      (forall j, Z.of_nat (length (varsI p)) <= j < 64 ->
         Z.testbit tid' j = false).
Proof.
  induction restI as [|vi restI IH];
    intros preI preF restF tid HsI HsF Hsub Hpre Hz.
  - exists tid. split; [reflexivity|].
    assert (Hall : length (varsI p) = length preI)
      by (rewrite HsI, length_app; simpl; lia).
    split; [auto|]. split; [|split].
    + intros pos a v Hpos Hv _. apply lookup_lt_Some in Hv. lia.
    + intros pos v Hpos Hv _. apply lookup_lt_Some in Hv. lia.
    + intros j Hj. apply Hz. lia.
  - assert (Hlen : (length preI < length (varsI p))%nat)
      by (rewrite HsI, length_app; simpl; lia).
    assert (Hhead := head_position preI restI vi HsI).
    assert (HsI' : varsI p = (preI ++ [vi]) ++ restI)
      by (rewrite <- app_assoc; exact HsI).
    assert (Hlen' : Z.of_nat (length preI) + 1
                    = Z.of_nat (length (preI ++ [vi])))
      by (rewrite length_app; simpl; lia).
    assert (Hlen'' : length (preI ++ [vi]) = S (length preI))
      by (rewrite length_app; simpl; lia).
    pose proof HndI as Hnd. rewrite HsI in Hnd.
    apply NoDup_app_cons_not_in in Hnd as (Hvpre & Hvrest).
    cbn [length template_loop].
    destruct (Z.ltb_spec (Z.of_nat (length preI)) (numVI p)); [|lia].
    destruct restF as [|vf restF].
    + (* all kept variables are behind *)
      destruct (Z.ltb_spec (Z.of_nat (length preF)) (numVF p)).
      { rewrite HF, HsF, length_app in *. simpl in *. lia. }
      cbn [andb]. exists tid. split; [reflexivity|].
      split; [auto|]. split; [|split].
      * intros pos a v Hpos Hv Ha. exfalso.
        assert (Hin : v ∈ preF).
        { rewrite app_nil_r in HsF. rewrite <- HsF.
          eapply list_elem_of_lookup_2; exact Ha. }
        pose proof (pre_position preI (vi :: restI) v pos HsI
                      (Hpre v Hin) Hv). lia.
      * intros pos v Hpos Hv _. apply Hz.
        apply lookup_lt_Some in Hv. lia.
      * intros j Hj. apply Hz. lia.
    + destruct (Z.ltb_spec (Z.of_nat (length preF)) (numVF p)).
      2:{ rewrite HF, HsF, length_app in *. simpl in *. lia. }
      cbn [andb].
      assert (Hrv : rd (varsI p) (Z.of_nat (length preI)) = Some vi)
        by (rewrite HsI; apply rd_middle).
      assert (Hrf : rd (varsF p) (Z.of_nat (length preF)) = Some vf)
        by (rewrite HsF; apply rd_middle).
      assert (Hfhead : varsF p !! length preF = Some vf)
        by (rewrite HsF; apply list_lookup_middle; reflexivity).
      rewrite Hrv. cbn [mbind option_bind]. rewrite Hrf.
      cbn [mbind option_bind].
      destruct (Z.eqb_spec vi vf) as [<-|Hne].
      * (* a kept variable *)
        apply sublist_cons_head in Hsub; [|exact Hvrest].
        set (tid1 := Z.lor tid
                       (shl64 (id_bit id (Z.of_nat (length preF)))
                          (Z.of_nat (length preI)))).
        assert (Hbit1 : forall j, 0 <= j < 64 ->
                  Z.testbit tid1 j
                  = Z.testbit tid j
                    || (j =? Z.of_nat (length preI))
                       && Z.testbit id (Z.of_nat (length preF))).
        { intros j Hj. unfold tid1. rewrite Z.lor_spec.
          rewrite shl64_id_bit_testbit by lia. reflexivity. }
        destruct (IH (preI ++ [vi]) (preF ++ [vi]) restF tid1)
          as (tid' & Hrun & Hlow & Hkept & Hfree & Hhigh).
        { exact HsI'. }
        { rewrite <- app_assoc. exact HsF. }
        { exact Hsub. }
        { intros x Hx. apply elem_of_app in Hx as [Hx|Hx];
            apply elem_of_app; [left; auto|right; exact Hx]. }
        { intros j Hj. rewrite Hbit1 by lia. rewrite Hz by lia.
          destruct (Z.eqb_spec j (Z.of_nat (length preI))); [lia|].
          reflexivity. }
        exists tid'. split.
        { rewrite Hlen'.
          replace (Z.of_nat (length preF) + 1)
            with (Z.of_nat (length (preF ++ [vi])))
            by (rewrite length_app; simpl; lia).
          exact Hrun. }
        split; [|split; [|split; [|exact Hhigh] ] ].
        { intros j Hj. rewrite Hlow by lia. rewrite Hbit1 by lia.
          destruct (Z.eqb_spec j (Z.of_nat (length preI))); [lia|].
          apply orb_false_r. }
        { intros pos a v Hpos Hv Ha.
          destruct (Nat.eq_dec pos (length preI)) as [->|Hnp].
          - assert (v = vi) as -> by congruence.
            assert (a = length preF) as ->
              by (eapply NoDup_lookup; eauto).
            rewrite Hlow by lia. rewrite Hbit1 by lia.
            rewrite Hz by lia. rewrite Z.eqb_refl. reflexivity.
          - eapply Hkept; eauto. lia. }
        { intros pos v Hpos Hv Hnin.
          destruct (Nat.eq_dec pos (length preI)) as [->|Hnp].
          - exfalso. apply Hnin.
            assert (v = vi) as -> by congruence.
            eapply list_elem_of_lookup_2; exact Hfhead.
          - eapply Hfree; eauto. lia. }
      * (* a variable that is not kept *)
        apply sublist_cons_other in Hsub; [|exact Hne].
        assert (Hnk : vi ∉ varsF p).
        { intros Hin.
          destruct (head_kept preI restI preF (vf :: restF) vi HsI HsF)
            as (r & E); auto; [|congruence].
          apply sublist_cons. exact Hsub. }
        destruct (IH (preI ++ [vi]) preF (vf :: restF) tid)
          as (tid' & Hrun & Hlow & Hkept & Hfree & Hhigh).
        { exact HsI'. }
        { exact HsF. }
        { exact Hsub. }
        { intros x Hx. apply elem_of_app. left. auto. }
        { intros j Hj. apply Hz. lia. }
        exists tid'. split; [rewrite Hlen'; exact Hrun|].
        split; [|split; [|split; [|exact Hhigh] ] ].
        { intros j Hj. apply Hlow. lia. }
        { intros pos a v Hpos Hv Ha.
          destruct (Nat.eq_dec pos (length preI)) as [->|Hnp].
          - exfalso. apply Hnk.
            assert (v = vi) as -> by congruence.
            eapply list_elem_of_lookup_2; exact Ha.
          - eapply Hkept; eauto. lia. }
        { intros pos v Hpos Hv Hnin.
          destruct (Nat.eq_dec pos (length preI)) as [->|Hnp].
          - rewrite Hlow by lia. apply Hz. lia.
          - eapply Hfree; eauto. lia. }
Qed.

Lemma kept_before_pre (preI restI : list Z) :
  varsI p = preI ++ restI ->
  kept_before (varsI p) (varsF p) (length preI)
  = Z.of_nat (length (filter (fun v => v ∈ varsF p) preI)).
Proof.
  intros ->. unfold kept_before. rewrite take_app_length. reflexivity.
Qed.

Lemma extend_loop_spec i :
  forall restI preI preF restF o,
    varsI p = preI ++ restI -> varsF p = preF ++ restF ->
    restF `sublist_of` restI ->
    (forall x, x ∈ preF -> x ∈ preI) ->
    length (filter (fun v => v ∈ varsF p) preI) = length preF ->
    exists o',
      extend_loop p i (length restI) (Z.of_nat (length preI))
        (Z.of_nat (length preF)) o = Some o' /\
      (forall j, 0 <= j < 64 ->
         j < Z.of_nat (length preI) \/ Z.of_nat (length (varsI p)) <= j ->
         Z.testbit o' j = Z.testbit o j) /\
      (forall (pos : nat) v, (length preI <= pos)%nat ->
         varsI p !! pos = Some v -> v ∈ varsF p ->
         Z.testbit o' (Z.of_nat pos) = Z.testbit o (Z.of_nat pos)) /\
      (forall (pos : nat) v, (length preI <= pos)%nat ->
         varsI p !! pos = Some v -> v ∉ varsF p ->
         Z.testbit o' (Z.of_nat pos)
         = Z.testbit o (Z.of_nat pos)
           || Z.testbit i (Z.of_nat pos
                           - kept_before (varsI p) (varsF p) pos)).
Proof.
  induction restI as [|vi restI IH];
    intros preI preF restF o HsI HsF Hsub Hpre Hcount.
  - exists o. split; [reflexivity|]. split; [auto|].
    assert (Hall : length (varsI p) = length preI)
      by (rewrite HsI, length_app; simpl; lia).
    split.
    + intros pos v Hpos Hv _. apply lookup_lt_Some in Hv. lia.
    + intros pos v Hpos Hv _. apply lookup_lt_Some in Hv. lia.
  - assert (Hlen : (length preI < length (varsI p))%nat)
      by (rewrite HsI, length_app; simpl; lia).
    assert (Hhead := head_position preI restI vi HsI).
    assert (HsI' : varsI p = (preI ++ [vi]) ++ restI)
      by (rewrite <- app_assoc; exact HsI).
    assert (Hlen' : Z.of_nat (length preI) + 1
                    = Z.of_nat (length (preI ++ [vi])))
      by (rewrite length_app; simpl; lia).
    assert (Hlen'' : length (preI ++ [vi]) = S (length preI))
      by (rewrite length_app; simpl; lia).
    pose proof HndI as Hnd. rewrite HsI in Hnd.
    apply NoDup_app_cons_not_in in Hnd as (Hvpre & Hvrest).
    assert (Hrv : rd (varsI p) (Z.of_nat (length preI)) = Some vi)
      by (rewrite HsI; apply rd_middle).
    assert (Hkb : kept_before (varsI p) (varsF p) (length preI)
                  = Z.of_nat (length preF))
      by (rewrite (kept_before_pre preI (vi :: restI) HsI), Hcount;
          reflexivity).
    (* the two outcomes of the test of the loop *)
    assert (Hfresh : forall o1,
      vi ∉ varsF p -> restF `sublist_of` restI ->
      o1 = Z.lor o (shl64 (id_bit i (Z.of_nat (length preI)
                                     - Z.of_nat (length preF)))
                      (Z.of_nat (length preI))) ->
      exists o',
        extend_loop p i (length restI) (Z.of_nat (length preI) + 1)
          (Z.of_nat (length preF)) o1 = Some o' /\
        (forall j, 0 <= j < 64 ->
           j < Z.of_nat (length preI) \/ Z.of_nat (length (varsI p)) <= j ->
           Z.testbit o' j = Z.testbit o j) /\
        (forall (pos : nat) v, (length preI <= pos)%nat ->
           varsI p !! pos = Some v -> v ∈ varsF p ->
           Z.testbit o' (Z.of_nat pos) = Z.testbit o (Z.of_nat pos)) /\
        (forall (pos : nat) v, (length preI <= pos)%nat ->
           varsI p !! pos = Some v -> v ∉ varsF p ->
           Z.testbit o' (Z.of_nat pos)
           = Z.testbit o (Z.of_nat pos)
             || Z.testbit i (Z.of_nat pos
                             - kept_before (varsI p) (varsF p) pos))).
    { intros o1 Hnk Hsub' Ho1.
      assert (Hbit1 : forall j, 0 <= j < 64 ->
                Z.testbit o1 j
                = Z.testbit o j
                  || (j =? Z.of_nat (length preI))
                     && Z.testbit i (Z.of_nat (length preI)
                                     - Z.of_nat (length preF))).
      { intros j Hj. rewrite Ho1, Z.lor_spec.
        rewrite shl64_id_bit_testbit; [reflexivity|lia| |lia].
        rewrite <- Hcount.
        pose proof (length_filter (fun v => v ∈ varsF p) preI). lia. }
      destruct (IH (preI ++ [vi]) preF restF o1)
        as (o' & Hrun & Hout & Hkept & Hfree).
      { exact HsI'. }
      { exact HsF. }
      { exact Hsub'. }
      { intros x Hx. apply elem_of_app. left. auto. }
      { rewrite filter_app, length_app, Hcount.
        rewrite filter_cons_False by exact Hnk. simpl. lia. }
      exists o'. split; [rewrite Hlen'; exact Hrun|].
      split; [|split].
      - intros j Hj Hside. rewrite Hout by lia. rewrite Hbit1 by lia.
        destruct (Z.eqb_spec j (Z.of_nat (length preI))); [lia|].
        apply orb_false_r.
      - intros pos v Hpos Hv Hin.
        destruct (Nat.eq_dec pos (length preI)) as [->|Hnp].
        + exfalso. apply Hnk. congruence.
        + rewrite (Hkept pos v) by (auto; lia).
          apply lookup_lt_Some in Hv.
          rewrite Hbit1 by lia.
          destruct (Z.eqb_spec (Z.of_nat pos) (Z.of_nat (length preI)));
            [lia|]. apply orb_false_r.
      - intros pos v Hpos Hv Hnin.
        pose proof (lookup_lt_Some _ _ _ Hv) as Hlt.
        destruct (Nat.eq_dec pos (length preI)) as [->|Hnp].
        + rewrite Hout by lia. rewrite Hbit1 by lia.
          rewrite Z.eqb_refl, Hkb. reflexivity.
        + rewrite (Hfree pos v) by (auto; lia).
          rewrite Hbit1 by lia.
          destruct (Z.eqb_spec (Z.of_nat pos) (Z.of_nat (length preI)));
            [lia|]. rewrite orb_false_r. reflexivity. }
    cbn [length extend_loop].
    destruct (Z.ltb_spec (Z.of_nat (length preI)) (numVI p)); [|lia].
    destruct restF as [|vf restF].
    + (* all kept variables are behind *)
      destruct (Z.geb_spec (Z.of_nat (length preF)) (numVF p)).
      2:{ rewrite HF, HsF, length_app in *. simpl in *. lia. }
      cbn [mbind option_bind].
      apply Hfresh; [|apply sublist_nil_l|reflexivity].
      intros Hin.
      destruct (head_kept preI restI preF [] vi HsI HsF Hsub Hpre Hin)
        as (r & E). discriminate.
    + destruct (Z.geb_spec (Z.of_nat (length preF)) (numVF p)).
      { rewrite HF, HsF, length_app in *. simpl in *. lia. }
      assert (Hrf : rd (varsF p) (Z.of_nat (length preF)) = Some vf)
        by (rewrite HsF; apply rd_middle).
      rewrite Hrv. cbn [mbind option_bind]. rewrite Hrf.
      cbn [mbind option_bind].
      destruct (Z.eqb_spec vi vf) as [<-|Hne]; cbn [negb].
      * (* a kept variable *)
        apply sublist_cons_head in Hsub; [|exact Hvrest].
        assert (Hk : vi ∈ varsF p).
        { rewrite HsF. apply elem_of_app. right.
          apply elem_of_cons. left. reflexivity. }
        destruct (IH (preI ++ [vi]) (preF ++ [vi]) restF o)
          as (o' & Hrun & Hout & Hkept & Hfree).
        { exact HsI'. }
        { rewrite <- app_assoc. exact HsF. }
        { exact Hsub. }
        { intros x Hx. apply elem_of_app in Hx as [Hx|Hx];
            apply elem_of_app; [left; auto|right; exact Hx]. }
        { rewrite filter_app, !length_app, Hcount.
          rewrite filter_cons_True by exact Hk. reflexivity. }
        exists o'. split.
        { rewrite Hlen'.
          replace (Z.of_nat (length preF) + 1)
            with (Z.of_nat (length (preF ++ [vi])))
            by (rewrite length_app; simpl; lia).
          exact Hrun. }
        split; [|split].
        { intros j Hj Hside. apply Hout; lia. }
        { intros pos v Hpos Hv Hin.
          destruct (Nat.eq_dec pos (length preI)) as [->|Hnp].
          - apply Hout; lia.
          - eapply Hkept; eauto. lia. }
        { intros pos v Hpos Hv Hnin.
          destruct (Nat.eq_dec pos (length preI)) as [->|Hnp].
          - exfalso. apply Hnin. congruence.
          - eapply Hfree; eauto. lia. }
      * (* a forgotten variable *)
        apply sublist_cons_other in Hsub; [|exact Hne].
        apply Hfresh; [|exact Hsub|reflexivity].
        intros Hin.
        destruct (head_kept preI restI preF (vf :: restF) vi HsI HsF)
          as (r & E); auto; [|congruence].
        apply sublist_cons. exact Hsub.
Qed.

End Extensions.

Section ExtensionClaims.
Import Mach Dbl Bag IntroForget TableSpec.

(** The ids that a worker of [solveIntroduceForget] sums over.  The table
    variables [varsF] are a subsequence of the distinct bag variables
    [varsI].  For the worker of [id] and the extension number [i], the
    template loop and the extension loop end inside the buffers, and the
    assignment [otherId] of the bag they build has, at the position of a
    variable of the table, the bit of [id] at the position of this
    variable in the table, and at the position of the [k]-th forgotten
    variable bit [k] of [i]. *)
Theorem extension_bits (p : args) (id i : Z) :
  numVI p = Z.of_nat (length (varsI p)) ->
  numVF p = Z.of_nat (length (varsF p)) ->
  NoDup (varsI p) -> varsF p `sublist_of` varsI p ->
  (length (varsI p) <= 64)%nat ->
  exists templateId otherId,
    template_loop p id (Z.to_nat (numVI p)) 0 0 0 = Some templateId /\
    extend_loop p i (Z.to_nat (numVI p)) 0 0 templateId = Some otherId /\
    (forall (pos a : nat) v,
       varsI p !! pos = Some v -> varsF p !! a = Some v ->
       Z.testbit otherId (Z.of_nat pos) = Z.testbit id (Z.of_nat a)) /\
    (forall (pos : nat) v,
       varsI p !! pos = Some v -> v ∉ varsF p ->
       Z.testbit otherId (Z.of_nat pos)
       = Z.testbit i (Z.of_nat pos - kept_before (varsI p) (varsF p) pos)) /\
    (forall j, Z.of_nat (length (varsI p)) <= j < 64 ->
       Z.testbit otherId j = false).
Proof.
  intros HI HF HndI Hsub H64.
  assert (HndF : NoDup (varsF p)) by (eapply sublist_NoDup; eauto).
  rewrite HI, Nat2Z.id.
  destruct (template_loop_spec p HI HF HndI HndF H64 id (varsI p) [] []
              (varsF p) 0)
    as (tid & Ht & _ & Hkept & Hfree & Hhigh);
    [reflexivity|reflexivity|exact Hsub| |intros j _; apply Z.bits_0|].
  { intros x Hx. inversion Hx. }
  destruct (extend_loop_spec p HI HF HndI HndF H64 i (varsI p) [] []
              (varsF p) tid)
    as (o & Ho & Hout & Hkept' & Hfree');
    [reflexivity|reflexivity|exact Hsub| |reflexivity|].
  { intros x Hx. inversion Hx. }
  exists tid, o. split; [exact Ht|]. split; [exact Ho|].
  split; [|split].
  - intros pos a v Hv Ha.
    rewrite (Hkept' pos v) by
      (simpl; try lia; auto; eapply list_elem_of_lookup_2; exact Ha).
    eapply Hkept; eauto. simpl. lia.
  - intros pos v Hv Hnin.
    rewrite (Hfree' pos v) by (simpl; try lia; auto).
    rewrite (Hfree pos v) by (simpl; try lia; auto). reflexivity.
  - intros j Hj. rewrite Hout by lia. apply Hhigh. exact Hj.
Qed.

Lemma extension_bits_witness :
  exists templateId otherId,
    template_loop Sample.leaf_args 2
      (Z.to_nat (numVI Sample.leaf_args)) 0 0 0 = Some templateId /\
    extend_loop Sample.leaf_args 1
      (Z.to_nat (numVI Sample.leaf_args)) 0 0 templateId = Some otherId /\
    (forall (pos a : nat) v,
       varsI Sample.leaf_args !! pos = Some v ->
       varsF Sample.leaf_args !! a = Some v ->
       Z.testbit otherId (Z.of_nat pos) = Z.testbit 2 (Z.of_nat a)) /\
    (forall (pos : nat) v,
       varsI Sample.leaf_args !! pos = Some v ->
       v ∉ varsF Sample.leaf_args ->
       Z.testbit otherId (Z.of_nat pos)
       = Z.testbit 1
           (Z.of_nat pos
            - kept_before (varsI Sample.leaf_args)
                (varsF Sample.leaf_args) pos)) /\
    (forall j, Z.of_nat (length (varsI Sample.leaf_args)) <= j < 64 ->
       Z.testbit otherId j = false).
Proof.
  apply (extension_bits Sample.leaf_args 2 1).
  - reflexivity.
  - reflexivity.
  - compute_done.
  - apply sublist_skip, sublist_cons, sublist_skip, sublist_nil.
  - simpl. lia.
Defined.

End ExtensionClaims.

Section WriteBackClaims.
Import Mach Dbl Bag IntroForget Trie TrieSpec.

(** The write-back of the introduce-forget kernel in the trie build is a
    read-modify-write.  A worker below [max_id] whose sum [tmp] is
    positive, on a well-formed trie with room, reads the count [last] of
    its assignment and stores [tmp / value + last] ([tmp + last] without
    exponents) as its new count; the trie stays well formed and every
    other assignment keeps its count. *)
Theorem solveIntroduceForget_trie_write (bld : build) (p : args) (gid : Z)
    (st : state) (tmp : float) :
  ARRAY_TYPE bld = false ->
  gid + id_offset p < max_id p ->
  worker_sum bld p (gid + id_offset p) = Some tmp -> gt0 tmp = true ->
  trie (numVF p) (sols st) (solsF st) -> 0 <= numVF p ->
  0 <= gid + id_offset p < 2 ^ numVF p ->
  sols st + Z.max (numVF p) 1 < Z.of_nat (length (solsF st)) ->
  sols st + numVF p + 2 < 2 ^ 32 ->
  exists st' last,
    solveIntroduceForget bld p gid st = Some st' /\
    getCount (gid + id_offset p) (solsF st) (numVF p) = Some last /\
    getCount (gid + id_offset p) (solsF st') (numVF p)
    = Some (stored bld p tmp last) /\
    trie (numVF p) (sols st') (solsF st') /\
    (forall id', 0 <= id' < 2 ^ numVF p -> id' <> gid + id_offset p ->
       getCount id' (solsF st') (numVF p)
       = getCount id' (solsF st) (numVF p)).
Proof.
  intros Ha Hid Hsum Hpos Ht Hn Hrange Hcap H32.
  destruct (getCount_total (numVF p) (sols st) (solsF st)
              (gid + id_offset p) Ht Hn) as [last Hlast].
  destruct (setCount_spec (numVF p) (sols st) (solsF st)
              (gid + id_offset p) (stored bld p tmp last)
              Ht Hn Hrange Hcap H32)
    as (t' & ts' & Hset & Hget & Ht' & _ & _ & Hfr).
  unfold solveIntroduceForget.
  destruct (Z.geb_spec (gid + id_offset p) (max_id p)); [lia|].
  rewrite Hsum. cbn [mbind option_bind].
  unfold write_back. rewrite Hpos, Ha, Hlast. cbn [mbind option_bind].
  rewrite Hset. cbn [mbind option_bind].
  eexists _, last. split; [reflexivity|]. cbn [solsF sols].
  auto.
Qed.

Lemma solveIntroduceForget_trie_write_witness :
  exists st' last,
    solveIntroduceForget Demo.trie_exp Sample.leaf_args 3
      Sample.leaf_trie = Some st' /\
    getCount (3 + id_offset Sample.leaf_args) (solsF Sample.leaf_trie)
      (numVF Sample.leaf_args) = Some last /\
    getCount (3 + id_offset Sample.leaf_args) (solsF st')
      (numVF Sample.leaf_args)
    = Some (stored Demo.trie_exp Sample.leaf_args 2 last) /\
    trie (numVF Sample.leaf_args) (sols st') (solsF st') /\
    (forall id', 0 <= id' < 2 ^ numVF Sample.leaf_args ->
       id' <> 3 + id_offset Sample.leaf_args ->
       getCount id' (solsF st') (numVF Sample.leaf_args)
       = getCount id' (solsF Sample.leaf_trie) (numVF Sample.leaf_args)).
Proof.
  apply (solveIntroduceForget_trie_write Demo.trie_exp Sample.leaf_args 3
           Sample.leaf_trie 2%float).
  - reflexivity.
  - simpl. lia.
  - vm_compute. reflexivity.
  - vm_compute. reflexivity.
  - apply trie_empty. lia.
  - simpl. lia.
  - simpl. lia.
  - vm_compute. reflexivity.
  - vm_compute. reflexivity.
Defined.

End WriteBackClaims.

Section JoinPasses.
Import Mach Dbl Bag Join.

(** Two launches of [solveJoin] that fill one slot in two passes, the
    first with only the first child in range and the second with only the
    second child in range.  Starting from a slot that holds a negative
    value, the first pass stores [tmp1 * 1 / weight] and the second pass
    multiplies what it finds by [tmp2] and divides by [value]: over the
    two passes the product of the two counts is divided once by the
    weight and once by the correction value. *)
Theorem solveJoin_passes (bld : build) (p q : args) (gid : Z) (st : state)
    (tmp1 none1 tmp2 none2 weight weight' : float) (w : Z) :
  NO_EXP bld = false ->
  id_offset q = id_offset p -> startIDNode q = startIDNode p ->
  gid + id_offset p < max_id p -> gid + id_offset p < max_id q ->
  lookup1 bld p (gid + id_offset p) = Some tmp1 ->
  lookup2 bld p (gid + id_offset p) = Some none2 ->
  lookup1 bld q (gid + id_offset p) = Some none1 ->
  lookup2 bld q (gid + id_offset p) = Some tmp2 ->
  bag_weight (weights p) (variables p) (numV p) (gid + id_offset p) 1%float
    = Some weight ->
  bag_weight (weights q) (variables q) (numV q) (gid + id_offset p) 1%float
    = Some weight' ->
  ge0 tmp1 = true -> ge0 none2 = false ->
  ge0 none1 = false -> ge0 tmp2 = true ->
  rd (solutions st) (gid + id_offset p - startIDNode p) = Some w ->
  lt0 (longlong_as_double w) = true ->
  lt0 (tmp1 * 1 / weight)%float = false ->
  exists st1 st2,
    solveJoin bld p gid st = Some st1 /\
    solveJoin bld q gid st1 = Some st2 /\
    rd (solutions st2) (gid + id_offset p - startIDNode p)
    = Some (double_as_longlong (tmp2 * (tmp1 * 1 / weight) / value q)%float).
Proof. apply solveJoin_two_passes. Qed.

Lemma solveJoin_passes_witness :
  exists st1 st2,
    solveJoin Demo.array_exp (Demo.join_args 0 (-1)) 0 Demo.join_state
    = Some st1 /\
    solveJoin Demo.array_exp (Demo.join_args (-1) 0) 0 st1 = Some st2 /\
    rd (solutions st2)
      (0 + id_offset (Demo.join_args 0 (-1))
       - startIDNode (Demo.join_args 0 (-1)))
    = Some (double_as_longlong
              (5 * (3 * 1 / 1) / value (Demo.join_args (-1) 0))%float).
Proof.
  apply (solveJoin_passes Demo.array_exp (Demo.join_args 0 (-1))
           (Demo.join_args (-1) 0) 0 Demo.join_state
           3%float (-1)%float 5%float (-1)%float 1%float 1%float
           (Demo.d (-1))); vm_compute; reflexivity.
Defined.

End JoinPasses.
